(** * SecurID token handling (stoken, src/securid.c): a shallow embedding

    The C functions of securid.c are rendered as Rocq functions over
    [Z]-valued bytes.  Fixed-width integer types carry their wrap-around
    explicitly ([u8], [u16], [u32]); byte buffers are [list Z]; output
    parameters are returned as the new contents of the buffer or record.

    Conventions.
    - A [const char *] argument is the list of bytes found from the pointer
      on; the C string it denotes ends at the first 0 byte, or at the end of
      the list ([strlen], [c_str]).
    - A possibly-NULL pointer is an [option].
    - A buffer write beyond the end of the list is dropped and a read
      beyond it yields 0; the theorems state the buffer sizes the C code
      needs so that no such access happens.
    - The block cipher of libtomcrypt is a parameter of the development
      ([rijndael_ecb_encrypt], [rijndael_ecb_decrypt]); module [AES] gives
      the FIPS-197 cipher itself so that the functions can be evaluated. *)

From Stdlib Require Import String Ascii.
From Stdlib Require Import ZArith List Lia Bool Zify Btauto.
Import ListNotations.
Local Open Scope Z_scope.

(* ================================================================== *)
(** * AES-128 (FIPS-197), the cipher behind [rijndael_ecb_encrypt]      *)
(* ================================================================== *)

Module AES.

(** Multiplication by x in GF(2^8) modulo x^8 + x^4 + x^3 + x + 1. *)
Definition xtime (b : Z) : Z :=
  let s := Z.shiftl b 1 in
  if Z.testbit b 7 then Z.lxor (Z.land s 255) 27 else s.

Fixpoint gmul_loop (n : nat) (a b acc : Z) : Z :=
  match n with
  | O => acc
  | S n' => gmul_loop n' (xtime a) (Z.shiftr b 1)
              (if Z.testbit b 0 then Z.lxor acc a else acc)
  end.

Definition gmul (a b : Z) : Z := gmul_loop 8 a b 0.

Definition gsq (a : Z) : Z := gmul a a.

(** The multiplicative inverse, a^254 (0 is sent to 0). *)
Definition ginv (a : Z) : Z :=
  let a2 := gsq a in let a4 := gsq a2 in let a8 := gsq a4 in
  let a16 := gsq a8 in let a32 := gsq a16 in let a64 := gsq a32 in
  let a128 := gsq a64 in
  gmul a2 (gmul a4 (gmul a8 (gmul a16 (gmul a32 (gmul a64 a128))))).

Definition rotl8 (b k : Z) : Z :=
  Z.land (Z.lor (Z.shiftl b k) (Z.shiftr b (8 - k))) 255.

(** S-box: inversion followed by the affine map. *)
Definition sbox_of (a : Z) : Z :=
  let b := ginv a in
  Z.lxor (Z.lxor (Z.lxor (Z.lxor (Z.lxor b (rotl8 b 1)) (rotl8 b 2)) (rotl8 b 3))
            (rotl8 b 4)) 99.

Definition sbox_table : list Z :=
  Eval vm_compute in map (fun i => sbox_of (Z.of_nat i)) (seq 0 256).

Fixpoint index_from (x : Z) (l : list Z) (i : Z) : Z :=
  match l with
  | [] => 0
  | y :: l' => if y =? x then i else index_from x l' (i + 1)
  end.

Definition inv_sbox_table : list Z :=
  Eval vm_compute in
    map (fun i => index_from (Z.of_nat i) sbox_table 0) (seq 0 256).

Definition sbox (b : Z) : Z := nth (Z.to_nat b) sbox_table 0.
Definition inv_sbox (b : Z) : Z := nth (Z.to_nat b) inv_sbox_table 0.

Definition xor_bytes (a b : list Z) : list Z :=
  map (fun p => Z.lxor (fst p) (snd p)) (combine a b).

Definition sub_bytes (s : list Z) : list Z := map sbox s.
Definition inv_sub_bytes (s : list Z) : list Z := map inv_sbox s.

(** The state is kept column-major: byte 4c+r is row r of column c. *)
Definition shift_rows (s : list Z) : list Z :=
  map (fun i => nth (4 * ((i / 4 + i mod 4) mod 4) + i mod 4)%nat s 0)
      (seq 0 16).

Definition inv_shift_rows (s : list Z) : list Z :=
  map (fun i => nth (4 * ((i / 4 + 4 - i mod 4) mod 4) + i mod 4)%nat s 0)
      (seq 0 16).

Definition mix_column (a0 a1 a2 a3 : Z) : list Z :=
  [ Z.lxor (Z.lxor (Z.lxor (gmul a0 2) (gmul a1 3)) a2) a3;
    Z.lxor (Z.lxor (Z.lxor a0 (gmul a1 2)) (gmul a2 3)) a3;
    Z.lxor (Z.lxor (Z.lxor a0 a1) (gmul a2 2)) (gmul a3 3);
    Z.lxor (Z.lxor (Z.lxor (gmul a0 3) a1) a2) (gmul a3 2) ].

Definition inv_mix_column (a0 a1 a2 a3 : Z) : list Z :=
  [ Z.lxor (Z.lxor (Z.lxor (gmul a0 14) (gmul a1 11)) (gmul a2 13)) (gmul a3 9);
    Z.lxor (Z.lxor (Z.lxor (gmul a0 9) (gmul a1 14)) (gmul a2 11)) (gmul a3 13);
    Z.lxor (Z.lxor (Z.lxor (gmul a0 13) (gmul a1 9)) (gmul a2 14)) (gmul a3 11);
    Z.lxor (Z.lxor (Z.lxor (gmul a0 11) (gmul a1 13)) (gmul a2 9)) (gmul a3 14)
  ].

Fixpoint by_columns (f : Z -> Z -> Z -> Z -> list Z) (s : list Z) : list Z :=
  match s with
  | a0 :: a1 :: a2 :: a3 :: s' => f a0 a1 a2 a3 ++ by_columns f s'
  | _ => []
  end.

Definition mix_columns : list Z -> list Z := by_columns mix_column.
Definition inv_mix_columns : list Z -> list Z := by_columns inv_mix_column.

Definition next_round_key (rcon : Z) (k : list Z) : list Z :=
  let b i := nth i k 0 in
  let w0 := [ Z.lxor (Z.lxor (b 0%nat) (sbox (b 13%nat))) rcon;
              Z.lxor (b 1%nat) (sbox (b 14%nat));
              Z.lxor (b 2%nat) (sbox (b 15%nat));
              Z.lxor (b 3%nat) (sbox (b 12%nat)) ] in
  let w1 := xor_bytes w0 (firstn 4 (skipn 4 k)) in
  let w2 := xor_bytes w1 (firstn 4 (skipn 8 k)) in
  let w3 := xor_bytes w2 (firstn 4 (skipn 12 k)) in
  w0 ++ w1 ++ w2 ++ w3.

Definition rcons : list Z := [1; 2; 4; 8; 16; 32; 64; 128; 27; 54].

Fixpoint expand (rc : list Z) (k : list Z) : list (list Z) :=
  match rc with
  | [] => []
  | r :: rc' => let k' := next_round_key r k in k' :: expand rc' k'
  end.

Definition round (s rk : list Z) : list Z :=
  xor_bytes (mix_columns (shift_rows (sub_bytes s))) rk.

Definition final_round (s rk : list Z) : list Z :=
  xor_bytes (shift_rows (sub_bytes s)) rk.

Definition encrypt (key pt : list Z) : list Z :=
  let rks := expand rcons key in
  let s := fold_left round (firstn 9 rks) (xor_bytes pt key) in
  final_round s (nth 9 rks []).

Definition inv_round (s rk : list Z) : list Z :=
  inv_mix_columns (xor_bytes (inv_sub_bytes (inv_shift_rows s)) rk).

Definition decrypt (key ct : list Z) : list Z :=
  let rks := expand rcons key in
  let s := xor_bytes ct (nth 9 rks []) in
  let s := fold_left inv_round (rev (firstn 9 rks)) s in
  xor_bytes (inv_sub_bytes (inv_shift_rows s)) key.

End AES.

(* ================================================================== *)
(** * C integer types and memory                                        *)
(* ================================================================== *)

Definition u8 (x : Z) : Z := x mod 2 ^ 8.
Definition u16 (x : Z) : Z := x mod 2 ^ 16.
Definition u32 (x : Z) : Z := x mod 2 ^ 32.

(** Conversion to a 32-bit [int] (two's complement). *)
Definition s32 (x : Z) : Z := (x + 2 ^ 31) mod 2 ^ 32 - 2 ^ 31.

(** The value of a byte read through a plain [char], which is signed on
    the usual platforms. *)
Definition schar (b : Z) : Z := if b <? 128 then b else b - 256.

(** [BIT(x)] of the header: [1 << x]. *)
Definition BIT (x : Z) : Z := Z.shiftl 1 x.

(** A buffer holds bytes when each element is a [uint8_t] value. *)
Definition is_byte (b : Z) : Prop := 0 <= b < 256.
Definition bytes (l : list Z) : Prop := Forall is_byte l.
Definition is_block (l : list Z) : Prop := length l = 16%nat /\ bytes l.

(** [l[i] = v]. *)
Fixpoint upd (i : nat) (v : Z) (l : list Z) : list Z :=
  match l, i with
  | [], _ => []
  | _ :: l', O => v :: l'
  | x :: l', S i' => x :: upd i' v l'
  end.

(** [memcpy(&dst[ofs], src, length src)], byte by byte. *)
Fixpoint write_at (dst : list Z) (ofs : nat) (src : list Z) : list Z :=
  match src with
  | [] => dst
  | b :: src' => write_at (upd ofs b dst) (S ofs) src'
  end.

(** [&l[ofs]] read for [n] bytes. *)
Definition sub (l : list Z) (ofs n : nat) : list Z := firstn n (skipn ofs l).

(** The C string at the start of a buffer, without its terminator. *)
Fixpoint c_str (s : list Z) : list Z :=
  match s with
  | [] => []
  | c :: s' => if c =? 0 then [] else c :: c_str s'
  end.

Definition strlen (s : list Z) : Z := Z.of_nat (length (c_str s)).

(** A Rocq string literal as C characters. *)
Definition chars (s : string) : list Z :=
  map (fun a => Z.of_N (N_of_ascii a)) (list_ascii_of_string s).

(** <ctype.h>, "C" locale. *)
Definition isdigit (c : Z) : bool := (48 <=? c) && (c <=? 57).
Definition isxdigit (c : Z) : bool :=
  isdigit c || ((97 <=? c) && (c <=? 102)) || ((65 <=? c) && (c <=? 70)).

(* ================================================================== *)
(** * securid.h                                                         *)
(* ================================================================== *)

(** Modelled from the spec: securid.h is not among the sources.  The
    constants below are the ones the spec fixes: 16-byte AES blocks and
    keys, PINs of 4 to 8 digits, the 7-byte magic suffix, one version
    character followed by a 12-character serial, 3 bits per character, a
    binary part of 128+16+14+1+15+15 = 189 bits starting at character 13,
    a checksum of 5 characters (15 bits) starting at character 76, and the
    epoch 2000-01-01 00:00:00 UTC. *)
Definition AES_BLOCK_SIZE : Z := 16.
Definition AES_KEY_SIZE : Z := 16.
Definition MIN_PIN : Z := 4.
Definition MAX_PIN : Z := 8.
Definition MAGIC_LEN : Z := 7.
Definition DEVID_CHARS : Z := 40.
Definition VER_CHARS : Z := 1.
Definition SERIAL_CHARS : Z := 12.
Definition CHECKSUM_CHARS : Z := 5.
Definition CHECKSUM_BITS : Z := 15.
Definition TOKEN_BITS_PER_CHAR : Z := 3.
Definition BINENC_BITS : Z := 189.
Definition BINENC_OFS : Z := VER_CHARS + SERIAL_CHARS.
Definition CHECKSUM_OFS : Z := BINENC_OFS + BINENC_BITS / TOKEN_BITS_PER_CHAR.
Definition SECURID_EPOCH : Z := 946684800.

(** The error codes of the header. *)
Inductive error : Set :=
| ERR_NONE
| ERR_GENERAL
| ERR_BAD_LEN
| ERR_TOKEN_VERSION
| ERR_CHECKSUM_FAILED
| ERR_BAD_PASSWORD
| ERR_MISSING_PASSWORD
| ERR_DECRYPT_FAILED
| ERR_BAD_DEVID.

Definition error_eqb (a b : error) : bool :=
  match a, b with
  | ERR_NONE, ERR_NONE | ERR_GENERAL, ERR_GENERAL | ERR_BAD_LEN, ERR_BAD_LEN
  | ERR_TOKEN_VERSION, ERR_TOKEN_VERSION
  | ERR_CHECKSUM_FAILED, ERR_CHECKSUM_FAILED
  | ERR_BAD_PASSWORD, ERR_BAD_PASSWORD
  | ERR_MISSING_PASSWORD, ERR_MISSING_PASSWORD
  | ERR_DECRYPT_FAILED, ERR_DECRYPT_FAILED
  | ERR_BAD_DEVID, ERR_BAD_DEVID => true
  | _, _ => false
  end.

(** [struct securid_token], with the fields securid.c uses.  [serial] and
    [pin] are the [char] arrays (terminator included), the seeds are the
    16-byte arrays, the [int] members are integers. *)
Record securid_token : Set := mk_token {
  serial : list Z;
  flags : Z;
  exp_date : Z;
  is_smartphone : Z;
  has_enc_seed : Z;
  enc_seed : list Z;
  dec_seed_hash : Z;
  device_id_hash : Z;
  has_dec_seed : Z;
  dec_seed : list Z;
  pinmode : Z;
  pin : list Z
}.

Definition set_serial (t : securid_token) (v : list Z) : securid_token :=
  mk_token v (flags t) (exp_date t) (is_smartphone t) (has_enc_seed t)
    (enc_seed t) (dec_seed_hash t) (device_id_hash t) (has_dec_seed t)
    (dec_seed t) (pinmode t) (pin t).
Definition set_flags (t : securid_token) (v : Z) : securid_token :=
  mk_token (serial t) v (exp_date t) (is_smartphone t) (has_enc_seed t)
    (enc_seed t) (dec_seed_hash t) (device_id_hash t) (has_dec_seed t)
    (dec_seed t) (pinmode t) (pin t).
Definition set_exp_date (t : securid_token) (v : Z) : securid_token :=
  mk_token (serial t) (flags t) v (is_smartphone t) (has_enc_seed t)
    (enc_seed t) (dec_seed_hash t) (device_id_hash t) (has_dec_seed t)
    (dec_seed t) (pinmode t) (pin t).
Definition set_has_enc_seed (t : securid_token) (v : Z) : securid_token :=
  mk_token (serial t) (flags t) (exp_date t) (is_smartphone t) v
    (enc_seed t) (dec_seed_hash t) (device_id_hash t) (has_dec_seed t)
    (dec_seed t) (pinmode t) (pin t).
Definition set_enc_seed (t : securid_token) (v : list Z) : securid_token :=
  mk_token (serial t) (flags t) (exp_date t) (is_smartphone t)
    (has_enc_seed t) v (dec_seed_hash t) (device_id_hash t) (has_dec_seed t)
    (dec_seed t) (pinmode t) (pin t).
Definition set_dec_seed_hash (t : securid_token) (v : Z) : securid_token :=
  mk_token (serial t) (flags t) (exp_date t) (is_smartphone t)
    (has_enc_seed t) (enc_seed t) v (device_id_hash t) (has_dec_seed t)
    (dec_seed t) (pinmode t) (pin t).
Definition set_device_id_hash (t : securid_token) (v : Z) : securid_token :=
  mk_token (serial t) (flags t) (exp_date t) (is_smartphone t)
    (has_enc_seed t) (enc_seed t) (dec_seed_hash t) v (has_dec_seed t)
    (dec_seed t) (pinmode t) (pin t).
Definition set_has_dec_seed (t : securid_token) (v : Z) : securid_token :=
  mk_token (serial t) (flags t) (exp_date t) (is_smartphone t)
    (has_enc_seed t) (enc_seed t) (dec_seed_hash t) (device_id_hash t) v
    (dec_seed t) (pinmode t) (pin t).
Definition set_dec_seed (t : securid_token) (v : list Z) : securid_token :=
  mk_token (serial t) (flags t) (exp_date t) (is_smartphone t)
    (has_enc_seed t) (enc_seed t) (dec_seed_hash t) (device_id_hash t)
    (has_dec_seed t) v (pinmode t) (pin t).

Definition set_is_smartphone (t : securid_token) (v : Z) : securid_token :=
  mk_token (serial t) (flags t) (exp_date t) v (has_enc_seed t)
    (enc_seed t) (dec_seed_hash t) (device_id_hash t) (has_dec_seed t)
    (dec_seed t) (pinmode t) (pin t).
Definition set_pinmode (t : securid_token) (v : Z) : securid_token :=
  mk_token (serial t) (flags t) (exp_date t) (is_smartphone t)
    (has_enc_seed t) (enc_seed t) (dec_seed_hash t) (device_id_hash t)
    (has_dec_seed t) (dec_seed t) v (pin t).

(** [memset(t, 0, sizeof *t)]: every member is zeroed. *)
Definition token_zero : securid_token :=
  mk_token (repeat 0 13) 0 0 0 0 (repeat 0 16) 0 0 0 (repeat 0 16) 0
    (repeat 0 9).

(** [struct tm], the members securid.c reads. *)
Record tm : Set := mk_tm {
  tm_year : Z;
  tm_mon : Z;
  tm_mday : Z;
  tm_hour : Z;
  tm_min : Z
}.

(* ================================================================== *)
(** * securid.c                                                         *)
(* ================================================================== *)

(** libtomcrypt, as securid.c uses it: [rijndael_setup] with a 16-byte key
    followed by [rijndael_ecb_encrypt] (resp. [rijndael_ecb_decrypt]) on one
    block.  Arguments are the key and the input block. *)
Class Rijndael : Type := {
  rijndael_ecb_encrypt : list Z -> list Z -> list Z;
  rijndael_ecb_decrypt : list Z -> list Z -> list Z
}.

(** The constants of securid.h whose values the sources at hand do not
    fix. *)
Class Header : Set := {
  MAX_PASS : Z;
  MIN_TOKEN_CHARS : Z;
  MAX_TOKEN_CHARS : Z;
  MAX_TOKEN_BITS : Z;
  FL_PASSPROT : Z;
  FL_SNPROT : Z;
  FLD_PINMODE_SHIFT : Z;
  FLD_PINMODE_MASK : Z
}.

(** The flag constants of securid.h that only [securid_random_token]
    uses; the sources at hand do not fix their values either. *)
Class HeaderFlags : Set := {
  FL_128BIT : Z;
  FL_FEAT5 : Z;
  FLD_DIGIT_MASK : Z;
  FLD_NUMSECONDS_SHIFT : Z
}.

Section Securid.

Context {cipher : Rijndael} {hdr : Header}.

(** The 16 [uint8_t] of [tmp] that [memcpy] moves to [out]. *)
Definition as_block (l : list Z) : list Z :=
  map (fun i => u8 (nth i l 0)) (seq 0 16).

Definition aes128_ecb_encrypt (key in_ : list Z) : list Z :=
  as_block (rijndael_ecb_encrypt key in_).

Definition aes128_ecb_decrypt (key in_ : list Z) : list Z :=
  as_block (rijndael_ecb_decrypt key in_).

(** [encrypt_then_xor(key, work, enc)]: the new contents of [work]
    ([enc] is scratch space that no caller reads). *)
Definition encrypt_then_xor (key work : list Z) : list Z :=
  let enc := aes128_ecb_encrypt key work in
  map (fun i => Z.lxor (nth i work 0) (nth i enc 0)) (seq 0 16).

(** The padding loop of [securid_mac]: [i] is an [int], so the loop body
    runs at most [sizeof(int) = 4] times. *)
Fixpoint mac_pad_loop (n : nat) (i : Z) (p : nat) (pad : list Z) : list Z :=
  match n with
  | O => pad
  | S n' =>
      if 0 <? i then mac_pad_loop n' (Z.shiftr i 8) (p - 1) (upd p (u8 i) pad)
      else pad
  end.

Definition mac_pad (in_len : Z) : list Z :=
  mac_pad_loop 4 (in_len * 8) 15 (repeat 0 16).

(** The bulk loop of [securid_mac]: state is the rest of the input, [work]
    and [odd].  Each round consumes 16 bytes, so [length in_] rounds are
    more than the loop can take. *)
Fixpoint mac_bulk (n : nat) (in_ work : list Z) (odd : bool)
  : list Z * list Z * bool :=
  match n with
  | O => (in_, work, odd)
  | S n' =>
      if 16 <? Z.of_nat (length in_)
      then mac_bulk n' (skipn 16 in_) (encrypt_then_xor (firstn 16 in_) work)
             (negb odd)
      else (in_, work, odd)
  end.

(** [securid_mac(in, in_len, out)] with [in_len = length in_]; the result
    is [out]. *)
Definition securid_mac (in_ : list Z) : list Z :=
  let zero := repeat 0 16 in
  let pad := mac_pad (Z.of_nat (length in_)) in
  let lastblk := repeat 0 16 in
  let work := repeat 255 16 in
  let '(rest, work, odd) := mac_bulk (length in_) in_ work false in
  let lastblk := write_at lastblk 0 rest in
  let work := encrypt_then_xor lastblk work in
  let work := if odd then encrypt_then_xor zero work else work in
  let work := encrypt_then_xor pad work in
  let out := work in
  encrypt_then_xor work out.

Definition securid_shortmac (in_ : list Z) : Z :=
  let hash := securid_mac in_ in
  u16 (Z.lor (Z.shiftl (nth 0 hash 0) 7) (Z.shiftr (nth 1 hash 0) 1)).

(** The loop of [numinput_to_bits]: [o] is the offset of the moving [out]
    pointer in the buffer. *)
Fixpoint numinput_loop (n : nat) (in_ out : list Z) (o : nat) (bitpos : Z)
  : list Z :=
  match n with
  | O => out
  | S n' =>
      let decoded := u16 (Z.land (nth 0 in_ 0 - 48) 7) in
      let decoded := u16 (Z.shiftl decoded bitpos) in
      let out := upd o (u8 (Z.lor (nth o out 0) (Z.shiftr decoded 8))) out in
      let out :=
        upd (S o) (u8 (Z.lor (nth (S o) out 0) (Z.land decoded 255))) out in
      let bitpos := bitpos - TOKEN_BITS_PER_CHAR in
      if bitpos <? 0
      then numinput_loop n' (tl in_) out (S o) (bitpos + 8)
      else numinput_loop n' (tl in_) out o bitpos
  end.

(** [numinput_to_bits(in, out, n_bits)]: the new contents of [out].  The
    loop steps [n_bits] down by 3 until it is 0; every caller passes a
    multiple of 3, and the loop then runs [n_bits / 3] times. *)
Definition numinput_to_bits (in_ out : list Z) (n_bits : Z) : list Z :=
  let out := write_at out 0 (repeat 0 (Z.to_nat ((n_bits + 7) / 8))) in
  numinput_loop (Z.to_nat (n_bits / TOKEN_BITS_PER_CHAR)) in_ out 0 13.

Fixpoint numoutput_loop (n : nat) (in_ : list Z) (i : nat) (bitpos : Z)
  : list Z :=
  match n with
  | O => [0]
  | S n' =>
      let binary := u16 (Z.lor (Z.shiftl (nth i in_ 0) 8) (nth (S i) in_ 0)) in
      let c := Z.land (Z.shiftr binary bitpos) 7 + 48 in
      let bitpos := bitpos - TOKEN_BITS_PER_CHAR in
      c :: (if bitpos <? 0
            then numoutput_loop n' in_ (S i) (bitpos + 8)
            else numoutput_loop n' in_ i bitpos)
  end.

(** [bits_to_numoutput(in, out, n_bits)]: the characters stored from [out]
    on, terminator included (same remark on [n_bits]). *)
Definition bits_to_numoutput (in_ : list Z) (n_bits : Z) : list Z :=
  numoutput_loop (Z.to_nat (n_bits / TOKEN_BITS_PER_CHAR)) in_ 0 13.

Fixpoint get_bits_loop (n : nat) (in_ : list Z) (i : nat) (start out : Z)
  : Z :=
  match n with
  | O => out
  | S n' =>
      let out := u32 (Z.shiftl out 1) in
      let out :=
        if Z.land (Z.shiftl (nth i in_ 0) start) 128 =? 0 then out
        else Z.lor out 1 in
      let start := start + 1 in
      if start =? 8 then get_bits_loop n' in_ (S i) 0 out
      else get_bits_loop n' in_ i start out
  end.

Definition get_bits (in_ : list Z) (start n_bits : Z) : Z :=
  get_bits_loop (Z.to_nat n_bits) in_ (Z.to_nat (start / 8)) (start mod 8) 0.

Fixpoint set_bits_loop (n : nat) (out : list Z) (o : nat) (start val : Z)
  : list Z :=
  match n with
  | O => out
  | S n' =>
      let out :=
        if Z.land val (BIT 31) =? 0
        then upd o (u8 (Z.land (nth o out 0) (Z.lnot (BIT (7 - start))))) out
        else upd o (u8 (Z.lor (nth o out 0) (BIT (7 - start)))) out in
      let val := u32 (Z.shiftl val 1) in
      let start := start + 1 in
      if start =? 8 then set_bits_loop n' out (S o) 0 val
      else set_bits_loop n' out o start val
  end.

Definition set_bits (out : list Z) (start n_bits val : Z) : list Z :=
  set_bits_loop (Z.to_nat n_bits) out (Z.to_nat (start / 8)) (start mod 8)
    (u32 (Z.shiftl val (32 - n_bits))).

(** [uint8_t d[MAX_TOKEN_BITS / 8 + 2]]. *)
Definition sizeof_d : nat := Z.to_nat (MAX_TOKEN_BITS / 8 + 2).

(** [securid_decode_token(in, t)].  [d] is the uninitialised local array
    (any contents); the result is the return code and the record [*t] as
    the call leaves it. *)
Definition securid_decode_token (in_ d : list Z) (t : securid_token)
  : error * securid_token :=
  let len := strlen in_ in
  if (len <? MIN_TOKEN_CHARS) || (MAX_TOKEN_CHARS <? len)
  then (ERR_BAD_LEN, t)
  else if negb (nth 0 in_ 0 =? 49) && negb (nth 0 in_ 0 =? 50)
  then (ERR_TOKEN_VERSION, t)
  else
    let t := token_zero in
    let d := numinput_to_bits (skipn (Z.to_nat (len - CHECKSUM_CHARS)) in_)
               d 15 in
    let token_mac := u16 (get_bits d 0 15) in
    let computed_mac :=
      securid_shortmac (firstn (Z.to_nat (len - CHECKSUM_CHARS)) in_) in
    if negb (token_mac =? computed_mac) then (ERR_CHECKSUM_FAILED, t)
    else
      let t := set_serial t
                 (write_at (serial t) 0
                    (sub in_ (Z.to_nat VER_CHARS) (Z.to_nat SERIAL_CHARS))) in
      let t := set_serial t (upd (Z.to_nat SERIAL_CHARS) 0 (serial t)) in
      let d := numinput_to_bits (skipn (Z.to_nat BINENC_OFS) in_) d
                 BINENC_BITS in
      let t := set_enc_seed t
                 (write_at (enc_seed t) 0 (firstn (Z.to_nat AES_KEY_SIZE) d)) in
      let t := set_has_enc_seed t 1 in
      let t := set_flags t (u16 (get_bits d 128 16)) in
      let t := set_exp_date t (u16 (get_bits d 144 14)) in
      let t := set_dec_seed_hash t (u16 (get_bits d 159 15)) in
      let t := set_device_id_hash t (u16 (get_bits d 174 15)) in
      (ERR_NONE, t).

(** The device-id loop of [generate_key_hash]; [None] is the early
    [return ERR_BAD_PASSWORD]. *)
Fixpoint devid_loop (devid : list Z) (is_smartphone devid_len len : Z)
  (key : list Z) (pos : nat) : option (list Z * nat) :=
  match devid with
  | [] => Some (key, pos)
  | c :: devid' =>
      if c =? 0 then Some (key, pos)
      else if (negb (is_smartphone =? 0) && negb (isxdigit c))
              || ((is_smartphone =? 0) && negb (isdigit c))
      then devid_loop devid' is_smartphone devid_len len key pos
      else if devid_len <? len then None
      else devid_loop devid' is_smartphone devid_len (len + 1)
             (upd pos c key) (S pos)
  end.

Definition magic : list Z := [216; 245; 50; 83; 130; 137; 0].

(** The buffer [key] of [generate_key_hash] and the final [pos], once the
    password and the device id are in place ([None]: the function has
    returned [ERR_BAD_PASSWORD]). *)
Definition key_hash_input (pass devid : option (list Z)) (is_smartphone : Z)
  : option (list Z * nat * nat) :=
  let devid_len := if is_smartphone =? 0 then 32 else 40 in
  let key := repeat 0 (Z.to_nat (MAX_PASS + DEVID_CHARS + MAGIC_LEN + 1)) in
  let after_pass :=
    match pass with
    | Some p =>
        if MAX_PASS <? strlen p then None
        else Some (write_at key 0 (c_str p), length (c_str p))
    | None => Some (key, 0%nat)
    end in
  match after_pass with
  | None => None
  | Some (key, pos) =>
      match devid with
      | Some dv =>
          match devid_loop dv is_smartphone devid_len 0 key pos with
          | None => None
          | Some (key, pos') => Some (key, pos, pos')
          end
      | None => Some (key, pos, pos)
      end
  end.

(** [generate_key_hash(key_hash, pass, devid, device_id_hash,
    is_smartphone)]: on success [key_hash] and [*device_id_hash] (every
    caller passes a non-null [device_id_hash]). *)
Definition generate_key_hash (pass devid : option (list Z))
  (is_smartphone : Z) : error * option (list Z * Z) :=
  let devid_len := if is_smartphone =? 0 then 32 else 40 in
  match key_hash_input pass devid is_smartphone with
  | None => (ERR_BAD_PASSWORD, None)
  | Some (key, devid_buf, pos) =>
      let id_hash :=
        securid_shortmac (sub key devid_buf (Z.to_nat devid_len)) in
      let key := write_at key pos (firstn (Z.to_nat MAGIC_LEN) magic) in
      let key_hash :=
        securid_mac (firstn (pos + Z.to_nat MAGIC_LEN) key) in
      (ERR_NONE, Some (key_hash, id_hash))
  end.

Definition is_null (p : option (list Z)) : bool :=
  match p with None => true | Some _ => false end.

(** [securid_decrypt_seed(t, pass, devid)]: return code and [*t]. *)
Definition securid_decrypt_seed (t : securid_token)
  (pass devid : option (list Z)) : error * securid_token :=
  let passprot := negb (Z.land (flags t) FL_PASSPROT =? 0) in
  let snprot := negb (Z.land (flags t) FL_SNPROT =? 0) in
  if passprot && is_null pass then (ERR_MISSING_PASSWORD, t)
  else if snprot && is_null devid then (ERR_MISSING_PASSWORD, t)
  else
    match generate_key_hash (if passprot then pass else None)
            (if snprot then devid else None) (is_smartphone t) with
    | (rc, None) => (rc, t)
    | (_, Some (key_hash, computed_id_hash)) =>
        if snprot && negb (computed_id_hash =? device_id_hash t)
        then (ERR_BAD_DEVID, t)
        else
          let t := set_dec_seed t (aes128_ecb_decrypt key_hash (enc_seed t)) in
          let hash :=
            securid_mac (firstn (Z.to_nat AES_KEY_SIZE) (dec_seed t)) in
          let computed_mac :=
            u16 (Z.lor (Z.shiftl (nth 0 hash 0) 7)
                   (Z.shiftr (nth 1 hash 0) 1)) in
          if negb (computed_mac =? dec_seed_hash t)
          then (ERR_DECRYPT_FAILED, t)
          else (ERR_NONE, set_has_dec_seed t 1)
    end.

(** The loop of [key_from_time] that packs serial digits 4..11. *)
Fixpoint serial_bcd_loop (n : nat) (serial_ key : list Z) (i k : nat)
  : list Z :=
  match n with
  | O => key
  | S n' =>
      let b := u8 (Z.lor (Z.shiftl (nth i serial_ 0 - 48) 4)
                     (nth (S i) serial_ 0 - 48)) in
      serial_bcd_loop n' serial_ (upd k b key) (i + 2) (S k)
  end.

(** [key_from_time(bcd_time, bcd_time_bytes, serial, key)]: the new
    contents of [key]. *)
Definition key_from_time (bcd_time : list Z) (bcd_time_bytes : nat)
  (serial_ key : list Z) : list Z :=
  let key := write_at key 0 (repeat 170 8) in
  let key := write_at key 0 (firstn bcd_time_bytes bcd_time) in
  let key := write_at key 12 (repeat 187 4) in
  serial_bcd_loop 4 serial_ key 4 8.

Fixpoint bcd_write_loop (n : nat) (out : list Z) (o : nat) (val : Z)
  : list Z :=
  match n with
  | O => out
  | S n' =>
      let out := upd o (u8 (Z.rem val 10)) out in
      let val := Z.quot val 10 in
      let out :=
        upd o (u8 (Z.lor (nth o out 0) (Z.shiftl (Z.rem val 10) 4))) out in
      let val := Z.quot val 10 in
      bcd_write_loop n' out (o - 1) val
  end.

(** [bcd_write(&out[ofs], val, bytes)]. *)
Definition bcd_write (out : list Z) (ofs : nat) (val : Z) (bytes_ : nat)
  : list Z :=
  bcd_write_loop bytes_ out (ofs + bytes_ - 1) val.

(** [bcd_time] as [securid_compute_tokencode] fills it; [gmt] is the
    broken-down time that [gmtime(&now)] returns. *)
Definition tokencode_bcd_time (gmt : tm) : list Z :=
  let bcd_time := repeat 0 8 in
  let bcd_time := bcd_write bcd_time 0 (tm_year gmt + 1900) 2 in
  let bcd_time := bcd_write bcd_time 2 (tm_mon gmt + 1) 1 in
  let bcd_time := bcd_write bcd_time 3 (tm_mday gmt) 1 in
  let bcd_time := bcd_write bcd_time 4 (tm_hour gmt) 1 in
  let bcd_time := bcd_write bcd_time 5 (Z.land (tm_min gmt) (Z.lnot 3)) 1 in
  upd 6 0 (upd 7 0 bcd_time).

(** [key0] after the five AES rounds of [securid_compute_tokencode]. *)
Definition tokencode_key0 (t : securid_token) (gmt : tm) : list Z :=
  let bcd_time := tokencode_bcd_time gmt in
  let key0 := repeat 0 16 in
  let key1 := repeat 0 16 in
  let key0 := key_from_time bcd_time 2 (serial t) key0 in
  let key0 := aes128_ecb_encrypt (dec_seed t) key0 in
  let key1 := key_from_time bcd_time 3 (serial t) key1 in
  let key1 := aes128_ecb_encrypt key0 key1 in
  let key0 := key_from_time bcd_time 4 (serial t) key0 in
  let key0 := aes128_ecb_encrypt key1 key0 in
  let key1 := key_from_time bcd_time 5 (serial t) key1 in
  let key1 := aes128_ecb_encrypt key0 key1 in
  let key0 := key_from_time bcd_time 8 (serial t) key0 in
  aes128_ecb_encrypt key1 key0.

(** The 32-bit word read at [key0[i] .. key0[i + 3]]. *)
Definition tokencode_at (key0 : list Z) (i : Z) : Z :=
  u32 (Z.lor (Z.lor (Z.lor (Z.shiftl (nth (Z.to_nat (i + 0)) key0 0) 24)
                       (Z.shiftl (nth (Z.to_nat (i + 1)) key0 0) 16))
                (Z.shiftl (nth (Z.to_nat (i + 2)) key0 0) 8))
         (Z.shiftl (nth (Z.to_nat (i + 3)) key0 0) 0)).

(** [tokencode], before the PIN digits are added. *)
Definition tokencode_word (t : securid_token) (gmt : tm) : Z :=
  let key0 := tokencode_key0 t gmt in
  let i := Z.shiftl (Z.land (tm_min gmt) 3) 2 in
  tokencode_at key0 i.

Fixpoint tokencode_digits (n : nat) (i : Z) (tokencode : Z) (pin_ : list Z)
  (pin_len : Z) (code_out : list Z) : list Z :=
  match n with
  | O => code_out
  | S n' =>
      let c := u8 (Z.rem tokencode 10) in
      let tokencode := Z.quot tokencode 10 in
      let c :=
        if i <? pin_len
        then u8 (c + (nth (Z.to_nat (pin_len - i - 1)) pin_ 0 - 48))
        else c in
      let code_out := upd (Z.to_nat (7 - i)) (Z.rem c 10 + 48) code_out in
      tokencode_digits n' (i + 1) tokencode pin_ pin_len code_out
  end.

(** [securid_compute_tokencode(t, now, code_out)] with [gmt =
    gmtime(&now)]: the new contents of [code_out]. *)
Definition securid_compute_tokencode (t : securid_token) (gmt : tm)
  (code_out : list Z) : list Z :=
  let pin_len := strlen (pin t) in
  let tokencode := tokencode_word t gmt in
  let code_out := tokencode_digits 8 0 tokencode (pin t) pin_len code_out in
  upd 8 0 code_out.

(** An empty string stands for no string in [securid_encode_token]. *)
Definition nonempty (p : option (list Z)) : option (list Z) :=
  match p with
  | Some s => if strlen s =? 0 then None else Some s
  | None => None
  end.

(** The local record [newt] of [securid_encode_token] once its members are
    updated. *)
Definition encode_newt (t : securid_token) (pass devid : option (list Z))
  (key_hash : list Z) (id_hash : Z) : securid_token :=
  let newt := t in
  let newt := set_device_id_hash newt id_hash in
  let newt :=
    if is_null pass
    then set_flags newt (u16 (Z.land (flags newt) (Z.lnot FL_PASSPROT)))
    else set_flags newt (u16 (Z.lor (flags newt) FL_PASSPROT)) in
  let newt :=
    if is_null devid
    then set_flags newt (u16 (Z.land (flags newt) (Z.lnot FL_SNPROT)))
    else set_flags newt (u16 (Z.lor (flags newt) FL_SNPROT)) in
  set_enc_seed newt (aes128_ecb_encrypt key_hash (dec_seed newt)).

(** The buffer [d] of [securid_encode_token] once the seed and the four
    fields of the updated record [newt] are in place. *)
Definition encode_d (newt : securid_token) : list Z :=
  let d := repeat 0 sizeof_d in
  let d := write_at d 0 (firstn (Z.to_nat AES_KEY_SIZE) (enc_seed newt)) in
  let d := set_bits d 128 16 (flags newt) in
  let d := set_bits d 144 14 (exp_date newt) in
  let d := set_bits d 159 15
             (securid_shortmac
                (firstn (Z.to_nat AES_KEY_SIZE) (dec_seed newt))) in
  set_bits d 174 15 (device_id_hash newt).

(** The statements of [securid_encode_token] that write the string: the
    new contents of [out]. *)
Definition encode_emit (newt : securid_token) (out : list Z) : list Z :=
  let d := encode_d newt in
  let out := write_at out 0 ([50] ++ c_str (serial newt) ++ [0]) in
  let out := write_at out (Z.to_nat BINENC_OFS)
               (bits_to_numoutput d BINENC_BITS) in
  let d := set_bits d 0 15
             (securid_shortmac (firstn (Z.to_nat CHECKSUM_OFS) out)) in
  write_at out (Z.to_nat CHECKSUM_OFS) (bits_to_numoutput d CHECKSUM_BITS).

(** [securid_encode_token(t, pass, devid, out)]: return code and the new
    contents of [out]. *)
Definition securid_encode_token (t : securid_token)
  (pass devid : option (list Z)) (out : list Z) : error * list Z :=
  let pass := nonempty pass in
  let devid := nonempty devid in
  match generate_key_hash pass devid (is_smartphone t) with
  | (rc, None) => (rc, out)
  | (_, Some (key_hash, id_hash)) =>
      (ERR_NONE, encode_emit (encode_newt t pass devid key_hash id_hash) out)
  end.

(** The integer that [securid_token_info] prints with ["%d"] under the
    key ["PIN mode"]. *)
Definition token_info_pin_mode (t : securid_token) : Z :=
  Z.shiftr (Z.land (flags t) FLD_PINMODE_MASK) FLD_PINMODE_SHIFT.

(** [securid_check_exp(t, now)].  SECURID_EPOCH, [t->exp_date + 1] and
    [wholeday] are [int]s, so the product and the sum that initialise
    [exp_unix_time] are [int] arithmetic, reduced to 32 bits here as a
    two's complement machine does on overflow; from then on
    [exp_unix_time] is a [time_t], a plain integer.  The [int] result is
    reduced to 32 bits. *)
Definition securid_check_exp (t : securid_token) (now : Z) : Z :=
  let halfday := 60 * 60 * 12 in
  let wholeday := 60 * 60 * 24 in
  let exp_unix_time :=
    s32 (SECURID_EPOCH + s32 ((exp_date t + 1) * wholeday)) in
  let exp_unix_time := exp_unix_time + halfday in
  let exp_unix_time := exp_unix_time - now in
  s32 (Z.quot exp_unix_time wholeday).

Definition securid_pin_format_ok (pin_ : list Z) : error :=
  let rc := strlen pin_ in
  if (rc <? MIN_PIN) || (MAX_PIN <? rc) then ERR_BAD_LEN
  else if forallb isdigit (c_str pin_) then ERR_NONE
  else ERR_GENERAL.

Definition securid_pin_required (t : securid_token) : bool :=
  2 <=? Z.land (Z.shiftr (flags t) FLD_PINMODE_SHIFT) FLD_PINMODE_MASK.

Definition securid_pass_required (t : securid_token) : bool :=
  negb (Z.land (flags t) FL_PASSPROT =? 0).

Definition securid_devid_required (t : securid_token) : bool :=
  negb (Z.land (flags t) FL_SNPROT =? 0).

(** [sprintf(.., "%02x", b)] for a byte: two lowercase hex digits. *)
Definition hex_digit (n : Z) : Z := if n <? 10 then 48 + n else 87 + n.
Definition sprintf_02x (b : Z) : list Z :=
  [hex_digit (b / 16); hex_digit (b mod 16); 0].

(** [securid_encrypt_pin(pin, password)].  [rand] is what [securid_rand]
    delivers ([None] when it fails); the allocation is taken to succeed.
    The result is the 65-byte buffer returned, or [None] for NULL. *)
Definition securid_encrypt_pin (pin_ password : list Z)
  (rand : option (list Z)) : option (list Z) :=
  if negb (error_eqb (securid_pin_format_ok pin_) ERR_NONE) then None
  else
    let buf := repeat 0 16 in
    let buf := write_at buf 0 (c_str pin_ ++ [0]) in
    let buf := upd 15 (u8 (strlen pin_)) buf in
    let passhash := securid_mac (c_str password) in
    match rand with
    | None => None
    | Some r =>
        let iv := as_block r in
        let buf := map (fun i => Z.lxor (nth i buf 0) (nth i iv 0))
                     (seq 0 16) in
        let buf := aes128_ecb_encrypt passhash buf in
        let ret := repeat 0 65 in
        let ret := fold_left
                     (fun ret i => write_at ret (i * 2)
                                     (sprintf_02x (nth i iv 0)))
                     (seq 0 16) ret in
        let ret := fold_left
                     (fun ret i => write_at ret ((16 + i) * 2)
                                     (sprintf_02x (nth i buf 0)))
                     (seq 0 16) ret in
        Some ret
    end.

(** [hex2byte(in)]: [in[0]] and [in[1]] are plain [char]s, read as signed
    values. *)
Definition hex2byte (in_ : list Z) : Z :=
  let ret := u8 (schar (nth 1 in_ 0) - 48) in
  let hex_offs := u8 (97 - 48 - 10) in
  let ret := if 9 <? ret then u8 (ret - hex_offs) else ret in
  if 57 <? schar (nth 0 in_ 0)
  then u8 (ret + Z.shiftl (schar (nth 0 in_ 0) - hex_offs) 4)
  else u8 (ret + Z.shiftl (schar (nth 0 in_ 0) - 48) 4).

(** [securid_decrypt_pin(enc_pin, password, pin)]: return code and the new
    contents of the buffer [pin]. *)
Definition securid_decrypt_pin (enc_pin password pin_ : list Z)
  : error * list Z :=
  if negb (strlen enc_pin =? AES_BLOCK_SIZE * 2 * 2) then (ERR_BAD_LEN, pin_)
  else
    let iv := map (fun i => hex2byte (skipn (i * 2) enc_pin)) (seq 0 16) in
    let buf := map (fun i => hex2byte (skipn ((i + 16) * 2) enc_pin))
                 (seq 0 16) in
    let passhash := securid_mac (c_str password) in
    let buf := aes128_ecb_decrypt passhash buf in
    let buf := map (fun i => Z.lxor (nth i buf 0) (nth i iv 0)) (seq 0 16) in
    if negb (nth 14 buf 0 =? 0) || negb (nth 15 buf 0 =? strlen buf)
    then (ERR_GENERAL, pin_)
    else if negb (error_eqb (securid_pin_format_ok buf) ERR_NONE)
    then (ERR_GENERAL, pin_)
    else (ERR_NONE, write_at pin_ 0 (c_str buf ++ [0])).

End Securid.

Section SecuridRandom.

Context {cipher : Rijndael} {hdr : Header} {flg : HeaderFlags}.

(** [securid_rand(out, len)].  [stored] is the bytes that libtomcrypt's
    [rng_get_bytes] puts at [out]; their number is the value it returns.
    The result is the return code and the new contents of [out]. *)
Definition securid_rand (out : list Z) (len : Z) (stored : list Z)
  : error * list Z :=
  let out := write_at out 0 (map u8 stored) in
  if negb (Z.of_nat (length stored) =? len) then (ERR_GENERAL, out)
  else (ERR_NONE, out).

(** The loop of [securid_random_token] that draws the serial number. *)
Definition random_serial (randbytes serial_ : list Z) : list Z :=
  fold_left (fun s i => upd i (48 + Z.rem (nth i randbytes 0) 10) s)
    (seq 0 12) serial_.

(** The flags of a random token. *)
Definition random_flags : Z :=
  u16 (Z.lor (Z.lor (Z.lor (Z.lor FL_FEAT5 FLD_DIGIT_MASK) FLD_PINMODE_MASK)
                (Z.shiftl 1 FLD_NUMSECONDS_SHIFT))
         FL_128BIT).

(** [securid_random_token(t)].  [now] is what [time(NULL)] returns,
    [stored1] and [stored2] what the two calls of [securid_rand] receive
    (the second call is made only if the first succeeds), [randbytes] and
    [key_hash] the uninitialised local arrays.  The result is the return
    code and the record [*t] as the call leaves it. *)
Definition securid_random_token (now : Z) (stored1 stored2 : list Z)
  (randbytes key_hash : list Z) : error * securid_token :=
  let t := token_zero in
  let '(rc, seed) := securid_rand (dec_seed t) AES_KEY_SIZE stored1 in
  let t := set_dec_seed t seed in
  if negb (error_eqb rc ERR_NONE) then (ERR_GENERAL, t)
  else
    let '(rc, randbytes) := securid_rand randbytes 16 stored2 in
    if negb (error_eqb rc ERR_NONE) then (ERR_GENERAL, t)
    else
      let t := set_dec_seed_hash t
                 (securid_shortmac
                    (firstn (Z.to_nat AES_KEY_SIZE) (dec_seed t))) in
      let '(key_hash, t) :=
        match generate_key_hash None None (is_smartphone t) with
        | (_, Some (kh, id_hash)) => (kh, set_device_id_hash t id_hash)
        | (_, None) => (key_hash, t)
        end in
      let t := set_enc_seed t (aes128_ecb_encrypt key_hash (dec_seed t)) in
      let t := set_has_enc_seed t 1 in
      let t := set_flags t random_flags in
      let t := set_pinmode t 3 in
      let t := set_serial t (random_serial randbytes (serial t)) in
      let t := set_exp_date t
                 (u16 (Z.quot (now - SECURID_EPOCH) (24 * 60 * 60) + 60
                       + Z.land (nth 12 randbytes 0) 15 * 30)) in
      (ERR_NONE, t).

End SecuridRandom.

(* ================================================================== *)
(** * Vocabulary of the specification                                   *)
(* ================================================================== *)

(** Bit [g] of a buffer, counted from the most significant bit of byte 0
    (the order in which [get_bits] and [set_bits] walk a buffer). *)
Definition bit (buf : list Z) (g : Z) : bool :=
  Z.testbit (nth (Z.to_nat (g / 8)) buf 0) (7 - g mod 8).

(** The number whose [n] binary digits are [f 0], ..., [f (n - 1)], most
    significant first. *)
Fixpoint bits_val (f : Z -> bool) (n : nat) : Z :=
  match n with
  | O => 0
  | S n' => 2 * bits_val f n' + Z.b2z (f (Z.of_nat n'))
  end.

(** Characters ['0'] to ['7'], and decimal digits. *)
Definition octal_char (c : Z) : Prop := 48 <= c <= 55.
Definition digit_char (c : Z) : Prop := 48 <= c <= 57.

(** [k] consecutive 16-byte blocks taken from the front of a buffer. *)
Fixpoint chunks (k : nat) (l : list Z) : list (list Z) :=
  match k with
  | O => []
  | S k' => firstn 16 l :: chunks k' (skipn 16 l)
  end.

(** A partial block, zero-padded to 16 bytes. *)
Definition zero_pad (l : list Z) : list Z := write_at (repeat 0 16) 0 l.

(** The packed-decimal byte of a number below 100: tens in the high
    nibble, units in the low one. *)
Definition bcd (n : Z) : Z := 16 * (n / 10) + n mod 10.

(** Decimal digit [i] of a number, units first. *)
Definition dec_digit (w i : Z) : Z := (w / 10 ^ i) mod 10.

Section Vocabulary.

Context {cipher : Rijndael} {hdr : Header}.

(** Absorbing a list of blocks into [work], first block first, each with
    [encrypt_then_xor]; and the final step of the MAC. *)
Definition absorb (blocks : list (list Z)) (work : list Z) : list Z :=
  fold_left (fun w b => encrypt_then_xor b w) blocks work.

Definition mac_finish (work : list Z) : list Z := encrypt_then_xor work work.

(** The block order of the spec (4.2, steps 3 to 6): every full 16-byte
    block, the final partial (possibly empty) block, a block of zeroes when
    the number of full blocks is odd, the length block. *)
Definition spec_mac_blocks (in_ : list Z) : list (list Z) :=
  let full := (length in_ / 16)%nat in
  chunks full in_
  ++ [zero_pad (skipn (16 * full) in_)]
  ++ (if Nat.odd full then [repeat 0 16] else [])
  ++ [mac_pad (Z.of_nat (length in_))].

Definition spec_mac (in_ : list Z) : list Z :=
  mac_finish (absorb (spec_mac_blocks in_) (repeat 255 16)).

(** The block order of [securid_mac]: the bulk loop stops as soon as 16
    bytes or fewer remain, so it takes [(length in_ - 1) / 16] blocks and
    leaves up to 16 bytes to the final block. *)
Definition mac_blocks (in_ : list Z) : list (list Z) :=
  let bulk := ((length in_ - 1) / 16)%nat in
  chunks bulk in_
  ++ [zero_pad (skipn (16 * bulk) in_)]
  ++ (if Nat.odd bulk then [repeat 0 16] else [])
  ++ [mac_pad (Z.of_nat (length in_))].

(** The same order told from the input length: it is the order of the
    spec unless the length is a positive multiple of 16; then the last full
    block is the final block, no padded empty block follows, and the block
    of zeroes is absorbed when the number of full blocks is even. *)
Definition mac_order (in_ : list Z) : list (list Z) :=
  let n := length in_ in
  let full := (n / 16)%nat in
  if (0 <? n)%nat && (n mod 16 =? 0)%nat
  then chunks full in_
       ++ (if Nat.even full then [repeat 0 16] else [])
       ++ [mac_pad (Z.of_nat n)]
  else spec_mac_blocks in_.

(** The string an optional C string argument denotes. *)
Definition opt_str (p : option (list Z)) : list Z :=
  match p with Some s => c_str s | None => [] end.

Definition devid_len_of (is_smartphone_ : Z) : Z :=
  if is_smartphone_ =? 0 then 32 else 40.

(** The characters of a device id that [generate_key_hash] keeps. *)
Definition valid_digit (is_smartphone_ : Z) (c : Z) : bool :=
  if is_smartphone_ =? 0 then isdigit c else isxdigit c.

Definition devid_digits (devid : option (list Z)) (is_smartphone_ : Z)
  : list Z :=
  filter (valid_digit is_smartphone_) (opt_str devid).

(** [l] right-padded with zero bytes (or cut) to exactly [n] bytes. *)
Definition pad_to (n : nat) (l : list Z) : list Z :=
  firstn n (l ++ repeat 0 n).

(** The MAC input of the spec (4.3, steps 2 and 3): password, device-id
    digits padded to [devid_len], magic suffix. *)
Definition spec_key_buffer (pass devid : option (list Z))
  (is_smartphone_ : Z) : list Z :=
  opt_str pass
  ++ pad_to (Z.to_nat (devid_len_of is_smartphone_))
       (devid_digits devid is_smartphone_)
  ++ magic.

(** The MAC input [generate_key_hash] builds: the magic suffix follows the
    digits directly. *)
Definition key_buffer (pass devid : option (list Z)) (is_smartphone_ : Z)
  : list Z :=
  opt_str pass ++ devid_digits devid is_smartphone_ ++ magic.

(** The broken-down time [gmt] with its minute replaced. *)
Definition at_minute (gmt : tm) (m : Z) : tm :=
  mk_tm (tm_year gmt) (tm_mon gmt) (tm_mday gmt) (tm_hour gmt) m.

(** Slice [k] (0 to 3) of the final AES output: the big-endian word at
    bytes [4k .. 4k + 3]. *)
Definition tokencode_slice (key0 : list Z) (k : Z) : Z :=
  tokencode_at key0 (4 * k).

(** The expiry instant of a token, with the half day of grace. *)
Definition grace_end (t : securid_token) : Z :=
  SECURID_EPOCH + (exp_date t + 1) * 86400 + 12 * 3600.

(** The cipher property the PIN round trip rests on: on 16-byte blocks
    decryption undoes encryption under the same key. *)
Definition rijndael_inverse : Prop :=
  forall key blk, is_block key -> is_block blk ->
    aes128_ecb_decrypt key (aes128_ecb_encrypt key blk) = blk.

(** The 32 lowercase hex characters of a 16-byte block. *)
Definition hex_of (l : list Z) : list Z :=
  flat_map (fun i => [hex_digit (nth i l 0 / 16);
                      hex_digit (nth i l 0 mod 16)]) (seq 0 16).

(** The 63 digits of the binary part and the 5 digits of the checksum
    that [securid_encode_token] emits after ["2"] and the serial
    [digits]. *)
Definition binenc_digits (newt : securid_token) : list Z :=
  firstn 63 (bits_to_numoutput (encode_d newt) BINENC_BITS).

Definition checksum_digits (newt : securid_token) (digits : list Z)
  : list Z :=
  firstn 5
    (bits_to_numoutput
       (set_bits (encode_d newt) 0 15
          (securid_shortmac ([50] ++ digits ++ binenc_digits newt)))
       CHECKSUM_BITS).

(** A PIN of 4 to 8 decimal digits. *)
Definition good_pin (p : list Z) : Prop :=
  Forall digit_char p /\ (4 <= length p <= 8)%nat.

Definition lower_hex_char (c : Z) : Prop :=
  48 <= c <= 57 \/ 97 <= c <= 102.

End Vocabulary.

(* ================================================================== *)
(** * Instances used for evaluation                                     *)
(* ================================================================== *)

(** The FIPS-197 cipher. *)
Definition aes : Rijndael := {|
  rijndael_ecb_encrypt := AES.encrypt;
  rijndael_ecb_decrypt := AES.decrypt
|}.

(** One setting of the header constants: tokens of 71 to 81 characters and
    189 bits as in the spec; 40-byte passwords, [FL_PASSPROT = BIT(13)],
    [FL_SNPROT = BIT(12)] and a PIN-mode field of two bits at bit 3
    ([FLD_PINMODE_MASK = 0x03 << FLD_PINMODE_SHIFT]). *)
Definition stoken_header : Header := {|
  MAX_PASS := 40;
  MIN_TOKEN_CHARS := 71;
  MAX_TOKEN_CHARS := 81;
  MAX_TOKEN_BITS := 189;
  FL_PASSPROT := BIT 13;
  FL_SNPROT := BIT 12;
  FLD_PINMODE_SHIFT := 3;
  FLD_PINMODE_MASK := Z.shiftl 3 3
|}.

(** One setting of the flag constants of [securid_random_token]: 128-bit
    key, feature bit 5 and a three-bit digit field at bit 6, token
    interval at bit 0. *)
Definition stoken_flags : HeaderFlags := {|
  FL_128BIT := BIT 14;
  FL_FEAT5 := BIT 9;
  FLD_DIGIT_MASK := Z.shiftl 7 6;
  FLD_NUMSECONDS_SHIFT := 0
|}.

(** Sample data. *)
Definition zero_seed_token : securid_token :=
  mk_token (chars "000000000000" ++ [0]) 0 0 0 0 (repeat 0 16) 0 0 1
    (repeat 0 16) 0 (repeat 0 9).

Definition sample_token : securid_token :=
  mk_token (chars "123456789012" ++ [0]) 17403 5000 0 0 (repeat 0 16)
    (securid_shortmac (cipher := aes) (repeat 7 16)) 0 1 (repeat 7 16) 0
    (repeat 0 9).


(** A record that expires on the last day a 14-bit [exp_date] can name
    (2044-11-08). *)
Definition late_token : securid_token :=
  mk_token (chars "123456789012" ++ [0]) 0 16383 0 0 (repeat 0 16) 0 0 0
    (repeat 0 16) 0 (repeat 0 9).

(** A record whose PIN-mode field holds 2. *)
Definition pinmode2_token : securid_token := set_flags zero_seed_token 16.

(** 2000-01-01 00:03 UTC as [gmtime] breaks it down. *)
Definition minute3 : tm := mk_tm 100 0 1 0 3.

(** A password-protected record whose encrypted seed is sixteen 1 bytes,
    and a record with no seed yet. *)
Definition locked_token : securid_token :=
  mk_token (chars "123456789012" ++ [0]) (BIT 13) 5000 0 1 (repeat 1 16) 0 0
    0 (repeat 0 16) 0 (repeat 0 9).


(** The string that [securid_encode_token] writes for [sample_token]
    under the password "hello", and the record decoded from it. *)
Definition sample_ctf : list Z :=
  chars ("2123456789012" ++
         "213651065753532450666532304257610221147212661773234205261727167"
         ++ "54505").

Definition sample_decoded : securid_token :=
  snd (securid_decode_token (cipher := aes) (hdr := stoken_header)
         sample_ctf (repeat 0 25) token_zero).

(** The PIN 1234 as [securid_encrypt_pin] returns it for the password
    "pw" and an IV of sixteen bytes 200. *)
Definition sample_enc_pin : list Z :=
  match securid_encrypt_pin (cipher := aes) (chars "1234") (chars "pw")
          (Some (repeat 200 16)) with
  | Some s => s
  | None => []
  end.

(** 2024-02-29 13:47 UTC as [gmtime] breaks it down, and a record with
    the PIN 4321. *)
Definition leap_day : tm := mk_tm 124 1 29 13 47.

Definition pin_token : securid_token :=
  mk_token (chars "123456789012" ++ [0]) 0 5000 0 0 (repeat 0 16) 0 0 1
    (repeat 7 16) 0 (chars "4321" ++ repeat 0 5).

(* ================================================================== *)
(** * Properties                                                        *)
(* ================================================================== *)

(** [lia] is given the equations of Euclidean division. *)
Ltac Zify.zify_post_hook ::= Z.to_euclidean_division_equations.

(* ------------------------------------------------------------------ *)
(** ** Buffers                                                          *)
(* ------------------------------------------------------------------ *)

Lemma length_upd i v l : length (upd i v l) = length l.
Proof.
  revert i; induction l as [|x l IH]; intros [|i]; simpl; auto.
Qed.

Lemma nth_upd_same i v l d : (i < length l)%nat -> nth i (upd i v l) d = v.
Proof.
  revert i; induction l as [|x l IH]; intros [|i] H; simpl in *; try lia; auto.
  apply IH; lia.
Qed.

Lemma nth_upd_other i j v l d : i <> j -> nth j (upd i v l) d = nth j l d.
Proof.
  revert i j; induction l as [|x l IH]; intros [|i] [|j] H; simpl; auto;
    try congruence.
Qed.

Lemma nth_upd i j v l :
  nth j (upd i v l) 0 =
  if (i =? j)%nat && (i <? length l)%nat then v else nth j l 0.
Proof.
  destruct (Nat.eqb_spec i j) as [->|Hij]; simpl.
  - destruct (Nat.ltb_spec j (length l)).
    + now apply nth_upd_same.
    + rewrite !nth_overflow; auto. now rewrite length_upd.
  - now apply nth_upd_other.
Qed.

Lemma upd_overflow i v l : (length l <= i)%nat -> upd i v l = l.
Proof.
  revert i; induction l as [|x l IH]; intros [|i] H; simpl in *; auto; try lia.
  f_equal; apply IH; lia.
Qed.

Lemma bytes_upd i v l : bytes l -> is_byte v -> bytes (upd i v l).
Proof.
  unfold bytes; intros Hl Hv; revert i.
  induction Hl as [|x l Hx Hl IH]; intros [|i]; simpl; constructor; auto.
Qed.

Lemma upd_app_r i v l1 l2 :
  (length l1 <= i)%nat -> upd i v (l1 ++ l2) = l1 ++ upd (i - length l1) v l2.
Proof.
  revert i; induction l1 as [|x l1 IH]; intros i H; simpl in *.
  - now rewrite Nat.sub_0_r.
  - destruct i as [|i]; [lia|]. simpl. f_equal. apply IH; lia.
Qed.

Lemma length_write_at src : forall dst ofs,
  length (write_at dst ofs src) = length dst.
Proof.
  induction src as [|b src IH]; intros; simpl; auto.
  now rewrite IH, length_upd.
Qed.

Lemma write_at_app src : forall pre post ofs,
  ofs = length pre -> (length src <= length post)%nat ->
  write_at (pre ++ post) ofs src = pre ++ src ++ skipn (length src) post.
Proof.
  induction src as [|b src IH]; intros pre post ofs -> Hlen; simpl in *; auto.
  destruct post as [|p post]; simpl in *; [lia|].
  rewrite upd_app_r, Nat.sub_diag by lia. simpl.
  replace (pre ++ b :: post) with ((pre ++ [b]) ++ post)
    by now rewrite <- app_assoc.
  rewrite IH; try lia.
  - now rewrite <- app_assoc.
  - rewrite length_app; simpl; lia.
Qed.

Lemma write_at_0 src dst :
  (length src <= length dst)%nat ->
  write_at dst 0 src = src ++ skipn (length src) dst.
Proof.
  intros H. now apply (write_at_app src [] dst 0%nat).
Qed.

Lemma write_at_split src dst ofs :
  (ofs + length src <= length dst)%nat ->
  write_at dst ofs src =
  firstn ofs dst ++ src ++ skipn (ofs + length src) dst.
Proof.
  intros H.
  rewrite <- (firstn_skipn ofs dst) at 1.
  rewrite write_at_app.
  - now rewrite skipn_skipn, Nat.add_comm.
  - rewrite length_firstn; lia.
  - rewrite length_skipn; lia.
Qed.

Lemma bytes_write_at src : forall dst ofs,
  bytes dst -> bytes src -> bytes (write_at dst ofs src).
Proof.
  induction src as [|b src IH]; intros dst ofs Hd Hs; simpl; auto.
  inversion Hs; subst. apply IH; auto. now apply bytes_upd.
Qed.

Lemma bytes_repeat b n : is_byte b -> bytes (repeat b n).
Proof. intros H. apply Forall_forall. intros x Hx. apply repeat_spec in Hx. now subst. Qed.

Lemma bytes_nth l i : bytes l -> is_byte (nth i l 0).
Proof.
  intros H. destruct (Nat.lt_ge_cases i (length l)) as [Hi|Hi].
  - unfold bytes in H. rewrite Forall_forall in H. apply H. now apply nth_In.
  - rewrite nth_overflow by auto. unfold is_byte; lia.
Qed.

Lemma bytes_app l1 l2 : bytes l1 -> bytes l2 -> bytes (l1 ++ l2).
Proof. intros. apply Forall_app; auto. Qed.

Lemma bytes_firstn n l : bytes l -> bytes (firstn n l).
Proof.
  unfold bytes. intros H. rewrite <- (firstn_skipn n l) in H.
  now apply Forall_app in H.
Qed.

Lemma bytes_skipn n l : bytes l -> bytes (skipn n l).
Proof.
  unfold bytes. intros H. rewrite <- (firstn_skipn n l) in H.
  now apply Forall_app in H.
Qed.

Lemma u8_byte x : is_byte (u8 x).
Proof. unfold is_byte, u8. lia. Qed.

Lemma u8_small x : is_byte x -> u8 x = x.
Proof. unfold is_byte, u8. intros. apply Z.mod_small. lia. Qed.

Lemma length_as_block l : length (as_block l) = 16%nat.
Proof. reflexivity. Qed.

Lemma bytes_as_block l : bytes (as_block l).
Proof.
  unfold as_block. apply Forall_forall. intros x Hx.
  apply in_map_iff in Hx as (i & <- & _). apply u8_byte.
Qed.

Lemma nth_map_seq (f : nat -> Z) n i d :
  (i < n)%nat -> nth i (map f (seq 0 n)) d = f i.
Proof.
  intros H. rewrite (nth_indep _ d (f 0%nat)) by now rewrite length_map, length_seq.
  rewrite (map_nth f (seq 0 n) 0%nat i), seq_nth by lia. reflexivity.
Qed.

Lemma map_seq_nth_id l n :
  length l = n -> map (fun i => nth i l 0) (seq 0 n) = l.
Proof.
  intros H. apply nth_ext with (d := 0) (d' := 0).
  - now rewrite length_map, length_seq.
  - intros i Hi. rewrite length_map, length_seq in Hi.
    now rewrite nth_map_seq.
Qed.

Lemma as_block_id l : is_block l -> as_block l = l.
Proof.
  intros [Hlen Hb]. unfold as_block.
  transitivity (map (fun i => nth i l 0) (seq 0 16)).
  - apply map_ext. intros i. apply u8_small. now apply bytes_nth.
  - now apply map_seq_nth_id.
Qed.

Lemma c_str_nonzero l : Forall (fun c => c <> 0) l -> c_str l = l.
Proof.
  induction 1 as [|c l Hc Hl IH]; simpl; auto.
  destruct (Z.eqb_spec c 0); [contradiction|]. now rewrite IH.
Qed.

Lemma c_str_app_nul l r : Forall (fun c => c <> 0) l -> c_str (l ++ 0 :: r) = l.
Proof.
  induction 1 as [|c l Hc Hl IH]; simpl; auto.
  destruct (Z.eqb_spec c 0); [contradiction|]. now rewrite IH.
Qed.

Lemma c_str_no_nul l : Forall (fun c => c <> 0) (c_str l).
Proof.
  induction l as [|c l IH]; simpl; auto.
  destruct (Z.eqb_spec c 0); auto.
Qed.

Lemma c_str_idem l : c_str (c_str l) = c_str l.
Proof. apply c_str_nonzero, c_str_no_nul. Qed.

(* ------------------------------------------------------------------ *)
(** ** Bits of numbers and of buffers                                   *)
(* ------------------------------------------------------------------ *)

Lemma bits_val_range f n : 0 <= bits_val f n < 2 ^ Z.of_nat n.
Proof.
  induction n as [|n IH]; cbn [bits_val].
  - simpl; lia.
  - rewrite Nat2Z.inj_succ, Z.pow_succ_r by lia.
    destruct (f (Z.of_nat n)); simpl Z.b2z; lia.
Qed.

Lemma bits_val_ext f g n :
  (forall j, 0 <= j < Z.of_nat n -> f j = g j) ->
  bits_val f n = bits_val g n.
Proof.
  induction n as [|n IH]; intros H; cbn [bits_val]; auto.
  rewrite IH by (intros; apply H; lia).
  rewrite H by lia. reflexivity.
Qed.

Lemma testbit_bits_val f n k :
  0 <= k ->
  Z.testbit (bits_val f n) k = (k <? Z.of_nat n) && f (Z.of_nat n - 1 - k).
Proof.
  revert k; induction n as [|n IH]; intros k Hk.
  - cbn [bits_val]. rewrite Z.testbit_0_l.
    destruct (Z.ltb_spec k (Z.of_nat 0)); auto; lia.
  - cbn [bits_val]. destruct (Z.eq_dec k 0) as [->|Hne].
    + rewrite Z.testbit_0_r.
      replace (Z.of_nat (S n) - 1 - 0) with (Z.of_nat n) by lia.
      destruct (Z.ltb_spec 0 (Z.of_nat (S n))); [reflexivity | lia].
    + replace k with (Z.succ (k - 1)) at 1 by lia.
      rewrite Z.testbit_succ_r, IH by lia.
      replace (Z.of_nat n - 1 - (k - 1)) with (Z.of_nat (S n) - 1 - k) by lia.
      f_equal.
      destruct (Z.ltb_spec (k - 1) (Z.of_nat n)),
               (Z.ltb_spec k (Z.of_nat (S n))); auto; lia.
Qed.

Lemma bits_val_testbit v n m :
  m = Z.of_nat n - 1 ->
  bits_val (fun j => Z.testbit v (m - j)) n = v mod 2 ^ Z.of_nat n.
Proof.
  intros ->. apply Z.bits_inj'. intros k Hk.
  rewrite testbit_bits_val, Z.testbit_mod_pow2 by lia.
  destruct (Z.ltb_spec k (Z.of_nat n)); simpl; auto. f_equal; lia.
Qed.

Lemma bits_val_front f n :
  bits_val f (S n) =
  Z.b2z (f 0) * 2 ^ Z.of_nat n + bits_val (fun j => f (j + 1)) n.
Proof.
  induction n as [|n IH].
  - simpl. lia.
  - change (bits_val f (S (S n)))
      with (2 * bits_val f (S n) + Z.b2z (f (Z.of_nat (S n)))).
    rewrite IH. cbn [bits_val].
    rewrite (Nat2Z.inj_succ n), Z.pow_succ_r by lia.
    replace (Z.of_nat n + 1) with (Z.succ (Z.of_nat n)) by lia.
    ring.
Qed.

Lemma land_pow2 a n :
  0 <= n -> Z.land a (2 ^ n) = if Z.testbit a n then 2 ^ n else 0.
Proof.
  intros Hn. apply Z.bits_inj'. intros k Hk.
  rewrite Z.land_spec, Z.pow2_bits_eqb by lia.
  destruct (Z.eqb_spec n k) as [->|Hne].
  - destruct (Z.testbit a k); simpl.
    + rewrite Z.pow2_bits_eqb, Z.eqb_refl by lia. reflexivity.
    + now rewrite Z.testbit_0_l.
  - rewrite andb_false_r. destruct (Z.testbit a n).
    + rewrite Z.pow2_bits_eqb by lia. symmetry. now apply Z.eqb_neq.
    + now rewrite Z.testbit_0_l.
Qed.

Lemma land_pow2_eqb a n :
  0 <= n -> (Z.land a (2 ^ n) =? 0) = negb (Z.testbit a n).
Proof.
  intros Hn. rewrite land_pow2 by lia.
  destruct (Z.testbit a n); simpl; auto.
  apply Z.eqb_neq. pose proof (Z.pow_pos_nonneg 2 n). lia.
Qed.

Lemma lor_double_1 a : Z.lor (2 * a) 1 = 2 * a + 1.
Proof.
  apply Z.bits_inj'. intros k Hk. rewrite Z.lor_spec.
  destruct (Z.eq_dec k 0) as [->|Hne].
  - rewrite Z.testbit_even_0, Z.testbit_odd_0. reflexivity.
  - replace k with (Z.succ (k - 1)) by lia.
    rewrite Z.testbit_even_succ, Z.testbit_odd_succ by lia.
    pose proof (Z.pow2_bits_eqb 0 (Z.succ (k - 1))) as H1.
    change (2 ^ 0) with 1 in H1. rewrite H1 by lia.
    destruct (Z.eqb_spec 0 (Z.succ (k - 1))); [lia|]. apply orb_false_r.
Qed.

Lemma bit_eq buf i s :
  0 <= s < 8 ->
  bit buf (8 * Z.of_nat i + s) = Z.testbit (nth i buf 0) (7 - s).
Proof.
  intros Hs. unfold bit.
  replace ((8 * Z.of_nat i + s) / 8) with (Z.of_nat i) by lia.
  replace ((8 * Z.of_nat i + s) mod 8) with s by lia.
  now rewrite Nat2Z.id.
Qed.

Lemma bit_upd o v buf g :
  (o < length buf)%nat -> 0 <= g ->
  bit (upd o v buf) g =
  if g / 8 =? Z.of_nat o then Z.testbit v (7 - g mod 8) else bit buf g.
Proof.
  intros Ho Hg. unfold bit.
  destruct (Z.eqb_spec (g / 8) (Z.of_nat o)) as [E|E].
  - rewrite E, Nat2Z.id. now rewrite nth_upd_same.
  - rewrite nth_upd_other; auto. lia.
Qed.

Lemma bit_ext_bytes a b :
  length a = length b -> bytes a -> bytes b ->
  (forall g, 0 <= g < 8 * Z.of_nat (length a) -> bit a g = bit b g) ->
  a = b.
Proof.
  intros Hlen Ha Hb H. apply nth_ext with (d := 0) (d' := 0); auto.
  intros i Hi. apply Z.bits_inj'. intros k Hk.
  destruct (Z.ltb_spec k 8) as [Hk8|Hk8].
  - specialize (H (8 * Z.of_nat i + (7 - k))).
    rewrite !bit_eq in H by lia.
    replace (7 - (7 - k)) with k in H by lia. apply H. lia.
  - pose proof (bytes_nth a i Ha) as Ba. pose proof (bytes_nth b i Hb) as Bb.
    unfold is_byte in *.
    rewrite <- (Z.mod_small (nth i a 0) (2 ^ 8)) by lia.
    rewrite <- (Z.mod_small (nth i b 0) (2 ^ 8)) by lia.
    rewrite !Z.mod_pow2_bits_high by lia. reflexivity.
Qed.

(* ------------------------------------------------------------------ *)
(** ** get_bits                                                         *)
(* ------------------------------------------------------------------ *)

Lemma get_bits_loop_spec buf : forall n i start out,
  0 <= start < 8 -> 0 <= out -> (out + 1) * 2 ^ Z.of_nat n <= 2 ^ 32 ->
  get_bits_loop n buf i start out =
  out * 2 ^ Z.of_nat n
  + bits_val (fun j => bit buf (8 * Z.of_nat i + start + j)) n.
Proof.
  induction n as [|n IH]; intros i start out Hs Ho Hov.
  - simpl. lia.
  - rewrite bits_val_front. cbn [get_bits_loop].
    rewrite Nat2Z.inj_succ, Z.pow_succ_r in * by lia.
    pose proof (Z.pow_pos_nonneg 2 (Z.of_nat n)) as Hp.
    change 128 with (2 ^ 7). rewrite land_pow2_eqb by lia.
    rewrite Z.shiftl_spec by lia.
    rewrite Z.add_0_r, bit_eq by lia.
    assert (Hu : u32 (Z.shiftl out 1) = 2 * out).
    { unfold u32. rewrite Z.shiftl_mul_pow2 by lia.
      rewrite Z.mod_small; nia. }
    rewrite Hu.
    set (b := Z.testbit (nth i buf 0) (7 - start)).
    assert (Hnew : (if negb b then 2 * out else Z.lor (2 * out) 1)
                   = 2 * out + Z.b2z b).
    { destruct b; simpl; [apply lor_double_1 | lia]. }
    rewrite Hnew.
    assert (Hb : 0 <= Z.b2z b <= 1) by (destruct b; simpl; lia).
    destruct (Z.eqb_spec (start + 1) 8) as [E|E].
    + rewrite IH by nia.
      rewrite (bits_val_ext _ (fun j => bit buf (8 * Z.of_nat i + start + (j + 1)))).
      * ring.
      * intros j Hj. f_equal. lia.
    + rewrite IH by nia.
      rewrite (bits_val_ext _ (fun j => bit buf (8 * Z.of_nat i + start + (j + 1)))).
      * ring.
      * intros j Hj. f_equal. lia.
Qed.

Lemma get_bits_spec buf start n :
  0 <= start -> (n <= 32)%nat ->
  get_bits buf start (Z.of_nat n) =
  bits_val (fun j => bit buf (start + j)) n.
Proof.
  intros Hs Hn. unfold get_bits. rewrite Nat2Z.id.
  rewrite get_bits_loop_spec.
  - rewrite Z.mul_0_l, Z.add_0_l. apply bits_val_ext. intros j Hj.
    f_equal. rewrite Z2Nat.id; lia.
  - lia.
  - lia.
  - rewrite Z.add_0_l, Z.mul_1_l. apply Z.pow_le_mono_r; lia.
Qed.

Lemma get_bits_range buf start n :
  0 <= start -> (n <= 32)%nat ->
  0 <= get_bits buf start (Z.of_nat n) < 2 ^ Z.of_nat n.
Proof. intros. rewrite get_bits_spec by auto. apply bits_val_range. Qed.

(* ------------------------------------------------------------------ *)
(** ** set_bits                                                         *)
(* ------------------------------------------------------------------ *)

Ltac case_bools :=
  repeat match goal with
         | |- context [Z.eqb ?a ?b] => destruct (Z.eqb_spec a b)
         | |- context [Z.ltb ?a ?b] => destruct (Z.ltb_spec a b)
         | |- context [Z.leb ?a ?b] => destruct (Z.leb_spec a b)
         end.

Lemma BIT_pow2 k : 0 <= k -> BIT k = 2 ^ k.
Proof. intros. unfold BIT. now rewrite Z.shiftl_1_l. Qed.

Lemma byte_testbit_high x m : is_byte x -> 8 <= m -> Z.testbit x m = false.
Proof.
  unfold is_byte. intros Hx Hm.
  rewrite <- (Z.mod_small x (2 ^ 8)) by lia.
  apply Z.mod_pow2_bits_high. lia.
Qed.

Lemma testbit_set_byte x k (b : bool) m :
  is_byte x -> 0 <= k < 8 -> 0 <= m ->
  Z.testbit (if b then u8 (Z.lor x (BIT k))
             else u8 (Z.land x (Z.lnot (BIT k)))) m
  = if m =? k then b else Z.testbit x m.
Proof.
  intros Hx Hk Hm. rewrite BIT_pow2 by lia. unfold u8.
  destruct b; rewrite Z.testbit_mod_pow2 by lia.
  - rewrite Z.lor_spec, Z.pow2_bits_eqb by lia.
    case_bools; subst; simpl; try lia; auto using orb_true_r.
    + now rewrite orb_false_r.
    + symmetry. now apply byte_testbit_high.
  - rewrite Z.land_spec, Z.lnot_spec, Z.pow2_bits_eqb by lia.
    case_bools; subst; simpl; try lia; auto using andb_false_r.
    + now rewrite andb_true_r.
    + symmetry. now apply byte_testbit_high.
Qed.

Lemma set_bits_loop_spec : forall n out o start val,
  0 <= start < 8 -> bytes out ->
  8 * Z.of_nat o + start + Z.of_nat n <= 8 * Z.of_nat (length out) ->
  length (set_bits_loop n out o start val) = length out /\
  bytes (set_bits_loop n out o start val) /\
  forall g, 0 <= g ->
    bit (set_bits_loop n out o start val) g =
    if (8 * Z.of_nat o + start <=? g)
       && (g <? 8 * Z.of_nat o + start + Z.of_nat n)
    then Z.testbit val (31 - (g - (8 * Z.of_nat o + start)))
    else bit out g.
Proof.
  induction n as [|n IH]; intros out o start val Hs Hb Hlen.
  - cbn [set_bits_loop]. repeat split; auto.
    intros g Hg. case_bools; cbn [andb orb negb]; auto; lia.
  - cbn [set_bits_loop].
    rewrite BIT_pow2 with (k := 31), land_pow2_eqb by lia.
    set (b := Z.testbit val 31).
    set (byte' := if b then u8 (Z.lor (nth o out 0) (BIT (7 - start)))
                  else u8 (Z.land (nth o out 0) (Z.lnot (BIT (7 - start))))).
    assert (Hout1 :
      (if negb b
       then upd o (u8 (Z.land (nth o out 0) (Z.lnot (BIT (7 - start))))) out
       else upd o (u8 (Z.lor (nth o out 0) (BIT (7 - start)))) out)
      = upd o byte' out) by (subst byte'; destruct b; reflexivity).
    rewrite Hout1. clear Hout1.
    assert (Ho : (o < length out)%nat) by lia.
    assert (Hbyte' : is_byte byte') by (subst byte'; destruct b; apply u8_byte).
    assert (Hb1 : bytes (upd o byte' out)) by now apply bytes_upd.
    assert (Hbit1 : forall g, 0 <= g ->
              bit (upd o byte' out) g =
              if g =? 8 * Z.of_nat o + start then b else bit out g).
    { intros g Hg. rewrite bit_upd by auto. subst byte'.
      destruct (Z.eqb_spec (g / 8) (Z.of_nat o)) as [E|E].
      - rewrite testbit_set_byte by (try apply bytes_nth; auto; lia).
        unfold bit. rewrite E, Nat2Z.id.
        case_bools; auto; lia.
      - case_bools; auto; lia. }
    assert (Hval : forall j, 0 <= j ->
              Z.testbit (u32 (Z.shiftl val 1)) (31 - j)
              = Z.testbit val (31 - (j + 1))).
    { intros j Hj. unfold u32.
      destruct (Z.ltb_spec (31 - j) 0) as [Hneg|Hpos].
      - rewrite !Z.testbit_neg_r by lia. reflexivity.
      - rewrite Z.testbit_mod_pow2, Z.shiftl_spec by lia.
        case_bools; cbn [andb orb negb]; try lia. f_equal; lia. }
    destruct (Z.eqb_spec (start + 1) 8) as [E|E].
    + destruct (IH (upd o byte' out) (S o) 0 (u32 (Z.shiftl val 1)))
        as (L & B & G); auto; try lia.
      { rewrite length_upd. lia. }
      rewrite L, length_upd. repeat split; auto.
      intros g Hg. rewrite G, Hbit1 by auto.
      case_bools; cbn [andb orb negb]; try lia; subst; auto;
        first [ rewrite Hval by lia; f_equal; lia | unfold b; f_equal; lia ].
    + destruct (IH (upd o byte' out) o (start + 1) (u32 (Z.shiftl val 1)))
        as (L & B & G); auto; try lia.
      { rewrite length_upd. lia. }
      rewrite L, length_upd. repeat split; auto.
      intros g Hg. rewrite G, Hbit1 by auto.
      case_bools; cbn [andb orb negb]; try lia; subst; auto;
        first [ rewrite Hval by lia; f_equal; lia | unfold b; f_equal; lia ].
Qed.

Lemma set_bits_spec out start n val :
  0 <= start -> (n <= 32)%nat -> bytes out ->
  start + Z.of_nat n <= 8 * Z.of_nat (length out) ->
  length (set_bits out start (Z.of_nat n) val) = length out /\
  bytes (set_bits out start (Z.of_nat n) val) /\
  forall g, 0 <= g ->
    bit (set_bits out start (Z.of_nat n) val) g =
    if (start <=? g) && (g <? start + Z.of_nat n)
    then Z.testbit val (start + Z.of_nat n - 1 - g)
    else bit out g.
Proof.
  intros Hs Hn Hb Hlen. unfold set_bits. rewrite Nat2Z.id.
  assert (E : 8 * Z.of_nat (Z.to_nat (start / 8)) + start mod 8 = start)
    by (rewrite Z2Nat.id; lia).
  destruct (set_bits_loop_spec n out (Z.to_nat (start / 8)) (start mod 8)
              (u32 (Z.shiftl val (32 - Z.of_nat n))))
    as (L & B & G); auto; try lia.
  repeat split; auto.
  intros g Hg. rewrite G by auto. rewrite E.
  case_bools; cbn [andb orb negb]; auto.
  unfold u32. rewrite Z.testbit_mod_pow2, Z.shiftl_spec by lia.
  case_bools; cbn [andb orb negb]; try lia. f_equal; lia.
Qed.

Lemma get_set_bits out start n val :
  0 <= start -> (n <= 32)%nat -> bytes out ->
  start + Z.of_nat n <= 8 * Z.of_nat (length out) ->
  get_bits (set_bits out start (Z.of_nat n) val) start (Z.of_nat n)
  = val mod 2 ^ Z.of_nat n.
Proof.
  intros Hs Hn Hb Hlen.
  destruct (set_bits_spec out start n val) as (_ & _ & G); auto.
  rewrite get_bits_spec by auto.
  rewrite <- (bits_val_testbit val n (Z.of_nat n - 1)) by reflexivity.
  apply bits_val_ext. intros j Hj. rewrite G by lia.
  case_bools; cbn [andb orb negb]; try lia. f_equal; lia.
Qed.

(* ------------------------------------------------------------------ *)
(** ** numinput_to_bits and bits_to_numoutput                           *)
(* ------------------------------------------------------------------ *)

Ltac bool_finish :=
  cbn [andb orb negb];
  rewrite ?orb_false_r, ?orb_true_r, ?andb_true_r, ?andb_false_r;
  try reflexivity; try lia;
  try (f_equal; lia); try (f_equal; f_equal; lia).

Lemma nth_tl (l : list Z) k d : nth k (tl l) d = nth (S k) l d.
Proof. destruct l; simpl; auto. destruct k; auto. Qed.

Lemma testbit_land7 a j :
  0 <= j -> Z.testbit (Z.land a 7) j = Z.testbit a j && (j <? 3).
Proof.
  intros. rewrite Z.land_spec. change 7 with (Z.ones 3).
  now rewrite Z.testbit_ones_nonneg by lia.
Qed.

Lemma testbit_255 j : 0 <= j -> Z.testbit 255 j = (j <? 8).
Proof.
  intros. change 255 with (Z.ones 8). now rewrite Z.testbit_ones_nonneg by lia.
Qed.

Lemma testbit_u8_lor x y m :
  0 <= m ->
  Z.testbit (u8 (Z.lor x y)) m = (m <? 8) && (Z.testbit x m || Z.testbit y m).
Proof.
  intros. unfold u8. now rewrite Z.testbit_mod_pow2, Z.lor_spec by lia.
Qed.

Lemma testbit_decoded c bitpos q :
  0 <= bitpos <= 13 -> 0 <= q ->
  Z.testbit (u16 (Z.shiftl (u16 (Z.land (c - 48) 7)) bitpos)) q
  = (bitpos <=? q) && (q <? bitpos + 3) && Z.testbit (c - 48) (q - bitpos).
Proof.
  intros Hb Hq. unfold u16.
  rewrite Z.testbit_mod_pow2, Z.shiftl_spec by lia.
  destruct (Z.ltb_spec (q - bitpos) 0) as [Hneg|Hpos].
  - rewrite !Z.testbit_neg_r by lia. case_bools; bool_finish.
  - rewrite Z.testbit_mod_pow2, testbit_land7 by lia.
    case_bools; bool_finish.
Qed.

Lemma numinput_step out o bitpos c :
  0 <= bitpos <= 13 -> bytes out -> (S o < length out)%nat ->
  let decoded := u16 (Z.shiftl (u16 (Z.land (c - 48) 7)) bitpos) in
  let out1 := upd o (u8 (Z.lor (nth o out 0) (Z.shiftr decoded 8))) out in
  let out2 :=
    upd (S o) (u8 (Z.lor (nth (S o) out1 0) (Z.land decoded 255))) out1 in
  length out2 = length out /\ bytes out2 /\
  forall g, 0 <= g ->
    bit out2 g =
    bit out g
    || ((8 * Z.of_nat o + 13 - bitpos <=? g)
        && (g <? 8 * Z.of_nat o + 13 - bitpos + 3)
        && Z.testbit (c - 48) (8 * Z.of_nat o + 13 - bitpos + 2 - g)).
Proof.
  intros Hbp Hb Ho decoded out1 out2.
  assert (L1 : length out1 = length out) by (unfold out1; apply length_upd).
  assert (B1 : bytes out1) by (unfold out1; apply bytes_upd; auto using u8_byte).
  repeat split.
  - unfold out2. now rewrite length_upd.
  - unfold out2. apply bytes_upd; auto using u8_byte.
  - intros g Hg. unfold out2. rewrite bit_upd by lia.
    destruct (Z.eqb_spec (g / 8) (Z.of_nat (S o))) as [E1|E1].
    + unfold out1 at 1. rewrite nth_upd_other by lia.
      rewrite testbit_u8_lor, Z.land_spec, testbit_255 by lia.
      unfold decoded. rewrite testbit_decoded by lia.
      unfold bit. rewrite E1, Nat2Z.id.
      case_bools; bool_finish.
    + unfold out1. rewrite bit_upd by lia.
      destruct (Z.eqb_spec (g / 8) (Z.of_nat o)) as [E2|E2].
      * rewrite testbit_u8_lor, Z.shiftr_spec by lia.
        unfold decoded. rewrite testbit_decoded by lia.
        unfold bit. rewrite E2, Nat2Z.id.
        case_bools; bool_finish.
      * case_bools; bool_finish.
Qed.

Lemma numinput_loop_spec : forall n in_ out o bitpos,
  0 <= bitpos <= 13 -> bytes out ->
  8 * Z.of_nat o + (13 - bitpos) + 3 * Z.of_nat n + 5
    <= 8 * Z.of_nat (length out) ->
  (n = 0%nat \/ (o + 2 <= length out)%nat) ->
  length (numinput_loop n in_ out o bitpos) = length out /\
  bytes (numinput_loop n in_ out o bitpos) /\
  forall g, 0 <= g ->
    bit (numinput_loop n in_ out o bitpos) g =
    bit out g
    || ((8 * Z.of_nat o + 13 - bitpos <=? g)
        && (g <? 8 * Z.of_nat o + 13 - bitpos + 3 * Z.of_nat n)
        && Z.testbit
             (nth (Z.to_nat ((g - (8 * Z.of_nat o + 13 - bitpos)) / 3)) in_ 0
              - 48)
             (2 - (g - (8 * Z.of_nat o + 13 - bitpos)) mod 3)).
Proof.
  induction n as [|n IH]; intros in_ out o bitpos Hbp Hb Hlen Hroom.
  - cbn [numinput_loop]. repeat split; auto.
    intros g Hg. case_bools; bool_finish.
  - cbn [numinput_loop]. unfold TOKEN_BITS_PER_CHAR.
    destruct Hroom as [Hz|Hroom]; [discriminate|].
    destruct (numinput_step out o bitpos (nth 0 in_ 0)) as (L & B & G);
      auto; try lia.
    set (out2 := upd (S o) _ _) in *.
    destruct (Z.ltb_spec (bitpos - 3) 0) as [Hw|Hw].
    + assert (R : n = 0%nat \/ (S o + 2 <= length out2)%nat)
        by (destruct n; [now left | right; lia]).
      destruct (IH (tl in_) out2 (S o) (bitpos - 3 + 8)) as (L' & B' & G');
        auto; try lia.
      rewrite L', L. repeat split; auto.
      intros g Hg. rewrite G', G by auto. rewrite nth_tl.
      rewrite <- orb_assoc. f_equal.
      case_bools; bool_finish;
        try (replace (Z.to_nat ((g - (8 * Z.of_nat o + 13 - bitpos)) / 3))
               with 0%nat by lia; f_equal; lia);
        try (replace (S (Z.to_nat ((g - (8 * Z.of_nat (S o) + 13
                                          - (bitpos - 3 + 8))) / 3)))
               with (Z.to_nat ((g - (8 * Z.of_nat o + 13 - bitpos)) / 3))
               by lia; f_equal; lia).
    + assert (R : n = 0%nat \/ (o + 2 <= length out2)%nat)
        by (destruct n; [now left | right; lia]).
      destruct (IH (tl in_) out2 o (bitpos - 3)) as (L' & B' & G');
        auto; try lia.
      rewrite L', L. repeat split; auto.
      intros g Hg. rewrite G', G by auto. rewrite nth_tl.
      rewrite <- orb_assoc. f_equal.
      case_bools; bool_finish;
        try (replace (Z.to_nat ((g - (8 * Z.of_nat o + 13 - bitpos)) / 3))
               with 0%nat by lia; f_equal; lia);
        try (replace (S (Z.to_nat ((g - (8 * Z.of_nat o + 13
                                          - (bitpos - 3))) / 3)))
               with (Z.to_nat ((g - (8 * Z.of_nat o + 13 - bitpos)) / 3))
               by lia; f_equal; lia).
Qed.

Lemma bit_zeros_prefix out m g :
  (m <= length out)%nat -> 0 <= g ->
  bit (write_at out 0 (repeat 0 m)) g =
  if g <? 8 * Z.of_nat m then false else bit out g.
Proof.
  intros Hm Hg. rewrite write_at_0 by now rewrite repeat_length.
  rewrite repeat_length. unfold bit.
  destruct (Z.ltb_spec g (8 * Z.of_nat m)) as [H|H].
  - rewrite app_nth1 by (rewrite repeat_length; lia).
    rewrite nth_repeat. apply Z.testbit_0_l.
  - rewrite app_nth2 by (rewrite repeat_length; lia).
    rewrite repeat_length, nth_skipn. do 2 f_equal. lia.
Qed.

Lemma numinput_to_bits_spec in_ out n :
  bytes out ->
  (3 * Z.of_nat n + 7) / 8 + 1 <= Z.of_nat (length out) ->
  length (numinput_to_bits in_ out (3 * Z.of_nat n)) = length out /\
  bytes (numinput_to_bits in_ out (3 * Z.of_nat n)) /\
  forall g, 0 <= g < 3 * Z.of_nat n ->
    bit (numinput_to_bits in_ out (3 * Z.of_nat n)) g =
    Z.testbit (nth (Z.to_nat (g / 3)) in_ 0 - 48) (2 - g mod 3).
Proof.
  intros Hb Hlen. unfold numinput_to_bits, TOKEN_BITS_PER_CHAR.
  replace (3 * Z.of_nat n / 3) with (Z.of_nat n) by lia.
  rewrite Nat2Z.id.
  set (m := Z.to_nat ((3 * Z.of_nat n + 7) / 8)).
  set (out0 := write_at out 0 (repeat 0 m)).
  assert (L0 : length out0 = length out) by apply length_write_at.
  assert (B0 : bytes out0).
  { apply bytes_write_at; auto. apply bytes_repeat. unfold is_byte; lia. }
  assert (R : n = 0%nat \/ (0 + 2 <= length out0)%nat)
    by (destruct n; [now left | right; lia]).
  destruct (numinput_loop_spec n in_ out0 0 13) as (L & B & G);
    auto; try lia.
  rewrite L, L0. repeat split; auto.
  intros g Hg. rewrite G by lia. unfold out0.
  rewrite bit_zeros_prefix by lia.
  replace (8 * Z.of_nat 0 + 13 - 13) with 0 by lia.
  replace (g - 0) with g by lia.
  case_bools; bool_finish.
Qed.

Lemma numoutput_window b0 b1 bitpos :
  is_byte b0 -> is_byte b1 -> 0 <= bitpos <= 13 ->
  Z.land (Z.shiftr (u16 (Z.lor (Z.shiftl b0 8) b1)) bitpos) 7
  = bits_val (fun j => if bitpos + 2 - j <? 8
                       then Z.testbit b1 (bitpos + 2 - j)
                       else Z.testbit b0 (bitpos + 2 - j - 8)) 3.
Proof.
  intros H0 H1 Hbp. apply Z.bits_inj'. intros k Hk.
  rewrite testbit_land7, Z.shiftr_spec, testbit_bits_val by lia.
  unfold u16. rewrite Z.testbit_mod_pow2, Z.lor_spec, Z.shiftl_spec by lia.
  change (Z.of_nat 3) with 3.
  replace (bitpos + 2 - (3 - 1 - k)) with (k + bitpos) by lia.
  case_bools; bool_finish;
    rewrite ?(Z.testbit_neg_r b0), ?(byte_testbit_high b1),
      ?(byte_testbit_high b0) by (auto; lia);
    bool_finish.
Qed.

Lemma numoutput_loop_spec buf : forall n o bitpos,
  0 <= bitpos <= 13 -> bytes buf ->
  length (numoutput_loop n buf o bitpos) = S n /\
  nth n (numoutput_loop n buf o bitpos) 0 = 0 /\
  forall k, (k < n)%nat ->
    nth k (numoutput_loop n buf o bitpos) 0 =
    48 + bits_val (fun j => bit buf (8 * Z.of_nat o + 13 - bitpos
                                     + 3 * Z.of_nat k + j)) 3.
Proof.
  induction n as [|n IH]; intros o bitpos Hbp Hb.
  - cbn [numoutput_loop]. repeat split; auto. intros k Hk; lia.
  - cbn [numoutput_loop]. unfold TOKEN_BITS_PER_CHAR.
    rewrite numoutput_window by (auto using bytes_nth).
    assert (Hhead :
      bits_val (fun j => if bitpos + 2 - j <? 8
                         then Z.testbit (nth (S o) buf 0) (bitpos + 2 - j)
                         else Z.testbit (nth o buf 0) (bitpos + 2 - j - 8)) 3
      = bits_val (fun j => bit buf (8 * Z.of_nat o + 13 - bitpos
                                    + 3 * Z.of_nat 0 + j)) 3).
    { apply bits_val_ext. intros j Hj. change (Z.of_nat 3) with 3 in Hj.
      destruct (Z.ltb_spec (bitpos + 2 - j) 8) as [H|H].
      - replace (8 * Z.of_nat o + 13 - bitpos + 3 * Z.of_nat 0 + j)
          with (8 * Z.of_nat (S o) + (5 - bitpos + j)) by lia.
        rewrite bit_eq by lia. f_equal; lia.
      - replace (8 * Z.of_nat o + 13 - bitpos + 3 * Z.of_nat 0 + j)
          with (8 * Z.of_nat o + (13 - bitpos + j)) by lia.
        rewrite bit_eq by lia. f_equal; lia. }
    rewrite Hhead.
    destruct (Z.ltb_spec (bitpos - 3) 0) as [Hw|Hw].
    + destruct (IH (S o) (bitpos - 3 + 8)) as (L & Z0 & K); auto; try lia.
      cbn [length nth]. rewrite L. repeat split; auto.
      intros [|k] Hk; [rewrite Z.add_comm; reflexivity|].
      rewrite K by lia. f_equal. apply bits_val_ext. intros j Hj.
      f_equal. lia.
    + destruct (IH o (bitpos - 3)) as (L & Z0 & K); auto; try lia.
      cbn [length nth]. rewrite L. repeat split; auto.
      intros [|k] Hk; [rewrite Z.add_comm; reflexivity|].
      rewrite K by lia. f_equal. apply bits_val_ext. intros j Hj.
      f_equal. lia.
Qed.

Lemma bits_to_numoutput_spec buf n :
  bytes buf ->
  length (bits_to_numoutput buf (3 * Z.of_nat n)) = S n /\
  nth n (bits_to_numoutput buf (3 * Z.of_nat n)) 0 = 0 /\
  forall k, (k < n)%nat ->
    nth k (bits_to_numoutput buf (3 * Z.of_nat n)) 0 =
    48 + bits_val (fun j => bit buf (3 * Z.of_nat k + j)) 3.
Proof.
  intros Hb. unfold bits_to_numoutput, TOKEN_BITS_PER_CHAR.
  replace (3 * Z.of_nat n / 3) with (Z.of_nat n) by lia.
  rewrite Nat2Z.id.
  destruct (numoutput_loop_spec buf n 0 13) as (L & Z0 & K);
    [lia | assumption |].
  repeat split; auto;
    intros k Hk; rewrite K by auto; f_equal; apply bits_val_ext;
    intros j Hj; f_equal; lia.
Qed.

(** The characters [bits_to_numoutput] produces are octal digits. *)
Lemma bits_to_numoutput_octal buf n k :
  bytes buf -> (k < n)%nat ->
  octal_char (nth k (bits_to_numoutput buf (3 * Z.of_nat n)) 0).
Proof.
  intros Hb Hk. destruct (bits_to_numoutput_spec buf n Hb) as (_ & _ & K).
  rewrite K by auto. unfold octal_char.
  pose proof (bits_val_range (fun j => bit buf (3 * Z.of_nat k + j)) 3) as R.
  change (2 ^ Z.of_nat 3) with 8 in R. lia.
Qed.

(* ------------------------------------------------------------------ *)
(** ** The digit codec round trip                                       *)
(* ------------------------------------------------------------------ *)

Lemma octal_digit_bits c :
  octal_char c ->
  bits_val (fun j => Z.testbit (c - 48) (2 - j)) 3 = c - 48.
Proof.
  intros Hc. unfold octal_char in Hc.
  rewrite (bits_val_testbit (c - 48) 3 2) by reflexivity.
  change (2 ^ Z.of_nat 3) with 8. lia.
Qed.

(** C10: for every string [s] of characters '0'..'7', [numinput_to_bits]
    with [n_bits = 3 * length s] followed by [bits_to_numoutput] with the
    same bit count gives back [s] (followed by its terminator).  The
    intermediate buffer [out] is any byte buffer with room for the bits and
    for the one byte more that the two-byte window of the packer touches. *)
Theorem numinput_numoutput_identity (s out : list Z) :
  Forall octal_char s -> bytes out ->
  (3 * Z.of_nat (length s) + 7) / 8 + 1 <= Z.of_nat (length out) ->
  bits_to_numoutput (numinput_to_bits s out (3 * Z.of_nat (length s)))
    (3 * Z.of_nat (length s))
  = s ++ [0].
Proof.
  intros Hs Hb Hlen.
  destruct (numinput_to_bits_spec s out (length s) Hb Hlen) as (L & B & G).
  destruct (bits_to_numoutput_spec _ (length s) B) as (L' & Z0 & K).
  apply nth_ext with (d := 0) (d' := 0).
  - rewrite L', length_app. simpl. lia.
  - intros k Hk. rewrite L' in Hk.
    destruct (Nat.eq_dec k (length s)) as [->|Hne].
    + rewrite Z0, app_nth2, Nat.sub_diag by lia. reflexivity.
    + assert (Hk' : (k < length s)%nat) by lia.
      rewrite K, app_nth1 by auto.
      rewrite (bits_val_ext _ (fun j => Z.testbit (nth k s 0 - 48) (2 - j))).
      * rewrite octal_digit_bits; [lia|].
        rewrite Forall_forall in Hs. apply Hs. now apply nth_In.
      * intros j Hj. change (Z.of_nat 3) with 3 in Hj.
        rewrite G by lia.
        replace (Z.to_nat ((3 * Z.of_nat k + j) / 3)) with k by lia.
        f_equal. lia.
Qed.

Lemma numinput_numoutput_identity_witness :
  bits_to_numoutput
    (numinput_to_bits (chars "01234567") (repeat 0 4)
       (3 * Z.of_nat (length (chars "01234567"))))
    (3 * Z.of_nat (length (chars "01234567")))
  = chars "01234567" ++ [0].
Proof.
  apply numinput_numoutput_identity.
  - repeat constructor; unfold octal_char; simpl; lia.
  - repeat constructor; unfold is_byte; lia.
  - vm_compute. discriminate.
Defined.

(* ------------------------------------------------------------------ *)
(** ** Expiry, PIN mode, tokencode slice                                *)
(* ------------------------------------------------------------------ *)

Lemma s32_small x : - 2 ^ 31 <= x < 2 ^ 31 -> s32 x = x.
Proof. unfold s32. intros. rewrite Z.mod_small; lia. Qed.

(** Below 2038-01-19 ([exp_date] up to 13897) neither the product nor
    the sum overflows, and [securid_check_exp] returns
    ((SECURID_EPOCH + (exp_date + 1) * 86400 + 43200) - now) / 86400 with
    the quotient truncated towards zero: 0 one second before the end of
    the grace period, 0 one second later, negative one day after that. *)
Lemma securid_check_exp_before_2038 (t : securid_token) (now : Z) :
  0 <= exp_date t < 13898 ->
  - 2 ^ 31 <= Z.quot (grace_end t - now) 86400 < 2 ^ 31 ->
  securid_check_exp t now =
    Z.quot (SECURID_EPOCH + (exp_date t + 1) * 86400 + 43200 - now) 86400
  /\ securid_check_exp t (grace_end t - 1) = 0
  /\ securid_check_exp t (grace_end t - 1 + 1) = 0
  /\ securid_check_exp t (grace_end t - 1 + 1 + 86400) < 0.
Proof.
  intros He Hr.
  assert (Hgen : forall now',
             - 2 ^ 31 <= Z.quot (grace_end t - now') 86400 < 2 ^ 31 ->
             securid_check_exp t now' = Z.quot (grace_end t - now') 86400).
  { intros now' Hr'. unfold securid_check_exp.
    change (60 * 60 * 24) with 86400. change (60 * 60 * 12) with 43200.
    rewrite (s32_small ((exp_date t + 1) * 86400)) by lia.
    rewrite (s32_small (SECURID_EPOCH + (exp_date t + 1) * 86400))
      by (unfold SECURID_EPOCH; lia).
    replace (SECURID_EPOCH + (exp_date t + 1) * 86400 + 43200 - now')
      with (grace_end t - now') by (unfold grace_end; lia).
    now apply s32_small. }
  split; [|split; [|split]].
  - rewrite Hgen by auto. reflexivity.
  - rewrite Hgen;
      replace (grace_end t - (grace_end t - 1)) with 1 by lia;
      [reflexivity | cbv; split; congruence].
  - rewrite Hgen;
      replace (grace_end t - (grace_end t - 1 + 1)) with 0 by lia;
      [reflexivity | cbv; split; congruence].
  - rewrite Hgen;
      replace (grace_end t - (grace_end t - 1 + 1 + 86400))
        with (- 86400) by lia;
      [reflexivity | cbv; split; congruence].
Qed.

(** From 2038-01-19 on ([exp_date] from 13898 to the 14-bit maximum) the
    [int] sum SECURID_EPOCH + (exp_date + 1) * 86400 exceeds 2^31 - 1:
    the value the code computes from is 2^32 seconds too small. *)
Lemma securid_check_exp_from_2038 (t : securid_token) (now : Z) :
  13898 <= exp_date t < 2 ^ 14 ->
  - 2 ^ 31 <= Z.quot (grace_end t - 2 ^ 32 - now) 86400 < 2 ^ 31 ->
  securid_check_exp t now = Z.quot (grace_end t - 2 ^ 32 - now) 86400.
Proof.
  intros He Hr. unfold securid_check_exp.
  change (60 * 60 * 24) with 86400. change (60 * 60 * 12) with 43200.
  rewrite (s32_small ((exp_date t + 1) * 86400)) by lia.
  assert (W : s32 (SECURID_EPOCH + (exp_date t + 1) * 86400)
              = SECURID_EPOCH + (exp_date t + 1) * 86400 - 2 ^ 32).
  { unfold s32, SECURID_EPOCH.
    change (2 ^ 31) with 2147483648. change (2 ^ 32) with 4294967296.
    change (2 ^ 14) with 16384 in He. lia. }
  rewrite W.
  replace (SECURID_EPOCH + (exp_date t + 1) * 86400 - 2 ^ 32 + 43200 - now)
    with (grace_end t - 2 ^ 32 - now) by (unfold grace_end; lia).
  now apply s32_small.
Qed.

(** C5: the claim fails for tokens that expire on 2038-01-19 or later.
    Take the record whose [exp_date] is 16383, the largest 14-bit value.
    One second before the end of its grace period (2362305599) the
    claimed value is 0, and [securid_check_exp] returns -49710; on
    2023-11-14 (1700000000) the claimed value is 7665 days, and
    [securid_check_exp] returns -42044: the [int] sum
    SECURID_EPOCH + (exp_date + 1) * 86400 has wrapped. *)
Theorem securid_check_exp_int_overflow :
  exp_date late_token = 16383
  /\ grace_end late_token - 1 = 2362305599
  /\ Z.quot (SECURID_EPOCH + (exp_date late_token + 1) * 86400 + 43200
             - 2362305599) 86400 = 0
  /\ securid_check_exp late_token 2362305599 = - 49710
  /\ Z.quot (SECURID_EPOCH + (exp_date late_token + 1) * 86400 + 43200
             - 1700000000) 86400 = 7665
  /\ securid_check_exp late_token 1700000000 = - 42044.
Proof.
  split; [reflexivity|]. split; [reflexivity|].
  split; [vm_compute; reflexivity|]. split; [vm_compute; reflexivity|].
  split; vm_compute; reflexivity.
Qed.

(* ------------------------------------------------------------------ *)
(** ** Properties that hold for every cipher and header                 *)
(* ------------------------------------------------------------------ *)

Section Properties.

Context {cipher : Rijndael} {hdr : Header}.

Lemma land3_mod4 m : Z.land m 3 = m mod 4.
Proof. change 3 with (Z.ones 2). now rewrite Z.land_ones by lia. Qed.

Lemma land_lnot3 m : Z.land m (Z.lnot 3) = 4 * (m / 4).
Proof.
  rewrite <- Z.ldiff_land. change 3 with (Z.ones 2).
  rewrite Z.ldiff_ones_r by lia.
  rewrite Z.shiftr_div_pow2, Z.shiftl_mul_pow2 by lia.
  change (2 ^ 2) with 4. lia.
Qed.

Lemma tokencode_word_slice (t : securid_token) (gmt : tm) :
  tokencode_word t gmt =
  tokencode_slice (tokencode_key0 t gmt) (tm_min gmt mod 4).
Proof.
  unfold tokencode_word, tokencode_slice.
  rewrite land3_mod4, Z.shiftl_mul_pow2 by lia.
  change (2 ^ 2) with 4. f_equal. lia.
Qed.

(** The AES cascade sees the minute only through [min & ~3]. *)
Lemma tokencode_key0_window (t : securid_token) (gmt : tm) (m : Z) :
  tokencode_key0 t (at_minute gmt m)
  = tokencode_key0 t (at_minute gmt (4 * (m / 4))).
Proof.
  unfold tokencode_key0, tokencode_bcd_time. cbn [at_minute tm_min tm_year
    tm_mon tm_mday tm_hour].
  rewrite !land_lnot3.
  replace (4 * (m / 4) / 4) with (m / 4) by lia. reflexivity.
Qed.

(** C4, as the code has it: for every token, date and hour, the tokencode
    at minutes 0, 3, 4 and 7 is slice 0, 3, 0 and 3 of the final AES
    output, that is slice [minute mod 4]; the AES output itself is the one
    of the four-minute window (minute rounded down to a multiple of 4). *)
Theorem tokencode_slice_by_minute (t : securid_token) (gmt : tm) :
  let key0_at m := tokencode_key0 t (at_minute gmt m) in
  tokencode_word t (at_minute gmt 0) = tokencode_slice (key0_at 0) 0
  /\ tokencode_word t (at_minute gmt 3) = tokencode_slice (key0_at 0) 3
  /\ tokencode_word t (at_minute gmt 4) = tokencode_slice (key0_at 4) 0
  /\ tokencode_word t (at_minute gmt 7) = tokencode_slice (key0_at 4) 3
  /\ tokencode_word t gmt
     = tokencode_slice (key0_at (4 * (tm_min gmt / 4))) (tm_min gmt mod 4).
Proof.
  cbv zeta. split; [|split; [|split; [|split]]].
  - rewrite tokencode_word_slice. cbn [at_minute tm_min].
    change (0 mod 4) with 0. reflexivity.
  - rewrite tokencode_word_slice, (tokencode_key0_window t gmt 3).
    cbn [at_minute tm_min]. change (3 mod 4) with 3.
    change (4 * (3 / 4)) with 0. reflexivity.
  - rewrite tokencode_word_slice. cbn [at_minute tm_min].
    change (4 mod 4) with 0. reflexivity.
  - rewrite tokencode_word_slice, (tokencode_key0_window t gmt 7).
    cbn [at_minute tm_min]. change (7 mod 4) with 3.
    change (4 * (7 / 4)) with 4. reflexivity.
  - rewrite tokencode_word_slice. f_equal.
    rewrite <- tokencode_key0_window. now destruct gmt.
Qed.


(** Whatever the position of a two-bit PIN-mode field above bit 1, the
    record whose field holds 2 is reported as mode 2 by
    [securid_token_info] and as not requiring a PIN by
    [securid_pin_required]. *)
Lemma securid_pin_required_shift_then_mask (t : securid_token) :
  2 <= FLD_PINMODE_SHIFT ->
  FLD_PINMODE_MASK = Z.shiftl 3 FLD_PINMODE_SHIFT ->
  token_info_pin_mode (set_flags t (Z.shiftl 2 FLD_PINMODE_SHIFT)) = 2
  /\ securid_pin_required (set_flags t (Z.shiftl 2 FLD_PINMODE_SHIFT))
     = false.
Proof.
  intros Hs Hm. unfold token_info_pin_mode, securid_pin_required.
  cbn [flags set_flags]. rewrite Hm.
  set (s := FLD_PINMODE_SHIFT) in *. split.
  - rewrite <- Z.shiftl_land. change (Z.land 2 3) with 2.
    rewrite Z.shiftr_shiftl_l by lia.
    now rewrite Z.sub_diag.
  - rewrite Z.shiftr_shiftl_l, Z.sub_diag by lia.
    change (Z.shiftl 2 0) with 2.
    assert (E : Z.land 2 (Z.shiftl 3 s) = 0).
    { apply Z.bits_inj'. intros k Hk.
      rewrite Z.land_spec, Z.shiftl_spec, Z.testbit_0_l by lia.
      change 2 with (2 ^ 1) at 1. rewrite Z.pow2_bits_eqb by lia.
      destruct (Z.eqb_spec 1 k) as [<-|]; [|reflexivity].
      rewrite Z.testbit_neg_r by lia. reflexivity. }
    rewrite E. reflexivity.
Qed.

(* ------------------------------------------------------------------ *)
(** ** The block order of securid_mac                                   *)
(* ------------------------------------------------------------------ *)

Lemma bulk_count_step n :
  (16 < n)%nat -> ((n - 1) / 16 = S ((n - 16 - 1) / 16))%nat.
Proof.
  intros H. replace (n - 1)%nat with ((n - 16 - 1) + 1 * 16)%nat by lia.
  rewrite Nat.div_add by lia. apply Nat.add_1_r.
Qed.

Lemma bulk_count_small n : (n <= 16)%nat -> ((n - 1) / 16 = 0)%nat.
Proof. intros H. apply Nat.div_small. lia. Qed.

Lemma bulk_count_le n : ((n - 1) / 16 <= n)%nat.
Proof.
  apply Nat.le_trans with (n - 1)%nat; [|lia].
  apply Nat.Div0.div_le_upper_bound. lia.
Qed.

Lemma mac_bulk_spec : forall n in_ work odd,
  ((length in_ - 1) / 16 <= n)%nat ->
  mac_bulk n in_ work odd =
  (skipn (16 * ((length in_ - 1) / 16)) in_,
   absorb (chunks ((length in_ - 1) / 16) in_) work,
   xorb odd (Nat.odd ((length in_ - 1) / 16))).
Proof.
  induction n as [|n IH]; intros in_ work odd Hn; cbn [mac_bulk].
  - assert (E : ((length in_ - 1) / 16 = 0)%nat) by lia.
    rewrite E. cbn. now rewrite xorb_false_r.
  - destruct (Z.ltb_spec 16 (Z.of_nat (length in_))) as [H|H].
    + assert (E := bulk_count_step (length in_) ltac:(lia)).
      rewrite IH by (rewrite length_skipn; lia).
      rewrite length_skipn, E. cbn [chunks absorb fold_left].
      rewrite skipn_skipn. f_equal; [f_equal; f_equal; lia|].
      rewrite Nat.odd_succ, <- Nat.negb_odd.
      destruct odd, (Nat.odd ((length in_ - 16 - 1) / 16)); reflexivity.
    + rewrite bulk_count_small by lia. cbn. now rewrite xorb_false_r.
Qed.

Lemma absorb_app l1 l2 work :
  absorb (l1 ++ l2) work = absorb l2 (absorb l1 work).
Proof. unfold absorb. apply fold_left_app. Qed.

Lemma securid_mac_blocks in_ :
  securid_mac in_ = mac_finish (absorb (mac_blocks in_) (repeat 255 16)).
Proof.
  unfold securid_mac. rewrite mac_bulk_spec by apply bulk_count_le.
  unfold mac_blocks, mac_finish, zero_pad. rewrite !absorb_app.
  destruct (Nat.odd ((length in_ - 1) / 16)); reflexivity.
Qed.

Lemma chunks_snoc k : forall l,
  chunks (S k) l = chunks k l ++ [firstn 16 (skipn (16 * k) l)].
Proof.
  induction k as [|k IH]; intros l.
  - reflexivity.
  - change (chunks (S (S k)) l)
      with (firstn 16 l :: chunks (S k) (skipn 16 l)).
    rewrite IH. cbn [chunks app]. rewrite skipn_skipn.
    replace (16 * k + 16)%nat with (16 * S k)%nat by lia. reflexivity.
Qed.

Lemma zero_pad_full l : length l = 16%nat -> zero_pad l = l.
Proof.
  intros H. unfold zero_pad. rewrite write_at_0 by (rewrite repeat_length; lia).
  rewrite H. cbn. apply app_nil_r.
Qed.

Lemma mac_blocks_order in_ : mac_blocks in_ = mac_order in_.
Proof.
  unfold mac_blocks, mac_order, spec_mac_blocks.
  set (n := length in_).
  pose proof (Nat.div_mod_eq n 16) as Hdm.
  pose proof (Nat.mod_upper_bound n 16 ltac:(lia)) as Hr.
  destruct (Nat.ltb_spec 0 n) as [Hpos|Hzero];
    [destruct (Nat.eqb_spec (n mod 16) 0) as [Hm|Hm]|]; cbn [andb].
  - (* a positive multiple of 16 *)
    assert (Hq : (n / 16 = S ((n - 1) / 16))%nat).
    { symmetry. apply Nat.div_unique with (r := 0%nat); [lia|].
      assert (E : ((n - 1) / 16 = n / 16 - 1)%nat).
      { symmetry. apply Nat.div_unique with (r := 15%nat); lia. }
      lia. }
    rewrite Hq, chunks_snoc, <- app_assoc. f_equal.
    rewrite zero_pad_full.
    2:{ rewrite length_skipn. fold n. lia. }
    rewrite firstn_all2 by (rewrite length_skipn; fold n; lia).
    cbn [app]. f_equal. rewrite Nat.even_succ. reflexivity.
  - assert (E : ((n - 1) / 16 = n / 16)%nat).
    { symmetry. apply Nat.div_unique with (r := (n mod 16 - 1)%nat); lia. }
    now rewrite E.
  - assert (E : n = 0%nat) by lia. now rewrite E.
Qed.

(** C1, as the code has it: [securid_mac] absorbs, in this order, the
    leading 16-byte blocks, the final partial block zero-padded to 16
    bytes, a block of zeroes when the number of leading blocks is odd, and
    the length block, and ends with out := AES(work, work) XOR work.  The
    leading blocks are all full blocks of the input, except when the
    length is a positive multiple of 16: the last full block then is the
    final block (no empty block is padded), so the block of zeroes is
    absorbed when the number of full blocks is even ([mac_order]). *)
Theorem securid_mac_block_order (in_ : list Z) :
  securid_mac in_ = mac_finish (absorb (mac_order in_) (repeat 255 16)).
Proof.
  rewrite securid_mac_blocks. now rewrite mac_blocks_order.
Qed.

(** Off the positive multiples of 16 this is the order of the spec. *)
Lemma securid_mac_spec_order (in_ : list Z) :
  (length in_ = 0 \/ length in_ mod 16 <> 0)%nat ->
  securid_mac in_ = spec_mac in_.
Proof.
  intros H. rewrite securid_mac_blocks, mac_blocks_order.
  unfold spec_mac, mac_order.
  destruct (Nat.ltb_spec 0 (length in_)),
           (Nat.eqb_spec (length in_ mod 16) 0); cbn [andb]; auto; lia.
Qed.

(* ------------------------------------------------------------------ *)
(** ** generate_key_hash                                                *)
(* ------------------------------------------------------------------ *)

Lemma devid_skip sp c :
  (negb (sp =? 0) && negb (isxdigit c)) || ((sp =? 0) && negb (isdigit c))
  = negb (valid_digit sp c).
Proof.
  unfold valid_digit. destruct (sp =? 0), (isxdigit c), (isdigit c);
    reflexivity.
Qed.

Lemma devid_loop_spec sp dl : forall dv len key pos,
  len <= dl + 1 ->
  devid_loop dv sp dl len key pos =
  if dl + 1 <? len + Z.of_nat (length (filter (valid_digit sp) (c_str dv)))
  then None
  else Some (write_at key pos (filter (valid_digit sp) (c_str dv)),
             (pos + length (filter (valid_digit sp) (c_str dv)))%nat).
Proof.
  induction dv as [|c dv IH]; intros len key pos Hlen;
    cbn [devid_loop c_str].
  - cbn. rewrite Nat.add_0_r. destruct (Z.ltb_spec (dl + 1) (len + 0)); [lia|].
    reflexivity.
  - destruct (Z.eqb_spec c 0) as [Hc|Hc].
    + cbn. rewrite Nat.add_0_r.
      destruct (Z.ltb_spec (dl + 1) (len + 0)); [lia|]. reflexivity.
    + rewrite devid_skip. cbn [filter].
      destruct (valid_digit sp c); cbn [negb length write_at].
      * destruct (Z.ltb_spec dl len) as [H|H].
        -- destruct (Z.ltb_spec (dl + 1)
                       (len + Z.of_nat (S (length (filter (valid_digit sp)
                                                     (c_str dv))))));
             [reflexivity | lia].
        -- rewrite IH by lia.
           replace (len + 1 + Z.of_nat (length (filter (valid_digit sp)
                                                  (c_str dv))))
             with (len + Z.of_nat (S (length (filter (valid_digit sp)
                                                (c_str dv))))) by lia.
           rewrite <- plus_n_Sm. reflexivity.
      * now apply IH.
Qed.

Lemma skipn_repeat (x : Z) k n : skipn k (repeat x n) = repeat x (n - k).
Proof.
  revert k; induction n as [|n IH]; intros [|k]; cbn; auto.
Qed.

Lemma firstn_repeat_le (x : Z) k n :
  (k <= n)%nat -> firstn k (repeat x n) = repeat x k.
Proof.
  revert k; induction n as [|n IH]; intros [|k] H; cbn; auto; try lia.
  f_equal. apply IH. lia.
Qed.

Lemma firstn_app_zeros n (l : list Z) a b :
  (n <= length l + a)%nat -> (n <= length l + b)%nat ->
  firstn n (l ++ repeat 0 a) = firstn n (l ++ repeat 0 b).
Proof.
  intros Ha Hb. rewrite !firstn_app. f_equal.
  rewrite !firstn_repeat_le by lia. reflexivity.
Qed.

Lemma strlen_opt_str p : strlen (c_str p) = strlen p.
Proof. unfold strlen. now rewrite c_str_idem. Qed.

Lemma strlen_opt pass : strlen (opt_str pass) = Z.of_nat (length (opt_str pass)).
Proof.
  destruct pass as [p|]; cbn [opt_str]; [|reflexivity].
  unfold strlen. now rewrite c_str_idem.
Qed.

(** The buffer and the positions [generate_key_hash] reaches when the
    password and the digits fit. *)
Lemma key_hash_input_spec pass devid sp :
  0 <= MAX_PASS ->
  strlen (opt_str pass) <= MAX_PASS ->
  Z.of_nat (length (devid_digits devid sp)) <= devid_len_of sp + 1 ->
  key_hash_input pass devid sp =
  Some (opt_str pass ++ devid_digits devid sp
        ++ repeat 0 (Z.to_nat (MAX_PASS + DEVID_CHARS + MAGIC_LEN + 1)
                     - length (opt_str pass)
                     - length (devid_digits devid sp)),
        length (opt_str pass),
        (length (opt_str pass) + length (devid_digits devid sp))%nat).
Proof.
  intros Hmax Hpass Hdigits. unfold key_hash_input.
  set (N := Z.to_nat (MAX_PASS + DEVID_CHARS + MAGIC_LEN + 1)).
  assert (HN : Z.of_nat N = MAX_PASS + 48)
    by (unfold N, DEVID_CHARS, MAGIC_LEN; lia).
  rewrite strlen_opt in Hpass.
  assert (Hp : (length (opt_str pass) <= N)%nat) by lia.
  assert (Hafter :
    match pass with
    | Some p => if MAX_PASS <? strlen p then None
                else Some (write_at (repeat 0 N) 0 (c_str p),
                           length (c_str p))
    | None => Some (repeat 0 N, 0%nat)
    end
    = Some (opt_str pass ++ repeat 0 (N - length (opt_str pass)),
            length (opt_str pass))).
  { destruct pass as [p|]; cbn [opt_str] in *.
    - destruct (Z.ltb_spec MAX_PASS (strlen p)); [unfold strlen in *; lia|].
      rewrite write_at_0 by (rewrite repeat_length; lia).
      now rewrite skipn_repeat.
    - cbn. now rewrite Nat.sub_0_r. }
  rewrite Hafter. clear Hafter.
  destruct devid as [dv|]; unfold devid_digits in *; cbn [opt_str] in *.
  - rewrite devid_loop_spec by (unfold devid_len_of; destruct (sp =? 0); lia).
    fold (devid_len_of sp).
    destruct (Z.ltb_spec (devid_len_of sp + 1)
                (0 + Z.of_nat (length (filter (valid_digit sp) (c_str dv)))));
      [lia|].
    rewrite write_at_app; auto.
    + rewrite skipn_repeat. reflexivity.
    + rewrite repeat_length.
      assert (devid_len_of sp <= 40)
        by (unfold devid_len_of; destruct (sp =? 0); lia).
      lia.
  - cbn. rewrite Nat.add_0_r, Nat.sub_0_r. reflexivity.
Qed.

Lemma generate_key_hash_spec pass devid sp :
  0 <= MAX_PASS ->
  strlen (opt_str pass) <= MAX_PASS ->
  Z.of_nat (length (devid_digits devid sp)) <= devid_len_of sp + 1 ->
  generate_key_hash pass devid sp =
  (ERR_NONE,
   Some (securid_mac (key_buffer pass devid sp),
         securid_shortmac
           (pad_to (Z.to_nat (devid_len_of sp)) (devid_digits devid sp)))).
Proof.
  intros Hmax Hpass Hdigits. unfold generate_key_hash.
  rewrite key_hash_input_spec by auto.
  rewrite strlen_opt in Hpass.
  set (p := opt_str pass) in *. set (ds := devid_digits devid sp) in *.
  set (N := Z.to_nat (MAX_PASS + DEVID_CHARS + MAGIC_LEN + 1)).
  assert (HN : Z.of_nat N = MAX_PASS + 48)
    by (unfold N, DEVID_CHARS, MAGIC_LEN; lia).
  assert (Hdl : 32 <= devid_len_of sp <= 40)
    by (unfold devid_len_of; destruct (sp =? 0); lia).
  fold (devid_len_of sp).
  change (firstn (Z.to_nat MAGIC_LEN) magic) with magic.
  change (Z.to_nat MAGIC_LEN) with 7%nat.
  f_equal. f_equal. f_equal.
  - (* the MAC input *)
    f_equal. unfold key_buffer. fold p ds.
    rewrite (app_assoc p ds).
    rewrite write_at_app;
      [ | now rewrite length_app
        | rewrite repeat_length; change (length magic) with 7%nat; lia ].
    rewrite <- (length_app p ds).
    replace (length (p ++ ds) + 7)%nat
      with (length ((p ++ ds) ++ magic) + 0)%nat
      by (rewrite (length_app (p ++ ds) magic);
          change (length magic) with 7%nat; lia).
    rewrite (app_assoc (p ++ ds) magic).
    rewrite firstn_app_2. cbn [firstn]. rewrite app_nil_r.
    now rewrite <- app_assoc.
  - (* the device-id hash input *)
    f_equal. unfold sub, pad_to.
    rewrite skipn_app, skipn_all, Nat.sub_diag. cbn [skipn app].
    apply firstn_app_zeros; lia.
Qed.

(** [generate_key_hash] fails exactly when the password is longer than
    [MAX_PASS] or the device id has more than [devid_len + 1] digits. *)
Lemma generate_key_hash_code pass devid sp :
  0 <= MAX_PASS ->
  fst (generate_key_hash pass devid sp) =
  if (MAX_PASS <? strlen (opt_str pass))
     || (devid_len_of sp + 1 <? Z.of_nat (length (devid_digits devid sp)))
  then ERR_BAD_PASSWORD else ERR_NONE.
Proof.
  intros Hmax.
  destruct (Z.ltb_spec MAX_PASS (strlen (opt_str pass))) as [Hp|Hp].
  - cbn [orb]. unfold generate_key_hash, key_hash_input.
    destruct pass as [p|]; cbn [opt_str] in Hp.
    + rewrite strlen_opt_str in Hp.
      destruct (Z.ltb_spec MAX_PASS (strlen p)); [reflexivity | lia].
    + unfold strlen in Hp. cbn in Hp. lia.
  - cbn [orb].
    destruct (Z.ltb_spec (devid_len_of sp + 1)
                (Z.of_nat (length (devid_digits devid sp)))) as [Hd|Hd].
    + unfold generate_key_hash, key_hash_input.
      destruct devid as [dv|]; unfold devid_digits in Hd; cbn [opt_str] in Hd.
      * assert (Hloop : forall key pos,
                  devid_loop dv sp (if sp =? 0 then 32 else 40) 0 key pos
                  = None).
        { intros key pos.
          rewrite devid_loop_spec
            by (destruct (sp =? 0); lia).
          fold (devid_len_of sp).
          destruct (Z.ltb_spec (devid_len_of sp + 1)
                      (0 + Z.of_nat (length (filter (valid_digit sp)
                                               (c_str dv)))));
            [reflexivity | lia]. }
        destruct pass as [p|].
        -- destruct (MAX_PASS <? strlen p); [reflexivity|].
           now rewrite Hloop.
        -- now rewrite Hloop.
      * cbn in Hd. unfold devid_len_of in Hd. destruct (sp =? 0); lia.
    + now rewrite generate_key_hash_spec.
Qed.

(** C8, evaluated: with no password and a device id of 33 decimal digits
    (one more than [devid_len = 32]) [generate_key_hash] returns ERR_NONE:
    the test [len++ > devid_len] lets digit number [devid_len + 1]
    through. *)
Theorem generate_key_hash_accepts_33_digits :
  length (devid_digits (Some (repeat 49 33)) 0) = 33%nat
  /\ devid_len_of 0 = 32
  /\ fst (generate_key_hash None (Some (repeat 49 33)) 0) = ERR_NONE.
Proof.
  split; [reflexivity|]. split; [reflexivity|].
  unfold generate_key_hash, key_hash_input.
  rewrite devid_loop_spec by (cbn; lia). reflexivity.
Qed.

(** C3, as the code has it: for a password of at most [MAX_PASS] bytes
    and a device id with at most [devid_len] valid digits,
    [generate_key_hash] succeeds and [key_hash] is the MAC of the password
    bytes, followed directly by the kept digits (no zero padding), followed
    by the 7-byte magic suffix; the MAC therefore pads with the length
    password length + number of digits + 7.  The digits zero-padded to
    [devid_len] are the input of the device-id hash only. *)
Theorem generate_key_hash_mac_input (pass devid : option (list Z))
  (sp : Z) :
  0 <= MAX_PASS ->
  strlen (opt_str pass) <= MAX_PASS ->
  Z.of_nat (length (devid_digits devid sp)) <= devid_len_of sp ->
  generate_key_hash pass devid sp =
    (ERR_NONE,
     Some (securid_mac (opt_str pass ++ devid_digits devid sp ++ magic),
           securid_shortmac
             (pad_to (Z.to_nat (devid_len_of sp)) (devid_digits devid sp))))
  /\ length (opt_str pass ++ devid_digits devid sp ++ magic)
     = (length (opt_str pass) + length (devid_digits devid sp) + 7)%nat.
Proof.
  intros Hmax Hpass Hdigits. split.
  - now rewrite generate_key_hash_spec by (auto; lia).
  - rewrite !length_app. cbn. lia.
Qed.

(** With exactly [devid_len] digits the MAC input is the one of the
    spec. *)
Lemma key_buffer_full_devid pass devid sp :
  Z.of_nat (length (devid_digits devid sp)) = devid_len_of sp ->
  key_buffer pass devid sp = spec_key_buffer pass devid sp.
Proof.
  intros H. unfold key_buffer, spec_key_buffer, pad_to.
  do 2 f_equal. rewrite firstn_app.
  replace (Z.to_nat (devid_len_of sp)) with (length (devid_digits devid sp))
    by lia.
  rewrite firstn_all, Nat.sub_diag. cbn. now rewrite app_nil_r.
Qed.

(* ------------------------------------------------------------------ *)
(** ** Blocks                                                           *)
(* ------------------------------------------------------------------ *)

Lemma lxor_byte a b : is_byte a -> is_byte b -> is_byte (Z.lxor a b).
Proof.
  unfold is_byte. intros Ha Hb.
  assert (H : Z.lxor a b = (Z.lxor a b) mod 2 ^ 8).
  { apply Z.bits_inj'. intros k Hk.
    rewrite Z.testbit_mod_pow2, Z.lxor_spec by lia.
    destruct (Z.ltb_spec k 8); cbn [andb]; auto.
    now rewrite !byte_testbit_high by (unfold is_byte; auto; lia). }
  rewrite H. change (2 ^ 8) with 256. lia.
Qed.

Lemma is_block_xor_map (a b : list Z) :
  bytes a -> bytes b ->
  is_block (map (fun i => Z.lxor (nth i a 0) (nth i b 0)) (seq 0 16)).
Proof.
  intros Ha Hb. split.
  - now rewrite length_map, length_seq.
  - apply Forall_forall. intros x Hx.
    apply in_map_iff in Hx as (i & <- & _).
    apply lxor_byte; now apply bytes_nth.
Qed.

Lemma is_block_as_block l : is_block (as_block l).
Proof. split; [apply length_as_block | apply bytes_as_block]. Qed.

Lemma is_block_encrypt_then_xor key work :
  bytes work -> is_block (encrypt_then_xor key work).
Proof.
  intros Hw. unfold encrypt_then_xor.
  apply is_block_xor_map; auto. apply bytes_as_block.
Qed.

Lemma is_block_absorb blocks : forall work,
  is_block work -> is_block (absorb blocks work).
Proof.
  induction blocks as [|b blocks IH]; intros work Hw; cbn; auto.
  apply IH. apply is_block_encrypt_then_xor. apply Hw.
Qed.

Lemma is_block_securid_mac in_ : is_block (securid_mac in_).
Proof.
  rewrite securid_mac_blocks. unfold mac_finish.
  apply is_block_encrypt_then_xor.
  apply is_block_absorb. split; [reflexivity|].
  apply bytes_repeat. unfold is_byte; lia.
Qed.

Lemma securid_shortmac_range in_ : 0 <= securid_shortmac in_ < 2 ^ 15.
Proof.
  unfold securid_shortmac.
  destruct (is_block_securid_mac in_) as [_ Hb].
  pose proof (bytes_nth _ 0 Hb) as H0. pose proof (bytes_nth _ 1 Hb) as H1.
  set (h0 := nth 0 (securid_mac in_) 0) in *.
  set (h1 := nth 1 (securid_mac in_) 0) in *.
  unfold is_byte in *.
  assert (E : Z.lor (Z.shiftl h0 7) (Z.shiftr h1 1)
              = (Z.lor (Z.shiftl h0 7) (Z.shiftr h1 1)) mod 2 ^ 15).
  { apply Z.bits_inj'. intros k Hk.
    rewrite Z.testbit_mod_pow2, Z.lor_spec, Z.shiftl_spec, Z.shiftr_spec by lia.
    destruct (Z.ltb_spec k 15); cbn [andb]; auto.
    rewrite !byte_testbit_high by (unfold is_byte; auto; lia). reflexivity. }
  unfold u16. rewrite E.
  rewrite Z.mod_small.
  - change (2 ^ 15) with 32768. lia.
  - change (2 ^ 15) with 32768. change (2 ^ 16) with 65536. lia.
Qed.

(* ------------------------------------------------------------------ *)
(** ** Hex strings                                                      *)
(* ------------------------------------------------------------------ *)

Lemma forall_below (P : Z -> bool) n :
  forallb (fun i => P (Z.of_nat i)) (seq 0 n) = true ->
  forall b, 0 <= b < Z.of_nat n -> P b = true.
Proof.
  intros H b Hb. rewrite forallb_forall in H.
  specialize (H (Z.to_nat b)). rewrite Z2Nat.id in H by lia.
  apply H. apply in_seq. lia.
Qed.

Lemma hex2byte_two (a b : Z) rest :
  hex2byte (a :: b :: rest) = hex2byte [a; b].
Proof. reflexivity. Qed.

Lemma hex2byte_hex b rest :
  is_byte b ->
  hex2byte (hex_digit (b / 16) :: hex_digit (b mod 16) :: rest) = b.
Proof.
  intros Hb. rewrite hex2byte_two.
  apply Z.eqb_eq.
  apply (forall_below
           (fun b => hex2byte [hex_digit (b / 16); hex_digit (b mod 16)] =? b)
           256).
  - vm_compute. reflexivity.
  - exact Hb.
Qed.

Lemma hex_digit_lower n : 0 <= n < 16 -> lower_hex_char (hex_digit n).
Proof.
  intros H. unfold lower_hex_char, hex_digit.
  destruct (Z.ltb_spec n 10); lia.
Qed.

Lemma hex_of_lower l : bytes l -> Forall lower_hex_char (hex_of l).
Proof.
  intros Hl. unfold hex_of. apply Forall_forall. intros x Hx.
  apply in_flat_map in Hx as (i & _ & Hx).
  pose proof (bytes_nth l i Hl) as Hb. unfold is_byte in Hb.
  destruct Hx as [<-|[<-|[]]]; apply hex_digit_lower; lia.
Qed.

Lemma length_hex_of l : length (hex_of l) = 32%nat.
Proof. reflexivity. Qed.

Lemma hex2byte_hex_of l rest i :
  bytes l -> (i < 16)%nat ->
  hex2byte (skipn (i * 2) (hex_of l ++ rest)) = nth i l 0.
Proof.
  intros Hl Hi.
  do 16 (destruct i as [|i];
         [cbn [hex_of flat_map seq app skipn Nat.mul Nat.add];
          apply hex2byte_hex; now apply bytes_nth|]).
  lia.
Qed.

Lemma sprintf_hex_block (a b : list Z) :
  fold_left (fun ret i => write_at ret ((16 + i) * 2) (sprintf_02x (nth i b 0)))
    (seq 0 16)
    (fold_left (fun ret i => write_at ret (i * 2) (sprintf_02x (nth i a 0)))
       (seq 0 16) (repeat 0 65))
  = hex_of a ++ hex_of b ++ [0].
Proof. reflexivity. Qed.

(* ------------------------------------------------------------------ *)
(** ** PIN encryption                                                   *)
(* ------------------------------------------------------------------ *)

Lemma digit_char_nonzero l : Forall digit_char l -> Forall (fun c => c <> 0) l.
Proof.
  intros H. eapply Forall_impl; [|exact H]. unfold digit_char. intros; lia.
Qed.

Lemma lower_hex_nonzero l :
  Forall lower_hex_char l -> Forall (fun c => c <> 0) l.
Proof.
  intros H. eapply Forall_impl; [|exact H]. unfold lower_hex_char.
  intros; lia.
Qed.

Lemma forallb_isdigit l : Forall digit_char l -> forallb isdigit l = true.
Proof.
  intros H. apply forallb_forall. rewrite Forall_forall in H.
  intros c Hc. specialize (H c Hc). unfold digit_char in H. unfold isdigit.
  apply andb_true_iff. split; apply Z.leb_le; lia.
Qed.

Lemma securid_pin_format_ok_good buf rest pin_ :
  good_pin pin_ -> buf = pin_ ++ 0 :: rest ->
  securid_pin_format_ok buf = ERR_NONE.
Proof.
  intros [Hd Hl] ->. unfold securid_pin_format_ok, strlen, MIN_PIN, MAX_PIN.
  rewrite c_str_app_nul by now apply digit_char_nonzero.
  destruct (Z.ltb_spec (Z.of_nat (length pin_)) 4); [lia|].
  destruct (Z.ltb_spec 8 (Z.of_nat (length pin_))); [lia|].
  cbn [orb]. now rewrite forallb_isdigit.
Qed.

Lemma securid_pin_format_ok_pin pin_ :
  good_pin pin_ -> securid_pin_format_ok pin_ = ERR_NONE.
Proof.
  intros [Hd Hl]. unfold securid_pin_format_ok, strlen, MIN_PIN, MAX_PIN.
  rewrite c_str_nonzero by now apply digit_char_nonzero.
  destruct (Z.ltb_spec (Z.of_nat (length pin_)) 4); [lia|].
  destruct (Z.ltb_spec 8 (Z.of_nat (length pin_))); [lia|].
  cbn [orb]. now rewrite forallb_isdigit.
Qed.

(** The cleartext block of [securid_encrypt_pin]: the PIN, zero bytes, and
    the length of the PIN in the last byte. *)
Lemma pin_block_shape pin_ :
  good_pin pin_ ->
  upd 15 (u8 (strlen pin_)) (write_at (repeat 0 16) 0 (c_str pin_ ++ [0]))
  = pin_ ++ 0 :: upd (14 - length pin_) (Z.of_nat (length pin_))
                   (repeat 0 (15 - length pin_)).
Proof.
  intros [Hd Hl]. unfold strlen.
  rewrite c_str_nonzero by now apply digit_char_nonzero.
  rewrite u8_small by (unfold is_byte; lia).
  rewrite write_at_0 by (rewrite length_app, repeat_length; cbn; lia).
  rewrite skipn_repeat, length_app. cbn [length].
  rewrite upd_app_r by (rewrite length_app; cbn; lia).
  rewrite length_app. cbn [length].
  rewrite <- app_assoc. cbn [app].
  replace (15 - (length pin_ + 1))%nat with (14 - length pin_)%nat by lia.
  replace (16 - (length pin_ + 1))%nat with (15 - length pin_)%nat by lia.
  reflexivity.
Qed.

Lemma pin_block_facts pin_ rest :
  good_pin pin_ ->
  rest = upd (14 - length pin_) (Z.of_nat (length pin_))
           (repeat 0 (15 - length pin_)) ->
  is_block (pin_ ++ 0 :: rest)
  /\ nth 14 (pin_ ++ 0 :: rest) 0 = 0
  /\ nth 15 (pin_ ++ 0 :: rest) 0 = Z.of_nat (length pin_).
Proof.
  intros [Hd Hl] ->. split; [split|split].
  - rewrite length_app. cbn [length]. rewrite length_upd, repeat_length. lia.
  - apply bytes_app.
    + eapply Forall_impl; [|exact Hd]. unfold digit_char, is_byte.
      intros; lia.
    + constructor; [unfold is_byte; lia|].
      apply bytes_upd; [apply bytes_repeat|]; unfold is_byte; lia.
  - rewrite app_nth2 by lia.
    replace (14 - length pin_)%nat with (S (13 - length pin_)) by lia.
    cbn [nth]. rewrite nth_upd_other by lia. apply nth_repeat.
  - rewrite app_nth2 by lia.
    replace (15 - length pin_)%nat with (S (14 - length pin_)) by lia.
    cbn [nth]. apply nth_upd_same. rewrite repeat_length. lia.
Qed.

Lemma xor_map_involutive (a b : list Z) :
  length a = 16%nat ->
  map (fun i =>
         Z.lxor (nth i (map (fun i => Z.lxor (nth i a 0) (nth i b 0))
                          (seq 0 16)) 0)
           (nth i b 0)) (seq 0 16)
  = a.
Proof.
  intros Ha. transitivity (map (fun i => nth i a 0) (seq 0 16)).
  - apply map_ext_in. intros i Hi. apply in_seq in Hi.
    rewrite nth_map_seq by lia.
    now rewrite Z.lxor_assoc, Z.lxor_nilpotent, Z.lxor_0_r.
  - now apply map_seq_nth_id.
Qed.

Lemma hex2byte_first_block a rest :
  is_block a ->
  map (fun i => hex2byte (skipn (i * 2) (hex_of a ++ rest))) (seq 0 16) = a.
Proof.
  intros [Hlen Hb]. transitivity (map (fun i => nth i a 0) (seq 0 16)).
  - apply map_ext_in. intros i Hi. apply in_seq in Hi.
    apply hex2byte_hex_of; auto. lia.
  - now apply map_seq_nth_id.
Qed.

Lemma hex2byte_second_block a b rest :
  is_block b ->
  map (fun i => hex2byte (skipn ((i + 16) * 2) (hex_of a ++ hex_of b ++ rest)))
    (seq 0 16) = b.
Proof.
  intros Hb.
  transitivity
    (map (fun i => hex2byte (skipn (i * 2) (hex_of b ++ rest))) (seq 0 16));
    [|now apply hex2byte_first_block].
  apply map_ext. intros i.
  rewrite skipn_app, length_hex_of.
  rewrite skipn_all2 by (rewrite length_hex_of; lia).
  cbn [app]. do 2 f_equal. lia.
Qed.

(** C6: provided decryption undoes encryption on 16-byte blocks, for every
    PIN of 4 to 8 decimal digits, every password and every random IV,
    [securid_encrypt_pin] returns 64 lowercase hex characters, the 32 of
    the IV followed by the 32 of a ciphertext block, and the terminator;
    and [securid_decrypt_pin] on that string with the same password returns
    ERR_NONE and leaves the PIN, terminator included, at the start of the
    output buffer. *)
Theorem pin_encrypt_decrypt (pin_ password iv pin_buf : list Z) :
  rijndael_inverse ->
  good_pin pin_ ->
  (length pin_ < length pin_buf)%nat ->
  exists ct,
    let hex := hex_of (as_block iv) ++ hex_of ct in
    is_block ct
    /\ securid_encrypt_pin pin_ password (Some iv) = Some (hex ++ [0])
    /\ length hex = 64%nat
    /\ Forall lower_hex_char hex
    /\ securid_decrypt_pin (hex ++ [0]) password pin_buf
       = (ERR_NONE, pin_ ++ 0 :: skipn (S (length pin_)) pin_buf).
Proof.
  intros Hinv Hpin Hroom.
  set (passhash := securid_mac (c_str password)).
  set (rest := upd (14 - length pin_) (Z.of_nat (length pin_))
                 (repeat 0 (15 - length pin_))).
  set (blk := pin_ ++ 0 :: rest).
  destruct (pin_block_facts pin_ rest Hpin eq_refl) as (Hblk & H14 & H15).
  fold blk in Hblk, H14, H15.
  set (x := map (fun i => Z.lxor (nth i blk 0) (nth i (as_block iv) 0))
              (seq 0 16)).
  assert (Hx : is_block x).
  { apply is_block_xor_map; [apply Hblk | apply bytes_as_block]. }
  set (ct := aes128_ecb_encrypt passhash x).
  assert (Hct : is_block ct) by apply is_block_as_block.
  exists ct. cbv zeta.
  assert (Hhex : Forall lower_hex_char (hex_of (as_block iv) ++ hex_of ct)).
  { apply Forall_app. split; apply hex_of_lower;
      [apply bytes_as_block | apply Hct]. }
  split; [exact Hct|]. split; [|split; [|split]].
  - unfold securid_encrypt_pin.
    rewrite securid_pin_format_ok_pin by auto. cbn [error_eqb negb].
    rewrite pin_block_shape by auto. fold rest blk x passhash ct.
    rewrite sprintf_hex_block. now rewrite <- app_assoc.
  - reflexivity.
  - exact Hhex.
  - unfold securid_decrypt_pin.
    assert (Hlen : strlen ((hex_of (as_block iv) ++ hex_of ct) ++ [0])
                   = AES_BLOCK_SIZE * 2 * 2).
    { unfold strlen. rewrite c_str_app_nul by now apply lower_hex_nonzero.
      reflexivity. }
    rewrite Hlen, Z.eqb_refl. cbn [negb].
    rewrite <- app_assoc.
    rewrite hex2byte_first_block by apply is_block_as_block.
    rewrite hex2byte_second_block by exact Hct.
    fold passhash. unfold ct.
    rewrite Hinv by (auto; apply is_block_securid_mac).
    unfold x. rewrite xor_map_involutive by apply Hblk.
    assert (Hstr : c_str blk = pin_).
    { unfold blk. apply c_str_app_nul. apply digit_char_nonzero, Hpin. }
    unfold strlen. rewrite H14, H15, Hstr, !Z.eqb_refl. cbn [negb orb].
    rewrite (securid_pin_format_ok_good blk rest pin_) by auto.
    cbn [error_eqb negb]. f_equal.
    rewrite write_at_0 by (rewrite length_app; cbn; lia).
    rewrite <- app_assoc, length_app. cbn [app length].
    do 3 f_equal. lia.
Qed.

(* ------------------------------------------------------------------ *)
(** ** What the failing paths leave behind                              *)
(* ------------------------------------------------------------------ *)

(** [generate_key_hash] either fails with ERR_BAD_PASSWORD and no output,
    or succeeds with a MAC and a short MAC. *)
Lemma generate_key_hash_cases pass devid sp :
  generate_key_hash pass devid sp = (ERR_BAD_PASSWORD, None)
  \/ exists in1 in2,
       generate_key_hash pass devid sp
       = (ERR_NONE, Some (securid_mac in1, securid_shortmac in2)).
Proof.
  unfold generate_key_hash.
  destruct (key_hash_input pass devid sp) as [[[key devid_buf] pos]|].
  - right. eauto.
  - now left.
Qed.


(* ------------------------------------------------------------------ *)
(** ** Token strings: encode, then decode                               *)
(* ------------------------------------------------------------------ *)

Lemma bit_firstn n l g :
  0 <= g < 8 * Z.of_nat n -> bit (firstn n l) g = bit l g.
Proof.
  intros H. unfold bit. rewrite nth_firstn.
  destruct (Nat.ltb_spec (Z.to_nat (g / 8)) n); [reflexivity | lia].
Qed.

Lemma bit_app_l a b g :
  0 <= g < 8 * Z.of_nat (length a) -> bit (a ++ b) g = bit a g.
Proof. intros H. unfold bit. now rewrite app_nth1 by lia. Qed.

Lemma get_bits_field buf start n v :
  0 <= start -> (n <= 32)%nat ->
  (forall g, start <= g < start + Z.of_nat n ->
             bit buf g = Z.testbit v (start + Z.of_nat n - 1 - g)) ->
  get_bits buf start (Z.of_nat n) = v mod 2 ^ Z.of_nat n.
Proof.
  intros Hs Hn H. rewrite get_bits_spec by auto.
  rewrite <- (bits_val_testbit v n (Z.of_nat n - 1)) by reflexivity.
  apply bits_val_ext. intros j Hj. rewrite H by lia. f_equal; lia.
Qed.

Lemma get_bits_field_Z buf start n v :
  0 <= start -> 0 <= n <= 32 ->
  (forall g, start <= g < start + n ->
             bit buf g = Z.testbit v (start + n - 1 - g)) ->
  get_bits buf start n = v mod 2 ^ n.
Proof.
  intros Hs Hn H. rewrite <- (Z2Nat.id n) by lia.
  apply get_bits_field; auto; try lia.
  intros g Hg. rewrite Z2Nat.id in * by lia. now apply H.
Qed.

(** Unpacking the digits that [bits_to_numoutput] wrote gives back the
    bits. *)
Lemma numinput_of_numoutput_bits b out n s :
  bytes b -> bytes out ->
  (3 * Z.of_nat n + 7) / 8 + 1 <= Z.of_nat (length out) ->
  (forall k, (k < n)%nat ->
             nth k s 0 = nth k (bits_to_numoutput b (3 * Z.of_nat n)) 0) ->
  length (numinput_to_bits s out (3 * Z.of_nat n)) = length out
  /\ bytes (numinput_to_bits s out (3 * Z.of_nat n))
  /\ forall g, 0 <= g < 3 * Z.of_nat n ->
       bit (numinput_to_bits s out (3 * Z.of_nat n)) g = bit b g.
Proof.
  intros Hb Hout Hlen Hs.
  destruct (numinput_to_bits_spec s out n Hout Hlen) as (L & B & G).
  destruct (bits_to_numoutput_spec b n Hb) as (_ & _ & K).
  split; [exact L|]. split; [exact B|].
  intros g Hg. rewrite G by auto.
  rewrite Hs, K by lia.
  replace (48 + bits_val (fun j => bit b (3 * Z.of_nat (Z.to_nat (g / 3)) + j)) 3
           - 48)
    with (bits_val (fun j => bit b (3 * Z.of_nat (Z.to_nat (g / 3)) + j)) 3)
    by lia.
  rewrite testbit_bits_val by lia. change (Z.of_nat 3) with 3.
  destruct (Z.ltb_spec (2 - g mod 3) 3); [|lia]. cbn [andb].
  f_equal. lia.
Qed.

Lemma list_snoc_zero (l : list Z) n :
  length l = S n -> nth n l 0 = 0 -> l = firstn n l ++ [0].
Proof.
  intros Hl Hn. rewrite <- (firstn_skipn n l) at 1. f_equal.
  assert (Hs : length (skipn n l) = 1%nat) by (rewrite length_skipn; lia).
  destruct (skipn n l) as [|x [|y r]] eqn:E; cbn in Hs; try lia.
  f_equal. rewrite <- Hn.
  rewrite <- (Nat.add_0_r n), <- nth_skipn, E. reflexivity.
Qed.

Lemma Forall_nth_Z (P : Z -> Prop) (l : list Z) :
  (forall k, (k < length l)%nat -> P (nth k l 0)) -> Forall P l.
Proof.
  intros H. apply Forall_forall. intros x Hx.
  apply (In_nth l x 0) in Hx as (k & Hk & <-). now apply H.
Qed.

(** The digits [bits_to_numoutput] writes: [n] octal characters. *)
Lemma numoutput_digits b n :
  bytes b ->
  bits_to_numoutput b (3 * Z.of_nat n)
  = firstn n (bits_to_numoutput b (3 * Z.of_nat n)) ++ [0]
  /\ length (firstn n (bits_to_numoutput b (3 * Z.of_nat n))) = n
  /\ Forall octal_char (firstn n (bits_to_numoutput b (3 * Z.of_nat n))).
Proof.
  intros Hb. destruct (bits_to_numoutput_spec b n Hb) as (L & Z0 & K).
  split; [now apply list_snoc_zero|].
  assert (Lf : length (firstn n (bits_to_numoutput b (3 * Z.of_nat n))) = n)
    by (rewrite length_firstn; lia).
  split; [exact Lf|].
  apply Forall_nth_Z. intros k Hk. rewrite Lf in Hk.
  rewrite nth_firstn. destruct (Nat.ltb_spec k n); [|lia].
  now apply bits_to_numoutput_octal.
Qed.

Lemma octal_nonzero l : Forall octal_char l -> Forall (fun c => c <> 0) l.
Proof.
  intros H. eapply Forall_impl; [|exact H]. unfold octal_char. intros; lia.
Qed.

(** Decides a test [lo <= g < hi] in the goal from the hypotheses. *)
Ltac range_cond :=
  match goal with
  | |- context [(?a <=? ?g) && (?g <? ?b)] =>
      first
        [ replace ((a <=? g) && (g <? b)) with true
            by (symmetry; apply andb_true_iff; split;
                [apply Z.leb_le | apply Z.ltb_lt]; lia)
        | replace ((a <=? g) && (g <? b)) with false
            by (symmetry; apply andb_false_iff;
                first [left; apply Z.leb_gt; lia
                      | right; apply Z.ltb_ge; lia]) ]
  end.

(** The bits of the buffer [d] that [securid_encode_token] fills. *)
Lemma encode_d_bits (seed : list Z) (F E H I : Z) (N : nat) :
  is_block seed -> (25 <= N)%nat ->
  let d := write_at (repeat 0 N) 0 seed in
  let d := set_bits d 128 16 F in
  let d := set_bits d 144 14 E in
  let d := set_bits d 159 15 H in
  let d := set_bits d 174 15 I in
  length d = N /\ bytes d
  /\ (forall g, 0 <= g < 128 -> bit d g = bit seed g)
  /\ (forall g, 128 <= g < 144 -> bit d g = Z.testbit F (143 - g))
  /\ (forall g, 144 <= g < 158 -> bit d g = Z.testbit E (157 - g))
  /\ (forall g, 159 <= g < 174 -> bit d g = Z.testbit H (173 - g))
  /\ (forall g, 174 <= g < 189 -> bit d g = Z.testbit I (188 - g)).
Proof.
  intros [Hlen Hb] HN. cbv zeta.
  set (d1 := write_at (repeat 0 N) 0 seed).
  assert (L1 : length d1 = N) by (unfold d1; now rewrite length_write_at, repeat_length).
  assert (B1 : bytes d1).
  { unfold d1. apply bytes_write_at; auto. apply bytes_repeat.
    unfold is_byte; lia. }
  assert (G1 : forall g, 0 <= g < 128 -> bit d1 g = bit seed g).
  { intros g Hg. unfold d1.
    rewrite write_at_0 by (rewrite repeat_length; lia).
    apply bit_app_l. lia. }
  destruct (set_bits_spec d1 128 16 F) as (L2 & B2 & G2); auto; try lia.
  change (Z.of_nat 16) with 16 in *. set (d2 := set_bits d1 128 16 F) in *.
  destruct (set_bits_spec d2 144 14 E) as (L3 & B3 & G3); auto; try lia.
  change (Z.of_nat 14) with 14 in *. set (d3 := set_bits d2 144 14 E) in *.
  destruct (set_bits_spec d3 159 15 H) as (L4 & B4 & G4); auto; try lia.
  change (Z.of_nat 15) with 15 in *. set (d4 := set_bits d3 159 15 H) in *.
  destruct (set_bits_spec d4 174 15 I) as (L5 & B5 & G5); auto; try lia.
  change (Z.of_nat 15) with 15 in *. set (d5 := set_bits d4 174 15 I) in *.
  split; [lia|]. split; [exact B5|].
  repeat split; intros g Hg;
    rewrite G5 by lia; range_cond;
    try (rewrite G4 by lia; range_cond);
    try (rewrite G3 by lia; range_cond);
    try (rewrite G2 by lia; range_cond);
    auto; f_equal; lia.
Qed.

Lemma firstn_exact (a b : list Z) : firstn (length a) (a ++ b) = a.
Proof.
  rewrite firstn_app, firstn_all, Nat.sub_diag. cbn. apply app_nil_r.
Qed.

Lemma skipn_exact (a b : list Z) : skipn (length a) (a ++ b) = b.
Proof.
  rewrite skipn_app, skipn_all, Nat.sub_diag. reflexivity.
Qed.

Lemma encode_d_spec (newt : securid_token) :
  is_block (enc_seed newt) -> (25 <= sizeof_d)%nat ->
  length (encode_d newt) = sizeof_d /\ bytes (encode_d newt)
  /\ (forall g, 0 <= g < 128 -> bit (encode_d newt) g = bit (enc_seed newt) g)
  /\ (forall g, 128 <= g < 144 ->
        bit (encode_d newt) g = Z.testbit (flags newt) (143 - g))
  /\ (forall g, 144 <= g < 158 ->
        bit (encode_d newt) g = Z.testbit (exp_date newt) (157 - g))
  /\ (forall g, 159 <= g < 174 ->
        bit (encode_d newt) g =
        Z.testbit (securid_shortmac (firstn 16 (dec_seed newt))) (173 - g))
  /\ (forall g, 174 <= g < 189 ->
        bit (encode_d newt) g = Z.testbit (device_id_hash newt) (188 - g)).
Proof.
  intros Hseed Hsz. unfold encode_d.
  change (Z.to_nat AES_KEY_SIZE) with 16%nat.
  rewrite (firstn_all2 (n := 16) (enc_seed newt)) by (destruct Hseed; lia).
  now apply encode_d_bits.
Qed.

(** The contents of [out] after [securid_encode_token]: ["2"], the serial,
    63 + 5 digits, the terminator; the rest of the buffer is untouched. *)
Lemma encode_emit_shape (newt : securid_token) (out digits : list Z) :
  serial newt = digits ++ [0] -> length digits = 12%nat ->
  Forall digit_char digits ->
  is_block (enc_seed newt) -> (25 <= sizeof_d)%nat ->
  (82 <= length out)%nat ->
  encode_emit newt out =
  ([50] ++ digits ++ binenc_digits newt ++ checksum_digits newt digits)
  ++ 0 :: skipn 82 out.
Proof.
  intros Hser Hlen Hdig Hseed Hsz Hout.
  destruct (encode_d_spec newt Hseed Hsz) as (Ld & Bd & _).
  unfold encode_emit, checksum_digits, binenc_digits. cbv zeta.
  rewrite Hser.
  replace (digits ++ [0]) with (digits ++ 0 :: []) by reflexivity.
  rewrite c_str_app_nul by now apply digit_char_nonzero.
  change (Z.to_nat BINENC_OFS) with 13%nat.
  change (Z.to_nat CHECKSUM_OFS) with 76%nat.
  change BINENC_BITS with (3 * Z.of_nat 63).
  change CHECKSUM_BITS with (3 * Z.of_nat 5).
  destruct (numoutput_digits (encode_d newt) 63 Bd) as (E1 & L1 & _).
  set (N1 := firstn 63 (bits_to_numoutput (encode_d newt) (3 * Z.of_nat 63)))
    in *.
  rewrite E1. clear E1.
  (* sprintf(out, "2%s", newt.serial) *)
  rewrite write_at_0 by (cbn [length app]; rewrite length_app; cbn; lia).
  (* the binary part *)
  replace (([50] ++ digits ++ 0 :: []) ++
           skipn (length ([50] ++ digits ++ 0 :: [])) out)
    with (([50] ++ digits) ++ 0 :: skipn 14 out).
  2:{ rewrite <- !app_assoc. cbn [app]. do 3 f_equal.
      cbn [length]. rewrite length_app, Hlen. reflexivity. }
  rewrite write_at_app.
  2:{ cbn [length app]. rewrite Hlen. reflexivity. }
  2:{ rewrite length_app, L1. cbn [length]. rewrite length_skipn. lia. }
  rewrite length_app, L1.
  replace (skipn (63 + length [0]) (0 :: skipn 14 out))
    with (skipn 77 out).
  2:{ change (skipn (63 + length [0]) (0 :: skipn 14 out))
        with (skipn 63 (skipn 14 out)).
      now rewrite skipn_skipn. }
  (* the checksum *)
  assert (F76 : firstn 76 (([50] ++ digits) ++ (N1 ++ [0]) ++ skipn 77 out)
                = [50] ++ digits ++ N1).
  { replace (([50] ++ digits) ++ (N1 ++ [0]) ++ skipn 77 out)
      with (([50] ++ digits ++ N1) ++ [0] ++ skipn 77 out)
      by (now rewrite <- !app_assoc).
    replace 76%nat with (length ([50] ++ digits ++ N1)).
    - apply firstn_exact.
    - cbn [length app]. rewrite length_app, Hlen, L1. reflexivity. }
  rewrite F76.
  set (mac := securid_shortmac ([50] ++ digits ++ N1)).
  assert (BM : bytes (set_bits (encode_d newt) 0 15 mac)).
  { destruct (set_bits_spec (encode_d newt) 0 15 mac) as (_ & B & _);
      auto; lia. }
  destruct (numoutput_digits _ 5 BM) as (E2 & L2 & _).
  set (N2 := firstn 5 (bits_to_numoutput (set_bits (encode_d newt) 0 15 mac)
                         (3 * Z.of_nat 5))) in *.
  rewrite E2. clear E2.
  replace (([50] ++ digits) ++ (N1 ++ [0]) ++ skipn 77 out)
    with (([50] ++ digits ++ N1) ++ 0 :: skipn 77 out)
    by (now rewrite <- !app_assoc).
  rewrite write_at_app.
  2:{ cbn [length app]. rewrite length_app, Hlen, L1. reflexivity. }
  2:{ rewrite length_app, L2. cbn [length]. rewrite length_skipn. lia. }
  rewrite length_app, L2.
  replace (skipn (5 + length [0]) (0 :: skipn 77 out)) with (skipn 82 out).
  2:{ change (skipn (5 + length [0]) (0 :: skipn 77 out))
        with (skipn 5 (skipn 77 out)).
      now rewrite skipn_skipn. }
  rewrite <- !app_assoc. reflexivity.
Qed.

Lemma u16_small x : 0 <= x < 2 ^ 16 -> u16 x = x.
Proof. intros. unfold u16. now apply Z.mod_small. Qed.

(** Decoding the string that [securid_encode_token] writes for [newt]. *)
Lemma decode_encoded (newt : securid_token) (digits d : list Z)
  (tout : securid_token) :
  serial newt = digits ++ [0] -> length digits = 12%nat ->
  Forall digit_char digits ->
  is_block (enc_seed newt) ->
  0 <= flags newt < 2 ^ 16 ->
  0 <= exp_date newt < 2 ^ 14 ->
  0 <= device_id_hash newt < 2 ^ 15 ->
  MIN_TOKEN_CHARS <= 81 <= MAX_TOKEN_CHARS ->
  (25 <= sizeof_d)%nat -> bytes d -> length d = sizeof_d ->
  let s := [50] ++ digits ++ binenc_digits newt
           ++ checksum_digits newt digits in
  let r := securid_decode_token s d tout in
  fst r = ERR_NONE
  /\ serial (snd r) = serial newt
  /\ enc_seed (snd r) = enc_seed newt
  /\ flags (snd r) = flags newt
  /\ exp_date (snd r) = exp_date newt
  /\ dec_seed_hash (snd r) = securid_shortmac (firstn 16 (dec_seed newt))
  /\ device_id_hash (snd r) = device_id_hash newt.
Proof.
  intros Hser Hlen Hdig Hseed HF HE HI Hchars Hsz Hd Ld.
  destruct (encode_d_spec newt Hseed Hsz)
    as (Le & Be & Gseed & GF & GE & GH & GI).
  (* the digits of the binary part *)
  pose proof (numoutput_digits (encode_d newt) 63 Be) as (_ & L1 & O1).
  change (3 * Z.of_nat 63) with BINENC_BITS in L1, O1.
  fold (binenc_digits newt) in L1, O1.
  assert (K1 : forall k, (k < 63)%nat ->
             nth k (binenc_digits newt) 0
             = nth k (bits_to_numoutput (encode_d newt) (3 * Z.of_nat 63)) 0).
  { intros k Hk. unfold binenc_digits. rewrite nth_firstn.
    destruct (Nat.ltb_spec k 63); [reflexivity | lia]. }
  set (N1 := binenc_digits newt) in *.
  (* the digits of the checksum *)
  set (mac := securid_shortmac ([50] ++ digits ++ N1)).
  pose proof (securid_shortmac_range ([50] ++ digits ++ N1)) as Rmac.
  fold mac in Rmac.
  destruct (set_bits_spec (encode_d newt) 0 15 mac) as (LM & BM & GM);
    auto; try lia.
  change (Z.of_nat 15) with 15 in *.
  set (dM := set_bits (encode_d newt) 0 15 mac) in *.
  pose proof (numoutput_digits dM 5 BM) as (_ & L2 & O2).
  change (3 * Z.of_nat 5) with CHECKSUM_BITS in L2, O2.
  assert (K2 : forall k, (k < 5)%nat ->
             nth k (checksum_digits newt digits) 0
             = nth k (bits_to_numoutput dM (3 * Z.of_nat 5)) 0).
  { intros k Hk. unfold checksum_digits. rewrite nth_firstn.
    destruct (Nat.ltb_spec k 5); [reflexivity | lia]. }
  assert (E2 : checksum_digits newt digits
               = firstn 5 (bits_to_numoutput dM CHECKSUM_BITS))
    by reflexivity.
  rewrite <- E2 in L2, O2. clear E2.
  set (N2 := checksum_digits newt digits) in *.
  (* the string *)
  cbv zeta. set (s := [50] ++ digits ++ N1 ++ N2).
  assert (Hnz : Forall (fun c => c <> 0) s).
  { unfold s. apply Forall_app. split; [constructor; [lia | constructor]|].
    apply Forall_app. split; [now apply digit_char_nonzero|].
    apply Forall_app. split; now apply octal_nonzero. }
  assert (Hstrlen : strlen s = 81).
  { unfold strlen. rewrite c_str_nonzero by exact Hnz.
    unfold s. rewrite !length_app, Hlen, L1, L2. reflexivity. }
  assert (Hf76 : firstn 76 s = [50] ++ digits ++ N1).
  { unfold s. replace ([50] ++ digits ++ N1 ++ N2)
      with (([50] ++ digits ++ N1) ++ N2) by (now rewrite <- !app_assoc).
    replace 76%nat with (length ([50] ++ digits ++ N1))
      by (rewrite !length_app, Hlen, L1; reflexivity).
    apply firstn_exact. }
  assert (Hs76 : skipn 76 s = N2).
  { unfold s. replace ([50] ++ digits ++ N1 ++ N2)
      with (([50] ++ digits ++ N1) ++ N2) by (now rewrite <- !app_assoc).
    replace 76%nat with (length ([50] ++ digits ++ N1))
      by (rewrite !length_app, Hlen, L1; reflexivity).
    apply skipn_exact. }
  assert (Hs13 : skipn 13 s = N1 ++ N2).
  { unfold s. replace ([50] ++ digits ++ N1 ++ N2)
      with (([50] ++ digits) ++ N1 ++ N2) by (now rewrite <- !app_assoc).
    replace 13%nat with (length ([50] ++ digits))
      by (rewrite !length_app, Hlen; reflexivity).
    apply skipn_exact. }
  assert (Hsub : sub s 1 12 = digits).
  { unfold sub, s. cbn [app skipn]. rewrite <- Hlen. apply firstn_exact. }
  (* the checksum test *)
  destruct (numinput_of_numoutput_bits dM d 5 N2 BM Hd) as (La & Ba & Ga);
    [ change ((3 * Z.of_nat 5 + 7) / 8 + 1) with 3; lia | exact K2 | ].
  change (3 * Z.of_nat 5) with 15 in *.
  set (da := numinput_to_bits N2 d 15) in *.
  assert (Hmac : u16 (get_bits da 0 15) = mac).
  { rewrite (get_bits_field_Z da 0 15 mac) by
      (try lia; intros g Hg; rewrite Ga, GM by lia; range_cond;
       f_equal; lia).
    rewrite Z.mod_small by lia. apply u16_small.
    change (2 ^ 16) with 65536. change (2 ^ 15) with 32768 in Rmac. lia. }
  (* the binary part *)
  destruct (numinput_of_numoutput_bits (encode_d newt) da 63 (N1 ++ N2)
              Be Ba) as (Lb & Bb & Gb).
  { change ((3 * Z.of_nat 63 + 7) / 8 + 1) with 25. lia. }
  { intros k Hk. rewrite app_nth1 by lia. now apply K1. }
  change (3 * Z.of_nat 63) with 189 in *.
  set (db := numinput_to_bits (N1 ++ N2) da 189) in *.
  (* running the decoder *)
  unfold securid_decode_token. rewrite Hstrlen.
  destruct (Z.ltb_spec 81 MIN_TOKEN_CHARS); [lia|].
  destruct (Z.ltb_spec MAX_TOKEN_CHARS 81); [lia|].
  cbn [orb].
  change (nth 0 s 0) with 50.
  change (negb (50 =? 49) && negb (50 =? 50)) with false. cbv iota.
  change (Z.to_nat (81 - CHECKSUM_CHARS)) with 76%nat.
  change (Z.to_nat BINENC_OFS) with 13%nat.
  change (Z.to_nat VER_CHARS) with 1%nat.
  change (Z.to_nat SERIAL_CHARS) with 12%nat.
  change (Z.to_nat AES_KEY_SIZE) with 16%nat.
  change BINENC_BITS with 189.
  rewrite Hs76, Hf76, Hs13, Hsub. fold mac da db.
  rewrite Hmac, Z.eqb_refl. cbn [negb].
  cbn [fst snd serial flags exp_date enc_seed dec_seed_hash device_id_hash
       set_serial set_enc_seed set_has_enc_seed set_flags set_exp_date
       set_dec_seed_hash set_device_id_hash token_zero].
  split; [reflexivity|].
  split; [|split; [|split; [|split; [|split]]]].
  - (* serial *)
    rewrite write_at_0 by (rewrite repeat_length; lia).
    rewrite Hlen. change (skipn 12 (repeat 0 13)) with [0].
    rewrite upd_app_r by lia. rewrite Hlen, Hser. reflexivity.
  - (* enc_seed *)
    rewrite write_at_0 by (rewrite length_firstn, repeat_length; lia).
    rewrite length_firstn, Lb, La, Ld, Nat.min_l by lia.
    change (skipn 16 (repeat 0 16)) with (@nil Z). rewrite app_nil_r.
    destruct Hseed as [Ls Bs].
    apply bit_ext_bytes.
    + rewrite length_firstn. lia.
    + now apply bytes_firstn.
    + exact Bs.
    + intros g Hg. rewrite length_firstn, Lb, La, Ld, Nat.min_l in Hg by lia.
      rewrite bit_firstn, Gb, Gseed by lia. reflexivity.
  - (* flags *)
    rewrite (get_bits_field_Z db 128 16 (flags newt)) by
      (try lia; intros g Hg; rewrite Gb, GF by lia; f_equal; lia).
    rewrite Z.mod_small by lia. now apply u16_small.
  - (* exp_date *)
    rewrite (get_bits_field_Z db 144 14 (exp_date newt)) by
      (try lia; intros g Hg; rewrite Gb, GE by lia; f_equal; lia).
    rewrite Z.mod_small by lia. apply u16_small.
    change (2 ^ 16) with 65536. change (2 ^ 14) with 16384 in HE. lia.
  - (* dec_seed_hash *)
    pose proof (securid_shortmac_range (firstn 16 (dec_seed newt))) as R.
    rewrite (get_bits_field_Z db 159 15
               (securid_shortmac (firstn 16 (dec_seed newt)))) by
      (try lia; intros g Hg; rewrite Gb, GH by lia; f_equal; lia).
    rewrite Z.mod_small by lia. apply u16_small.
    change (2 ^ 16) with 65536. change (2 ^ 15) with 32768 in R. lia.
  - (* device_id_hash *)
    rewrite (get_bits_field_Z db 174 15 (device_id_hash newt)) by
      (try lia; intros g Hg; rewrite Gb, GI by lia; f_equal; lia).
    rewrite Z.mod_small by lia. apply u16_small.
    change (2 ^ 16) with 65536. change (2 ^ 15) with 32768 in HI. lia.
Qed.

Lemma encode_newt_fields (t : securid_token) (pass devid : option (list Z))
  (kh : list Z) (ih : Z) :
  serial (encode_newt t pass devid kh ih) = serial t
  /\ exp_date (encode_newt t pass devid kh ih) = exp_date t
  /\ dec_seed (encode_newt t pass devid kh ih) = dec_seed t
  /\ dec_seed_hash (encode_newt t pass devid kh ih) = dec_seed_hash t
  /\ device_id_hash (encode_newt t pass devid kh ih) = ih
  /\ enc_seed (encode_newt t pass devid kh ih)
     = aes128_ecb_encrypt kh (dec_seed t)
  /\ 0 <= flags (encode_newt t pass devid kh ih) < 2 ^ 16.
Proof.
  unfold encode_newt.
  destruct (is_null pass), (is_null devid); cbn;
    (split; [reflexivity|]); (split; [reflexivity|]);
    (split; [reflexivity|]); (split; [reflexivity|]);
    (split; [reflexivity|]); (split; [reflexivity|]);
    unfold u16; apply Z.mod_pos_bound; reflexivity.
Qed.


(* ------------------------------------------------------------------ *)
(** ** Bit fields and digit strings, further properties                 *)
(* ------------------------------------------------------------------ *)

Lemma bits_val_app f n m :
  bits_val f (n + m) =
  bits_val f n * 2 ^ Z.of_nat m
  + bits_val (fun j => f (Z.of_nat n + j)) m.
Proof.
  induction m as [|m IH].
  - rewrite Nat.add_0_r. cbn [bits_val]. change (2 ^ Z.of_nat 0) with 1. lia.
  - rewrite Nat.add_succ_r. cbn [bits_val]. rewrite IH.
    rewrite Nat2Z.inj_succ, Z.pow_succ_r by lia.
    rewrite Nat2Z.inj_add. lia.
Qed.

(** X1: A field written by [set_bits] is read back by [get_bits]: the value,
    reduced to the width of the field. *)
Theorem set_bits_then_get_bits (out : list Z) (start n_bits val : Z) :
  bytes out -> 0 <= start -> 0 < n_bits <= 32 ->
  start + n_bits <= 8 * Z.of_nat (length out) ->
  get_bits (set_bits out start n_bits val) start n_bits
  = val mod 2 ^ n_bits.
Proof.
  intros Hb Hs Hn Hfit.
  rewrite <- (Z2Nat.id n_bits) by lia.
  apply get_set_bits; auto; lia.
Qed.

(** X2: [set_bits] keeps the size of the buffer and the value of every field
    that does not overlap the one it writes. *)
Theorem set_bits_keeps_other_fields (out : list Z)
  (start n_bits val start' n_bits' : Z) :
  bytes out -> 0 <= start -> 0 < n_bits <= 32 ->
  start + n_bits <= 8 * Z.of_nat (length out) ->
  0 <= start' -> 0 <= n_bits' <= 32 ->
  start' + n_bits' <= start \/ start + n_bits <= start' ->
  length (set_bits out start n_bits val) = length out
  /\ get_bits (set_bits out start n_bits val) start' n_bits'
     = get_bits out start' n_bits'.
Proof.
  intros Hb Hs Hn Hfit Hs' Hn' Hdis.
  rewrite <- (Z2Nat.id n_bits) in * by lia.
  rewrite <- (Z2Nat.id n_bits') in * by lia.
  destruct (set_bits_spec out start (Z.to_nat n_bits) val)
    as (HL & _ & HB); auto; try lia.
  split; [exact HL|].
  rewrite !get_bits_spec by lia.
  apply bits_val_ext. intros j Hj.
  rewrite HB by lia.
  replace ((start <=? start' + j)
           && (start' + j <? start + Z.of_nat (Z.to_nat n_bits)))
    with false; [reflexivity|].
  symmetry. apply andb_false_iff.
  destruct Hdis; [left; apply Z.leb_gt | right; apply Z.ltb_ge]; lia.
Qed.

(** X3: [get_bits] reads a big-endian field: a field of [n + m] bits is its
    first [n] bits shifted left by [m], plus the [m] bits that follow. *)
Theorem get_bits_concat (buf : list Z) (start n m : Z) :
  0 <= start -> 0 <= n -> 0 <= m -> n + m <= 32 ->
  get_bits buf start (n + m)
  = get_bits buf start n * 2 ^ m + get_bits buf (start + n) m.
Proof.
  intros Hs Hn Hm Hnm.
  rewrite <- (Z2Nat.id n), <- (Z2Nat.id m) by lia.
  rewrite <- Nat2Z.inj_add.
  rewrite !get_bits_spec by lia.
  rewrite bits_val_app. f_equal.
  apply bits_val_ext. intros j Hj. f_equal. lia.
Qed.

(** X4: [bits_to_numoutput] writes one character from '0' to '7' for every 3
    bits, and the terminator after them. *)
Theorem bits_to_numoutput_format (buf : list Z) (k : nat) :
  bytes buf ->
  exists digits,
    bits_to_numoutput buf (3 * Z.of_nat k) = digits ++ [0]
    /\ length digits = k
    /\ Forall octal_char digits.
Proof.
  intros Hb.
  destruct (numoutput_digits buf k Hb) as (E & L & O).
  eexists. split; [exact E|]. split; assumption.
Qed.

(** X5: Decoding the digits that [bits_to_numoutput] wrote for the first [3
    * k] bits of a buffer restores each of these bits, whatever the target
    buffer held before. *)
Theorem numoutput_numinput_bits (buf out : list Z) (k : nat) (g : Z) :
  bytes buf -> bytes out ->
  (3 * Z.of_nat k + 7) / 8 + 1 <= Z.of_nat (length out) ->
  0 <= g < 3 * Z.of_nat k ->
  bit (numinput_to_bits (bits_to_numoutput buf (3 * Z.of_nat k)) out
         (3 * Z.of_nat k)) g
  = bit buf g.
Proof.
  intros Hb Ho Hlen Hg.
  destruct (numinput_of_numoutput_bits buf out k
              (bits_to_numoutput buf (3 * Z.of_nat k)))
    as (_ & _ & HB); auto.
Qed.

Lemma numinput_loop_low3 : forall n in1 in2 out o bitpos,
  (forall k, (k < n)%nat ->
     Z.land (nth k in1 0 - 48) 7 = Z.land (nth k in2 0 - 48) 7) ->
  numinput_loop n in1 out o bitpos = numinput_loop n in2 out o bitpos.
Proof.
  induction n as [|n IH]; intros in1 in2 out o bitpos H; [reflexivity|].
  cbn [numinput_loop].
  rewrite (H 0%nat) by lia.
  assert (Ht : forall k, (k < n)%nat ->
            Z.land (nth k (tl in1) 0 - 48) 7
            = Z.land (nth k (tl in2) 0 - 48) 7).
  { intros k Hk. rewrite !nth_tl. apply H. lia. }
  destruct (_ <? 0); apply IH; exact Ht.
Qed.

(** X6: [numinput_to_bits] does not validate its input: it uses the low
    three bits of each character's distance from '0', so two strings whose
    characters agree modulo 8 decode alike ('8' as '0', '9' as '1'). *)
Theorem numinput_to_bits_mod8 (in1 in2 out : list Z) (n_bits : Z) :
  (forall k, (Z.of_nat k < n_bits / 3) ->
     (nth k in1 0) mod 8 = (nth k in2 0) mod 8) ->
  numinput_to_bits in1 out n_bits = numinput_to_bits in2 out n_bits.
Proof.
  intros H. unfold numinput_to_bits.
  apply numinput_loop_low3. intros k Hk.
  change 7 with (Z.ones 3). rewrite !Z.land_ones by lia.
  change (2 ^ 3) with 8.
  assert (Hk' : Z.of_nat k < n_bits / 3).
  { unfold TOKEN_BITS_PER_CHAR in Hk. lia. }
  specialize (H k Hk'). lia.
Qed.

(* ------------------------------------------------------------------ *)
(** ** The MAC, further properties                                      *)
(* ------------------------------------------------------------------ *)

(** X7: Whatever the cipher returns, [securid_mac] yields 16 bytes and
    [securid_shortmac] a 15-bit number. *)
Theorem securid_mac_shortmac_range (in_ : list Z) :
  is_block (securid_mac in_) /\ 0 <= securid_shortmac in_ < 2 ^ 15.
Proof.
  split; [apply is_block_securid_mac | apply securid_shortmac_range].
Qed.

(** X8: The length block of [securid_mac]: twelve zero bytes, then the
    number of input bits as a 32-bit big-endian number. *)
Theorem mac_pad_big_endian (in_len : Z) :
  0 <= in_len -> in_len * 8 < 2 ^ 31 ->
  mac_pad in_len =
  repeat 0 12 ++ [(in_len * 8 / 2 ^ 24) mod 256; (in_len * 8 / 2 ^ 16) mod 256;
                  (in_len * 8 / 2 ^ 8) mod 256; (in_len * 8) mod 256].
Proof.
  intros H0 H1. unfold mac_pad.
  set (v := in_len * 8) in *.
  assert (Hv : 0 <= v < 2 ^ 31) by (unfold v; lia).
  clearbody v. clear H0 H1.
  cbn [mac_pad_loop]. rewrite !Z.shiftr_shiftr, !Z.shiftr_div_pow2 by lia.
  change (8 + 8) with 16. change (16 + 8) with 24.
  change (2 ^ 8) with 256. change (2 ^ 16) with 65536.
  change (2 ^ 24) with 16777216. change (2 ^ 31) with 2147483648 in Hv.
  unfold u8. change (2 ^ 8) with 256.
  cbn [repeat app Nat.sub upd].
  destruct (Z.ltb_spec 0 v) as [A|A].
  2:{ repeat f_equal; lia. }
  destruct (Z.ltb_spec 0 (v / 256)) as [B|B].
  2:{ cbn [upd]. repeat f_equal; lia. }
  destruct (Z.ltb_spec 0 (v / 65536)) as [C|C].
  2:{ cbn [upd]. repeat f_equal; lia. }
  destruct (Z.ltb_spec 0 (v / 16777216)) as [D|D].
  2:{ cbn [upd]. repeat f_equal; lia. }
  cbn [upd]. repeat f_equal; lia.
Qed.

(* ------------------------------------------------------------------ *)
(** ** The decoder, further properties                                  *)
(* ------------------------------------------------------------------ *)

Lemma numinput_to_bits_field in_ out1 out2 n start m :
  bytes out1 -> bytes out2 ->
  (3 * Z.of_nat n + 7) / 8 + 1 <= Z.of_nat (length out1) ->
  (3 * Z.of_nat n + 7) / 8 + 1 <= Z.of_nat (length out2) ->
  0 <= start -> (m <= 32)%nat -> start + Z.of_nat m <= 3 * Z.of_nat n ->
  get_bits (numinput_to_bits in_ out1 (3 * Z.of_nat n)) start (Z.of_nat m)
  = get_bits (numinput_to_bits in_ out2 (3 * Z.of_nat n)) start (Z.of_nat m).
Proof.
  intros B1 B2 L1 L2 Hs Hm Hfit.
  destruct (numinput_to_bits_spec in_ out1 n B1 L1) as (_ & _ & H1).
  destruct (numinput_to_bits_spec in_ out2 n B2 L2) as (_ & _ & H2).
  rewrite !get_bits_spec by lia.
  apply bits_val_ext. intros j Hj.
  rewrite H1, H2 by lia. reflexivity.
Qed.

Lemma numinput_to_bits_prefix in_ out1 out2 n k :
  bytes out1 -> bytes out2 ->
  (3 * Z.of_nat n + 7) / 8 + 1 <= Z.of_nat (length out1) ->
  (3 * Z.of_nat n + 7) / 8 + 1 <= Z.of_nat (length out2) ->
  8 * Z.of_nat k <= 3 * Z.of_nat n ->
  firstn k (numinput_to_bits in_ out1 (3 * Z.of_nat n))
  = firstn k (numinput_to_bits in_ out2 (3 * Z.of_nat n)).
Proof.
  intros B1 B2 L1 L2 Hk.
  destruct (numinput_to_bits_spec in_ out1 n B1 L1) as (N1 & C1 & H1).
  destruct (numinput_to_bits_spec in_ out2 n B2 L2) as (N2 & C2 & H2).
  assert (K1 : length (firstn k (numinput_to_bits in_ out1 (3 * Z.of_nat n)))
               = k) by (rewrite length_firstn; lia).
  assert (K2 : length (firstn k (numinput_to_bits in_ out2 (3 * Z.of_nat n)))
               = k) by (rewrite length_firstn; lia).
  apply bit_ext_bytes.
  - congruence.
  - now apply bytes_firstn.
  - now apply bytes_firstn.
  - intros g Hg. rewrite K1 in Hg.
    rewrite !bit_firstn by lia.
    rewrite H1, H2 by lia. reflexivity.
Qed.

(** X9: The result of [securid_decode_token] does not depend on what its
    uninitialised scratch array [d] holds. *)
Theorem securid_decode_token_scratch (in_ d1 d2 : list Z)
  (t : securid_token) :
  bytes d1 -> bytes d2 ->
  (25 <= length d1)%nat -> (25 <= length d2)%nat ->
  securid_decode_token in_ d1 t = securid_decode_token in_ d2 t.
Proof.
  intros B1 B2 L1 L2. unfold securid_decode_token.
  destruct (_ || _); [reflexivity|].
  destruct (_ && _); [reflexivity|].
  set (tail := skipn (Z.to_nat (strlen in_ - CHECKSUM_CHARS)) in_).
  set (body := skipn (Z.to_nat BINENC_OFS) in_).
  pose proof (numinput_to_bits_spec tail d1 5 B1) as (N1 & C1 & _);
    [cbn; lia|].
  pose proof (numinput_to_bits_spec tail d2 5 B2) as (N2 & C2 & _);
    [cbn; lia|].
  change (3 * Z.of_nat 5) with 15 in N1, C1, N2, C2.
  assert (Hmac : get_bits (numinput_to_bits tail d1 15) 0 15
                 = get_bits (numinput_to_bits tail d2 15) 0 15)
    by (apply (numinput_to_bits_field tail d1 d2 5 0 15); auto; lia).
  set (e1 := numinput_to_bits tail d1 15) in *.
  set (e2 := numinput_to_bits tail d2 15) in *.
  rewrite Hmac.
  destruct (negb _); [reflexivity|].
  assert (F : forall start m,
            0 <= start -> (m <= 32)%nat -> start + Z.of_nat m <= 189 ->
            get_bits (numinput_to_bits body e1 BINENC_BITS) start
              (Z.of_nat m)
            = get_bits (numinput_to_bits body e2 BINENC_BITS) start
                (Z.of_nat m)).
  { intros start m Hs Hm Hfit.
    apply (numinput_to_bits_field body e1 e2 63); auto; lia. }
  assert (F1 : get_bits (numinput_to_bits body e1 BINENC_BITS) 128 16
               = get_bits (numinput_to_bits body e2 BINENC_BITS) 128 16)
    by (apply (F 128 16%nat); lia).
  assert (F2 : get_bits (numinput_to_bits body e1 BINENC_BITS) 144 14
               = get_bits (numinput_to_bits body e2 BINENC_BITS) 144 14)
    by (apply (F 144 14%nat); lia).
  assert (F3 : get_bits (numinput_to_bits body e1 BINENC_BITS) 159 15
               = get_bits (numinput_to_bits body e2 BINENC_BITS) 159 15)
    by (apply (F 159 15%nat); lia).
  assert (F4 : get_bits (numinput_to_bits body e1 BINENC_BITS) 174 15
               = get_bits (numinput_to_bits body e2 BINENC_BITS) 174 15)
    by (apply (F 174 15%nat); lia).
  assert (F5 : firstn (Z.to_nat AES_KEY_SIZE)
                 (numinput_to_bits body e1 BINENC_BITS)
               = firstn (Z.to_nat AES_KEY_SIZE)
                   (numinput_to_bits body e2 BINENC_BITS))
    by (apply (numinput_to_bits_prefix body e1 e2 63 16); auto; lia).
  cbv zeta. rewrite F1, F2, F3, F4, F5.
  reflexivity.
Qed.

Lemma get_bits_range_Z buf start n :
  0 <= start -> 0 <= n <= 32 -> 0 <= get_bits buf start n < 2 ^ n.
Proof.
  intros Hs Hn. rewrite <- (Z2Nat.id n) by lia.
  apply get_bits_range; lia.
Qed.

Lemma strlen_le_length s : strlen s <= Z.of_nat (length s).
Proof.
  unfold strlen. induction s as [|c s IH]; cbn [c_str length]; [lia|].
  destruct (c =? 0); cbn [length]; lia.
Qed.

(** X10: What a successful [securid_decode_token] leaves in the record: the
    twelve characters after the version as serial, a 16-byte encrypted seed
    marked present, fields within their widths, and no cleartext seed, PIN
    or smartphone mark. *)
Theorem securid_decode_token_success (in_ d : list Z) (t : securid_token) :
  bytes d -> (25 <= length d)%nat -> 13 <= MIN_TOKEN_CHARS ->
  fst (securid_decode_token in_ d t) = ERR_NONE ->
  let r := snd (securid_decode_token in_ d t) in
  serial r = firstn 12 (skipn 1 in_) ++ [0]
  /\ is_block (enc_seed r) /\ has_enc_seed r = 1
  /\ 0 <= flags r < 2 ^ 16
  /\ 0 <= exp_date r < 2 ^ 14
  /\ 0 <= dec_seed_hash r < 2 ^ 15
  /\ 0 <= device_id_hash r < 2 ^ 15
  /\ has_dec_seed r = 0 /\ dec_seed r = repeat 0 16
  /\ pin r = repeat 0 9 /\ pinmode r = 0 /\ is_smartphone r = 0.
Proof.
  intros Bd Ld Hmin. unfold securid_decode_token.
  destruct (Z.ltb_spec (strlen in_) MIN_TOKEN_CHARS) as [|Hlen];
    [cbn; discriminate|].
  cbn [orb].
  destruct (_ <? _); [cbn; discriminate|].
  destruct (_ && _); [cbn; discriminate|].
  set (tail := skipn (Z.to_nat (strlen in_ - CHECKSUM_CHARS)) in_).
  set (body := skipn (Z.to_nat BINENC_OFS) in_).
  pose proof (numinput_to_bits_spec tail d 5 Bd) as (N1 & C1 & _);
    [cbn; lia|].
  change (3 * Z.of_nat 5) with 15 in N1, C1.
  set (e := numinput_to_bits tail d 15) in *.
  destruct (negb _); [cbn; discriminate|].
  intros _. cbv zeta. cbn [snd].
  pose proof (numinput_to_bits_spec body e 63 C1) as (N2 & C2 & _);
    [lia|].
  change (3 * Z.of_nat 63) with BINENC_BITS in N2, C2.
  set (f := numinput_to_bits body e BINENC_BITS) in *.
  cbn [serial enc_seed has_enc_seed flags exp_date dec_seed_hash
       device_id_hash has_dec_seed dec_seed pin pinmode is_smartphone
       set_serial set_enc_seed set_has_enc_seed set_flags set_exp_date
       set_dec_seed_hash set_device_id_hash token_zero].
  pose proof (strlen_le_length in_) as Hin.
  pose proof (get_bits_range_Z f 128 16) as R1.
  pose proof (get_bits_range_Z f 144 14) as R2.
  pose proof (get_bits_range_Z f 159 15) as R3.
  pose proof (get_bits_range_Z f 174 15) as R4.
  assert (U : forall x n, 0 <= x < 2 ^ n -> 0 <= n <= 16 -> u16 x = x).
  { intros x n Hx Hn. apply u16_small.
    assert (2 ^ n <= 2 ^ 16) by (apply Z.pow_le_mono_r; lia). lia. }
  rewrite (U _ 16), (U _ 14), (U _ 15), (U _ 15) by (auto; lia).
  split; [|split; [|split; [|repeat split; try reflexivity; lia]]].
  - change (Z.to_nat VER_CHARS) with 1%nat.
    change (Z.to_nat SERIAL_CHARS) with 12%nat.
    unfold sub.
    assert (L12 : length (firstn 12 (skipn 1 in_)) = 12%nat).
    { rewrite length_firstn, length_skipn. lia. }
    set (s12 := firstn 12 (skipn 1 in_)) in *.
    rewrite write_at_0 by (rewrite L12; cbn; lia).
    rewrite L12. change (skipn 12 (repeat 0 13)) with [0].
    rewrite upd_app_r by (rewrite L12; lia). rewrite L12. reflexivity.
  - change (Z.to_nat AES_KEY_SIZE) with 16%nat.
    assert (L16 : length (firstn 16 f) = 16%nat).
    { rewrite length_firstn. lia. }
    rewrite write_at_0 by (rewrite L16; cbn; lia).
    rewrite L16. cbn [repeat skipn]. rewrite app_nil_r.
    split; [exact L16 | now apply bytes_firstn].
  - reflexivity.
Qed.

(* ------------------------------------------------------------------ *)
(** ** Key hash and seed decryption, further properties                 *)
(* ------------------------------------------------------------------ *)

Lemma valid_digit_nonzero sp l :
  Forall (fun c => c <> 0) (filter (valid_digit sp) l).
Proof.
  apply Forall_forall. intros c Hc. apply filter_In in Hc.
  destruct Hc as (_ & Hv). intros ->.
  unfold valid_digit in Hv. destruct (sp =? 0); discriminate.
Qed.

Lemma filter_idem (f : Z -> bool) l : filter f (filter f l) = filter f l.
Proof.
  induction l as [|c l IH]; [reflexivity|].
  cbn [filter]. destruct (f c) eqn:E; [|exact IH].
  cbn [filter]. rewrite E, IH. reflexivity.
Qed.

(** X11: [generate_key_hash] skips every character of the device id that is
    not a digit (a hex digit for a smartphone token): the id with its
    separators and the bare digits give the same result, error included. *)
Theorem generate_key_hash_skips_separators (pass : option (list Z))
  (devid : list Z) (sp : Z) :
  generate_key_hash pass (Some devid) sp
  = generate_key_hash pass (Some (filter (valid_digit sp) (c_str devid))) sp.
Proof.
  assert (E : forall key pos,
            devid_loop devid sp (if sp =? 0 then 32 else 40) 0 key pos
            = devid_loop (filter (valid_digit sp) (c_str devid)) sp
                (if sp =? 0 then 32 else 40) 0 key pos).
  { intros key pos.
    rewrite !devid_loop_spec by (destruct (sp =? 0); lia).
    rewrite (c_str_nonzero (filter _ _)) by apply valid_digit_nonzero.
    rewrite filter_idem. reflexivity. }
  unfold generate_key_hash, key_hash_input.
  destruct pass as [p|].
  - destruct (MAX_PASS <? strlen p); [reflexivity|].
    rewrite E. reflexivity.
  - rewrite E. reflexivity.
Qed.

(** X12: A record that needs a password (resp. a device id), as
    [securid_pass_required] (resp. [securid_devid_required]) tells, is
    refused with ERR_MISSING_PASSWORD and left untouched when
    [securid_decrypt_seed] is given none. *)
Theorem securid_decrypt_seed_missing (t : securid_token)
  (pass devid : option (list Z)) :
  (securid_pass_required t = true /\ pass = None)
  \/ (securid_devid_required t = true /\ devid = None) ->
  securid_decrypt_seed t pass devid = (ERR_MISSING_PASSWORD, t).
Proof.
  unfold securid_pass_required, securid_devid_required, securid_decrypt_seed.
  intros [(H & ->)|(H & ->)]; rewrite H; cbn [is_null andb].
  - reflexivity.
  - destruct (_ && _); reflexivity.
Qed.

(** X13: A record that needs neither a password nor a device id is decrypted
    the same way whatever password and device id are supplied. *)
Theorem securid_decrypt_seed_unprotected (t : securid_token)
  (pass devid : option (list Z)) :
  securid_pass_required t = false -> securid_devid_required t = false ->
  securid_decrypt_seed t pass devid = securid_decrypt_seed t None None.
Proof.
  unfold securid_pass_required, securid_devid_required, securid_decrypt_seed.
  intros H1 H2. rewrite H1, H2. cbn [andb]. reflexivity.
Qed.

(** X14: When [securid_decrypt_seed] returns ERR_NONE, the record differs
    from the one passed in by its cleartext seed and the mark that it is
    present only, and the cleartext seed is 16 bytes whose short MAC is the
    stored [dec_seed_hash]. *)
Theorem securid_decrypt_seed_success (t : securid_token)
  (pass devid : option (list Z)) :
  fst (securid_decrypt_seed t pass devid) = ERR_NONE ->
  let r := snd (securid_decrypt_seed t pass devid) in
  r = set_has_dec_seed (set_dec_seed t (dec_seed r)) 1
  /\ is_block (dec_seed r)
  /\ securid_shortmac (dec_seed r) = dec_seed_hash t.
Proof.
  unfold securid_decrypt_seed.
  destruct (_ && is_null pass); [discriminate|].
  destruct (_ && is_null devid); [discriminate|].
  destruct (generate_key_hash_cases
              (if negb (Z.land (flags t) FL_PASSPROT =? 0) then pass else None)
              (if negb (Z.land (flags t) FL_SNPROT =? 0) then devid else None)
              (is_smartphone t)) as [E|(in1 & in2 & E)]; rewrite E.
  { discriminate. }
  destruct (_ && negb _); [discriminate|].
  set (seed := aes128_ecb_decrypt (securid_mac in1) (enc_seed t)).
  assert (Hseed : is_block seed) by apply is_block_as_block.
  cbn [dec_seed set_dec_seed dec_seed_hash].
  change (Z.to_nat AES_KEY_SIZE) with 16%nat.
  assert (F : firstn 16 seed = seed).
  { apply firstn_all2. destruct Hseed as (L & _). lia. }
  rewrite F.
  assert (S : u16 (Z.lor (Z.shiftl (nth 0 (securid_mac seed) 0) 7)
                     (Z.shiftr (nth 1 (securid_mac seed) 0) 1))
              = securid_shortmac seed)
    by (unfold securid_shortmac; reflexivity).
  rewrite S.
  destruct (Z.eqb_spec (securid_shortmac seed) (dec_seed_hash t)) as [Hm|];
    [|discriminate].
  cbn [negb fst snd]. intros _.
  cbn [dec_seed set_has_dec_seed set_dec_seed].
  split; [reflexivity|]. split; [exact Hseed | exact Hm].
Qed.

(* ------------------------------------------------------------------ *)
(** ** The encoder, further properties                                  *)
(* ------------------------------------------------------------------ *)

Lemma opt_str_nonempty p : opt_str (nonempty p) = opt_str p.
Proof.
  destruct p as [s|]; [|reflexivity]. unfold nonempty, strlen.
  destruct (c_str s) eqn:E; cbn [length Z.of_nat opt_str];
    [now rewrite E | reflexivity].
Qed.

Lemma devid_digits_nonempty p sp :
  devid_digits (nonempty p) sp = devid_digits p sp.
Proof. unfold devid_digits. now rewrite opt_str_nonempty. Qed.

(** X15: [securid_encode_token] fails exactly when the password is longer
    than MAX_PASS or the device id holds more than [devid_len + 1] digits;
    it then returns ERR_BAD_PASSWORD and writes nothing. *)
Theorem securid_encode_token_failure (t : securid_token)
  (pass devid : option (list Z)) (out : list Z) :
  0 <= MAX_PASS ->
  let bad :=
    (MAX_PASS <? strlen (opt_str pass))
    || (devid_len_of (is_smartphone t) + 1
        <? Z.of_nat (length (devid_digits devid (is_smartphone t)))) in
  fst (securid_encode_token t pass devid out)
  = (if bad then ERR_BAD_PASSWORD else ERR_NONE)
  /\ (bad = true -> snd (securid_encode_token t pass devid out) = out).
Proof.
  intros Hmax bad.
  pose proof (generate_key_hash_code (nonempty pass) (nonempty devid)
                (is_smartphone t) Hmax) as Hc.
  rewrite opt_str_nonempty, devid_digits_nonempty in Hc. fold bad in Hc.
  unfold securid_encode_token.
  destruct (generate_key_hash_cases (nonempty pass) (nonempty devid)
              (is_smartphone t)) as [E|(in1 & in2 & E)];
    rewrite E in *; cbn [fst snd] in *.
  - split; [exact Hc | reflexivity].
  - split; [exact Hc|]. intros Hb. rewrite Hb in Hc. discriminate.
Qed.

(** X16: On success [securid_encode_token] writes 81 characters and the
    terminator: '2', the 12 digits of the serial, and 68 characters from '0'
    to '7'; the rest of the output buffer is left as it was. *)
Theorem securid_encode_token_format (t : securid_token)
  (pass devid : option (list Z)) (out digits : list Z) :
  serial t = digits ++ [0] -> length digits = 12%nat ->
  Forall digit_char digits ->
  BINENC_BITS <= MAX_TOKEN_BITS ->
  (82 <= length out)%nat ->
  fst (securid_encode_token t pass devid out) = ERR_NONE ->
  exists body,
    snd (securid_encode_token t pass devid out)
    = [50] ++ digits ++ body ++ 0 :: skipn 82 out
    /\ length body = 68%nat
    /\ Forall octal_char body.
Proof.
  intros Hser Hlen Hdig Hbits Hout Henc.
  assert (Hsz : (25 <= sizeof_d)%nat).
  { unfold sizeof_d, BINENC_BITS in *. lia. }
  unfold securid_encode_token in *.
  destruct (generate_key_hash_cases (nonempty pass) (nonempty devid)
              (is_smartphone t)) as [E|(in1 & in2 & E)];
    rewrite E in *; [discriminate|].
  destruct (encode_newt_fields t (nonempty pass) (nonempty devid)
              (securid_mac in1) (securid_shortmac in2))
    as (Fser & _ & _ & _ & _ & Fenc & _).
  set (newt := encode_newt t (nonempty pass) (nonempty devid)
                 (securid_mac in1) (securid_shortmac in2)) in *.
  assert (Hseed : is_block (enc_seed newt))
    by (rewrite Fenc; apply is_block_as_block).
  cbn [snd].
  rewrite (encode_emit_shape newt out digits) by (auto; congruence).
  exists (binenc_digits newt ++ checksum_digits newt digits).
  pose proof (numoutput_digits (encode_d newt) 63) as (_ & L1 & O1).
  { now apply (encode_d_spec newt). }
  destruct (set_bits_spec (encode_d newt) 0 15
              (securid_shortmac ([50] ++ digits ++ binenc_digits newt)))
    as (_ & BM & _); try lia;
    try (now apply (encode_d_spec newt));
    try (destruct (encode_d_spec newt Hseed Hsz) as (Le & _); lia).
  pose proof (numoutput_digits _ 5 BM) as (_ & L2 & O2).
  split; [|split].
  - rewrite <- !app_assoc. reflexivity.
  - rewrite length_app. unfold binenc_digits, checksum_digits.
    change (3 * Z.of_nat 63) with BINENC_BITS in L1.
    change (Z.of_nat 15) with 15 in L2.
    change (3 * Z.of_nat 5) with CHECKSUM_BITS in L2.
    rewrite L1, L2. reflexivity.
  - apply Forall_app. split; assumption.
Qed.

Lemma high_bits_clear p k : 0 <= p < 2 ^ 16 -> 16 <= k -> Z.testbit p k = false.
Proof.
  intros Hp Hk. destruct (Z.eq_dec p 0) as [->|Hn]; [apply Z.bits_0|].
  apply Z.bits_above_log2; [lia|].
  assert (Z.log2 p < 16) by (apply Z.log2_lt_pow2; lia). lia.
Qed.

Lemma land_zero_bit a p k :
  Z.land a p = 0 -> Z.testbit p k = true -> Z.testbit a k = false.
Proof.
  intros H Hk. pose proof (Z.land_spec a p k) as E.
  rewrite H, Z.bits_0, Hk, andb_true_r in E. now symmetry.
Qed.

Lemma land_eqb_0_false a p k :
  Z.testbit a k = true -> Z.testbit p k = true -> (Z.land a p =? 0) = false.
Proof.
  intros Ha Hp. apply Z.eqb_neq. intros H.
  pose proof (Z.land_spec a p k) as E.
  rewrite H, Z.bits_0, Ha, Hp in E. discriminate.
Qed.

Lemma land_eqb_0_true a p :
  (forall k, 0 <= k -> Z.testbit p k = true -> Z.testbit a k = false) ->
  (Z.land a p =? 0) = true.
Proof.
  intros H. apply Z.eqb_eq. apply Z.bits_inj'. intros k Hk.
  rewrite Z.land_spec, Z.bits_0.
  destruct (Z.testbit p k) eqn:E; [|apply andb_false_r].
  rewrite (H k Hk E). reflexivity.
Qed.

Lemma testbit_u16 x k :
  0 <= k -> Z.testbit (u16 x) k = (k <? 16) && Z.testbit x k.
Proof. intros Hk. unfold u16. apply Z.testbit_mod_pow2. lia. Qed.

(** The two protection flags of the record the encoder builds tell
    whether a password and a device id were given. *)
Lemma encode_newt_flags (t : securid_token) (pass devid : option (list Z))
  (kh : list Z) (ih : Z) :
  0 < FL_PASSPROT < 2 ^ 16 -> 0 < FL_SNPROT < 2 ^ 16 ->
  Z.land FL_PASSPROT FL_SNPROT = 0 ->
  (Z.land (flags (encode_newt t pass devid kh ih)) FL_PASSPROT =? 0)
  = is_null pass
  /\ (Z.land (flags (encode_newt t pass devid kh ih)) FL_SNPROT =? 0)
     = is_null devid.
Proof.
  intros HP HS Hdis.
  assert (Hdis' : Z.land FL_SNPROT FL_PASSPROT = 0)
    by (now rewrite Z.land_comm).
  assert (KP : 0 <= Z.log2 FL_PASSPROT < 16
               /\ Z.testbit FL_PASSPROT (Z.log2 FL_PASSPROT) = true).
  { split; [split; [apply Z.log2_nonneg | apply Z.log2_lt_pow2; lia]
           | apply Z.bit_log2; lia]. }
  assert (KS : 0 <= Z.log2 FL_SNPROT < 16
               /\ Z.testbit FL_SNPROT (Z.log2 FL_SNPROT) = true).
  { split; [split; [apply Z.log2_nonneg | apply Z.log2_lt_pow2; lia]
           | apply Z.bit_log2; lia]. }
  destruct KP as (KP & BP), KS as (KS & BS).
  pose proof (land_zero_bit _ _ _ Hdis BS) as PS.
  pose proof (land_zero_bit _ _ _ Hdis' BP) as SP.
  assert (lt16 : forall k, 0 <= k < 16 -> (k <? 16) = true)
    by (intros; apply Z.ltb_lt; lia).
  unfold encode_newt.
  destruct pass as [p|], devid as [dv|];
    cbn [is_null flags set_flags set_device_id_hash set_enc_seed]; split.
  - apply (land_eqb_0_false _ _ (Z.log2 FL_PASSPROT)); [|exact BP].
    rewrite !testbit_u16, Z.lor_spec, testbit_u16, Z.lor_spec, BP by lia.
    rewrite lt16 by lia. now rewrite orb_true_r.
  - apply (land_eqb_0_false _ _ (Z.log2 FL_SNPROT)); [|exact BS].
    rewrite !testbit_u16, Z.lor_spec, BS by lia.
    rewrite lt16 by lia. now rewrite orb_true_r.
  - apply (land_eqb_0_false _ _ (Z.log2 FL_PASSPROT)); [|exact BP].
    rewrite !testbit_u16, Z.land_spec, testbit_u16, Z.lor_spec, BP,
      Z.lnot_spec, SP by lia.
    rewrite lt16 by lia. now rewrite orb_true_r.
  - apply land_eqb_0_true. intros k Hk Bk.
    rewrite testbit_u16, Z.land_spec, Z.lnot_spec, Bk by lia.
    cbn [negb]. now rewrite !andb_false_r.
  - apply land_eqb_0_true. intros k Hk Bk.
    pose proof (land_zero_bit _ _ _ Hdis' Bk) as Sk.
    rewrite !testbit_u16, Z.lor_spec, testbit_u16, Z.land_spec, Z.lnot_spec,
      Bk, Sk by lia.
    cbn [negb]. now rewrite !andb_false_r.
  - apply (land_eqb_0_false _ _ (Z.log2 FL_SNPROT)); [|exact BS].
    rewrite !testbit_u16, Z.lor_spec, BS by lia.
    rewrite lt16 by lia. now rewrite orb_true_r.
  - apply land_eqb_0_true. intros k Hk Bk.
    rewrite !testbit_u16, Z.land_spec, testbit_u16, Z.land_spec, Z.lnot_spec,
      Bk by lia.
    cbn [negb]. now rewrite !andb_false_r.
  - apply land_eqb_0_true. intros k Hk Bk.
    rewrite !testbit_u16, Z.land_spec, Z.lnot_spec, Bk by lia.
    cbn [negb]. now rewrite !andb_false_r.
Qed.

(* ------------------------------------------------------------------ *)
(** ** Export, import and decryption                                    *)
(* ------------------------------------------------------------------ *)

Lemma nonempty_some p s : nonempty p = Some s -> p = Some s.
Proof.
  destruct p as [q|]; [|discriminate]. unfold nonempty.
  destruct (_ =? _); [discriminate | auto].
Qed.

(** X17: The full round trip. Let a record hold a 12-digit serial, a 14-bit
    expiry date and a 16-byte cleartext seed, and let [securid_encode_token]
    succeed on it with some password and device id. Then
    [securid_decode_token] accepts the string; the decoded record asks for a
    password (resp. a device id) exactly when a non-empty one was given;
    and, once its [is_smartphone] mark is set as in the original,
    [securid_decrypt_seed] with the same password and device id returns
    ERR_NONE and recovers the cleartext seed. (The cipher must decrypt what
    it encrypts; the two protection flags are distinct non-zero masks within
    16 bits.) *)
Theorem encode_decode_decrypt_roundtrip (t : securid_token)
  (pass devid : option (list Z)) (out d digits : list Z)
  (tout : securid_token) :
  rijndael_inverse ->
  serial t = digits ++ [0] -> length digits = 12%nat ->
  Forall digit_char digits ->
  0 <= exp_date t < 2 ^ 14 ->
  is_block (dec_seed t) ->
  MIN_TOKEN_CHARS <= 81 <= MAX_TOKEN_CHARS ->
  BINENC_BITS <= MAX_TOKEN_BITS ->
  0 < FL_PASSPROT < 2 ^ 16 -> 0 < FL_SNPROT < 2 ^ 16 ->
  Z.land FL_PASSPROT FL_SNPROT = 0 ->
  (82 <= length out)%nat ->
  bytes d -> length d = sizeof_d ->
  fst (securid_encode_token t pass devid out) = ERR_NONE ->
  let s := c_str (snd (securid_encode_token t pass devid out)) in
  let r := set_is_smartphone (snd (securid_decode_token s d tout))
             (is_smartphone t) in
  fst (securid_decode_token s d tout) = ERR_NONE
  /\ securid_pass_required r = negb (is_null (nonempty pass))
  /\ securid_devid_required r = negb (is_null (nonempty devid))
  /\ fst (securid_decrypt_seed r pass devid) = ERR_NONE
  /\ dec_seed (snd (securid_decrypt_seed r pass devid)) = dec_seed t
  /\ has_dec_seed (snd (securid_decrypt_seed r pass devid)) = 1.
Proof.
  intros Hinv Hser Hlen Hdig HE Hblk Hchars Hbits HP HS Hdis Hout Hd Ld Henc.
  assert (Hsz : (25 <= sizeof_d)%nat).
  { unfold sizeof_d, BINENC_BITS in *. lia. }
  unfold securid_encode_token in *.
  destruct (generate_key_hash_cases (nonempty pass) (nonempty devid)
              (is_smartphone t)) as [E|(in1 & in2 & E)];
    rewrite E in *; [discriminate|].
  destruct (encode_newt_fields t (nonempty pass) (nonempty devid)
              (securid_mac in1) (securid_shortmac in2))
    as (Fser & Fexp & Fseed & Fhash & Fid & Fenc & Fflags).
  destruct (encode_newt_flags t (nonempty pass) (nonempty devid)
              (securid_mac in1) (securid_shortmac in2) HP HS Hdis)
    as (FP & FS).
  set (newt := encode_newt t (nonempty pass) (nonempty devid)
                 (securid_mac in1) (securid_shortmac in2)) in *.
  assert (Hseed : is_block (enc_seed newt))
    by (rewrite Fenc; apply is_block_as_block).
  cbv zeta. cbn [snd].
  rewrite (encode_emit_shape newt out digits) by (auto; congruence).
  rewrite c_str_app_nul.
  2:{ apply Forall_app. split; [constructor; [lia | constructor]|].
      apply Forall_app. split; [now apply digit_char_nonzero|].
      pose proof (numoutput_digits (encode_d newt) 63) as (_ & _ & O1).
      { now apply (encode_d_spec newt). }
      destruct (set_bits_spec (encode_d newt) 0 15
                  (securid_shortmac ([50] ++ digits ++ binenc_digits newt)))
        as (_ & BM & _); try lia;
        try (now apply (encode_d_spec newt));
        try (destruct (encode_d_spec newt Hseed Hsz) as (Le & _); lia).
      pose proof (numoutput_digits _ 5 BM) as (_ & _ & O2).
      apply Forall_app. split; apply octal_nonzero; assumption. }
  destruct (decode_encoded newt digits d tout)
    as (R0 & R1 & R2 & R3 & R4 & R5 & R6); auto; try congruence.
  { rewrite Fid. apply securid_shortmac_range. }
  set (dec := securid_decode_token
                ([50] ++ digits ++ binenc_digits newt
                 ++ checksum_digits newt digits) d tout) in *.
  set (r := set_is_smartphone (snd dec) (is_smartphone t)).
  assert (Gf : flags r = flags newt) by exact R3.
  assert (Gs : is_smartphone r = is_smartphone t) by reflexivity.
  assert (Ge : enc_seed r = enc_seed newt) by exact R2.
  assert (Gh : dec_seed_hash r = securid_shortmac (firstn 16 (dec_seed t))).
  { rewrite <- Fseed. exact R5. }
  assert (Gi : device_id_hash r = securid_shortmac in2).
  { rewrite <- Fid. exact R6. }
  assert (Gp : securid_pass_required r = negb (is_null (nonempty pass))).
  { unfold securid_pass_required. rewrite Gf, FP. reflexivity. }
  assert (Gd : securid_devid_required r = negb (is_null (nonempty devid))).
  { unfold securid_devid_required. rewrite Gf, FS. reflexivity. }
  split; [exact R0|]. split; [exact Gp|]. split; [exact Gd|].
  unfold securid_pass_required in Gp. unfold securid_devid_required in Gd.
  assert (Ap : (if negb (is_null (nonempty pass)) then pass else None)
               = nonempty pass).
  { destruct (nonempty pass) eqn:N; [|reflexivity].
    now rewrite (nonempty_some _ _ N). }
  assert (Ad : (if negb (is_null (nonempty devid)) then devid else None)
               = nonempty devid).
  { destruct (nonempty devid) eqn:N; [|reflexivity].
    now rewrite (nonempty_some _ _ N). }
  assert (Np : negb (is_null (nonempty pass)) && is_null pass = false).
  { destruct (nonempty pass) eqn:N; [|reflexivity].
    now rewrite (nonempty_some _ _ N). }
  assert (Nd : negb (is_null (nonempty devid)) && is_null devid = false).
  { destruct (nonempty devid) eqn:N; [|reflexivity].
    now rewrite (nonempty_some _ _ N). }
  assert (Hdec : aes128_ecb_decrypt (securid_mac in1) (enc_seed r)
                 = dec_seed t).
  { rewrite Ge, Fenc. apply Hinv; [apply is_block_securid_mac | exact Hblk]. }
  unfold securid_decrypt_seed.
  rewrite Gp, Gd, Np, Nd, Ap, Ad, Gs, E, Gi, Z.eqb_refl.
  cbn [negb]. rewrite andb_false_r.
  rewrite Hdec.
  cbn [dec_seed set_dec_seed dec_seed_hash]. rewrite Gh.
  change (Z.to_nat AES_KEY_SIZE) with 16%nat.
  assert (S : u16 (Z.lor (Z.shiftl (nth 0 (securid_mac (firstn 16 (dec_seed t)))
                                      0) 7)
                     (Z.shiftr (nth 1 (securid_mac (firstn 16 (dec_seed t)))
                                  0) 1))
              = securid_shortmac (firstn 16 (dec_seed t)))
    by (unfold securid_shortmac; reflexivity).
  rewrite S, Z.eqb_refl. cbn [negb fst snd].
  split; [reflexivity|]. split; reflexivity.
Qed.

(* ------------------------------------------------------------------ *)
(** ** Expiry and PIN, further properties                               *)
(* ------------------------------------------------------------------ *)

(** X18: The sign of [securid_check_exp]: positive until one day before the
    end of the grace period, negative from one day after it, and 0 in
    between, so a token is reported as expired only a full day after its
    grace period has ended. (Expiry dates before 2038, for which the [int]
    arithmetic cannot overflow.) *)
Theorem securid_check_exp_sign (t : securid_token) (now : Z) :
  0 <= exp_date t < 13898 ->
  - 2 ^ 31 <= Z.quot (grace_end t - now) 86400 < 2 ^ 31 ->
  (0 < securid_check_exp t now <-> now + 86400 <= grace_end t)
  /\ (securid_check_exp t now = 0
      <-> grace_end t - 86400 < now < grace_end t + 86400)
  /\ (securid_check_exp t now < 0 <-> grace_end t + 86400 <= now).
Proof.
  intros He Hr.
  assert (E : securid_check_exp t now = Z.quot (grace_end t - now) 86400).
  { unfold securid_check_exp.
    change (60 * 60 * 24) with 86400. change (60 * 60 * 12) with 43200.
    rewrite (s32_small ((exp_date t + 1) * 86400)) by lia.
    rewrite (s32_small (SECURID_EPOCH + (exp_date t + 1) * 86400))
      by (unfold SECURID_EPOCH; lia).
    replace (SECURID_EPOCH + (exp_date t + 1) * 86400 + 43200 - now)
      with (grace_end t - now) by (unfold grace_end; lia).
    now apply s32_small. }
  rewrite E. clear E Hr.
  set (x := grace_end t - now).
  replace (grace_end t) with (x + now) by (unfold x; lia).
  clearbody x. lia.
Qed.

Lemma forallb_isdigit_inv l : forallb isdigit l = true -> Forall digit_char l.
Proof.
  intros H. apply Forall_forall. intros c Hc.
  rewrite forallb_forall in H. specialize (H c Hc).
  unfold isdigit in H. unfold digit_char. lia.
Qed.

Lemma securid_pin_format_ok_inv s :
  securid_pin_format_ok s = ERR_NONE -> good_pin (c_str s).
Proof.
  unfold securid_pin_format_ok, strlen, MIN_PIN, MAX_PIN.
  destruct (Z.ltb_spec (Z.of_nat (length (c_str s))) 4); [discriminate|].
  destruct (Z.ltb_spec 8 (Z.of_nat (length (c_str s)))); [discriminate|].
  cbn [orb].
  destruct (forallb isdigit (c_str s)) eqn:E; [|discriminate].
  intros _. split; [now apply forallb_isdigit_inv | lia].
Qed.

(** X30: The three answers of [securid_pin_format_ok]: ERR_BAD_LEN exactly
    for strings shorter than 4 or longer than 8 characters, ERR_NONE exactly
    for strings of 4 to 8 decimal digits, ERR_GENERAL for the others. *)
Theorem securid_pin_format_ok_cases (pin_ : list Z) :
  (securid_pin_format_ok pin_ = ERR_BAD_LEN
   <-> ~ (4 <= length (c_str pin_) <= 8)%nat)
  /\ (securid_pin_format_ok pin_ = ERR_NONE <-> good_pin (c_str pin_))
  /\ (securid_pin_format_ok pin_ = ERR_GENERAL
      <-> (4 <= length (c_str pin_) <= 8)%nat
          /\ ~ Forall digit_char (c_str pin_)).
Proof.
  unfold securid_pin_format_ok, strlen, MIN_PIN, MAX_PIN, good_pin.
  destruct (Z.ltb_spec (Z.of_nat (length (c_str pin_))) 4) as [A|A];
    cbn [orb].
  { split; [split; [intros _; lia | reflexivity]|].
    split; [split; [discriminate | intros (_ & H); lia]|].
    split; [discriminate | intros (H & _); lia]. }
  destruct (Z.ltb_spec 8 (Z.of_nat (length (c_str pin_)))) as [B|B].
  { split; [split; [intros _; lia | reflexivity]|].
    split; [split; [discriminate | intros (_ & H); lia]|].
    split; [discriminate | intros (H & _); lia]. }
  destruct (forallb isdigit (c_str pin_)) eqn:E.
  - apply forallb_isdigit_inv in E.
    split; [split; [discriminate | intros H; lia]|].
    split; [split; [intros _; split; [exact E | lia] | reflexivity]|].
    split; [discriminate | intros (_ & H); contradiction].
  - assert (N : ~ Forall digit_char (c_str pin_)).
    { intros F. apply forallb_isdigit in F. congruence. }
    split; [split; [discriminate | intros H; lia]|].
    split; [split; [discriminate | intros (F & _); contradiction]|].
    split; [intros _; split; [lia | exact N] | reflexivity].
Qed.

(** X19: Whatever the input and the cipher, a PIN that [securid_decrypt_pin]
    returns with ERR_NONE is 4 to 8 decimal digits, stored with its
    terminator at the start of the output buffer; the bytes after it are
    left as they were. *)
Theorem securid_decrypt_pin_success (enc_pin password pin_buf : list Z) :
  (9 <= length pin_buf)%nat ->
  fst (securid_decrypt_pin enc_pin password pin_buf) = ERR_NONE ->
  exists p,
    good_pin p
    /\ snd (securid_decrypt_pin enc_pin password pin_buf)
       = p ++ 0 :: skipn (S (length p)) pin_buf.
Proof.
  intros Hlen. unfold securid_decrypt_pin.
  destruct (negb _); [discriminate|].
  cbv zeta.
  set (buf := map _ (seq 0 16)).
  destruct (_ || _); [discriminate|].
  destruct (securid_pin_format_ok buf) eqn:F; try discriminate.
  intros _. cbn [error_eqb negb snd].
  apply securid_pin_format_ok_inv in F.
  exists (c_str buf). split; [exact F|].
  destruct F as (_ & L).
  rewrite write_at_0 by (rewrite length_app; cbn [length]; lia).
  rewrite <- app_assoc, length_app. cbn [app length].
  do 3 f_equal. lia.
Qed.

(** X20: [hex2byte] reads back every byte that ["%02x"] prints. *)
Theorem hex2byte_sprintf_02x (b : Z) :
  is_byte b -> hex2byte (sprintf_02x b) = b.
Proof. intros Hb. unfold sprintf_02x. now apply hex2byte_hex. Qed.

(* ------------------------------------------------------------------ *)
(** ** Tokencode computation, further properties                        *)
(* ------------------------------------------------------------------ *)

Lemma lor_shiftl_low a b n :
  0 <= n -> 0 <= a < 2 ^ n -> Z.lor a (Z.shiftl b n) = a + b * 2 ^ n.
Proof.
  intros Hn Ha.
  assert (L : Z.land a (Z.shiftl b n) = 0).
  { apply Z.bits_inj'. intros k Hk. rewrite Z.land_spec, Z.bits_0.
    destruct (Z.lt_ge_cases k n) as [Hlt|Hge].
    - rewrite Z.shiftl_spec_low by lia. apply andb_false_r.
    - destruct (Z.eq_dec a 0) as [->|Hne]; [now rewrite Z.bits_0|].
      rewrite (Z.bits_above_log2 a k); [reflexivity | lia |].
      assert (Z.log2 a < n) by (apply Z.log2_lt_pow2; lia). lia. }
  rewrite <- Z.lxor_lor by exact L.
  rewrite <- Z.add_nocarry_lxor by exact L.
  rewrite Z.shiftl_mul_pow2 by lia. reflexivity.
Qed.

(** One round of [bcd_write]: the byte stored for the two low decimal
    digits of a non-negative value. *)
Lemma bcd_byte v :
  0 <= v ->
  u8 (Z.lor (u8 (Z.rem v 10)) (Z.shiftl (Z.rem (Z.quot v 10) 10) 4))
  = bcd (v mod 100).
Proof.
  intros Hv.
  rewrite Z.quot_div_nonneg, !Z.rem_mod_nonneg by (try apply Z.div_pos; lia).
  unfold u8 at 2. change (2 ^ 8) with 256.
  rewrite (Z.mod_small (v mod 10) 256) by lia.
  rewrite lor_shiftl_low by (change (2 ^ 4) with 16; lia).
  change (2 ^ 4) with 16. unfold u8, bcd. change (2 ^ 8) with 256. lia.
Qed.

Lemma bcd_write_loop_spec : forall n out ofs val,
  0 <= val -> (ofs + n <= length out)%nat ->
  length (bcd_write_loop n out (ofs + n - 1) val) = length out
  /\ (forall k, (k < n)%nat ->
        nth (ofs + k) (bcd_write_loop n out (ofs + n - 1) val) 0
        = bcd ((val / 100 ^ Z.of_nat (n - 1 - k)) mod 100))
  /\ (forall j, (j < ofs \/ ofs + n <= j)%nat ->
        nth j (bcd_write_loop n out (ofs + n - 1) val) 0 = nth j out 0).
Proof.
  induction n as [|n IH]; intros out ofs val Hv Hfit.
  - cbn [bcd_write_loop]. split; [reflexivity|].
    split; [intros k Hk; lia | reflexivity].
  - cbn [bcd_write_loop].
    replace (ofs + S n - 1)%nat with (ofs + n)%nat by lia.
    rewrite nth_upd_same by lia.
    rewrite bcd_byte by exact Hv.
    set (out2 := upd (ofs + n) (bcd (val mod 100))
                   (upd (ofs + n) (u8 (Z.rem val 10)) out)).
    assert (L2 : length out2 = length out)
      by (unfold out2; now rewrite !length_upd).
    assert (V2 : Z.quot (Z.quot val 10) 10 = val / 100).
    { rewrite !Z.quot_div_nonneg by (try apply Z.div_pos; lia).
      rewrite Z.div_div by lia. reflexivity. }
    rewrite V2.
    destruct (IH out2 ofs (val / 100)) as (HL & HK & HF);
      [apply Z.div_pos; lia | lia |].
    replace (ofs + n - 1)%nat with (ofs + n - 1)%nat in * by lia.
    split; [congruence|]. split.
    + intros k Hk. destruct (Nat.eq_dec k n) as [->|Hne].
      * rewrite HF by lia. unfold out2.
        rewrite nth_upd_same by (rewrite length_upd; lia).
        replace (S n - 1 - n)%nat with 0%nat by lia.
        change (100 ^ Z.of_nat 0) with 1. now rewrite Z.div_1_r.
      * rewrite HK by lia.
        replace (S n - 1 - k)%nat with (S (n - 1 - k)) by lia.
        rewrite Nat2Z.inj_succ, Z.pow_succ_r by lia.
        rewrite Z.div_div by lia. reflexivity.
    + intros j Hj. rewrite HF by lia. unfold out2.
      rewrite !nth_upd_other by lia. reflexivity.
Qed.

(** X21: [bcd_write] stores a non-negative value in packed decimal, two
    digits per byte and the most significant byte first; it overwrites the
    bytes it is given and leaves the others as they were. *)
Theorem bcd_write_layout (out : list Z) (ofs : nat) (val : Z) (n : nat) :
  0 <= val -> (ofs + n <= length out)%nat ->
  length (bcd_write out ofs val n) = length out
  /\ (forall k, (k < n)%nat ->
        nth (ofs + k) (bcd_write out ofs val n) 0
        = bcd ((val / 100 ^ Z.of_nat (n - 1 - k)) mod 100))
  /\ (forall j, (j < ofs \/ ofs + n <= j)%nat ->
        nth j (bcd_write out ofs val n) 0 = nth j out 0).
Proof. intros Hv Hfit. unfold bcd_write. now apply bcd_write_loop_spec. Qed.

(** X22: The time bytes of [securid_compute_tokencode]: year (four digits),
    month, day, hour and the minute rounded down to a multiple of 4, each in
    packed decimal, and two zero bytes. *)
Theorem tokencode_bcd_time_layout (gmt : tm) :
  0 <= tm_year gmt + 1900 < 10000 -> 0 <= tm_mon gmt + 1 < 100 ->
  0 <= tm_mday gmt < 100 -> 0 <= tm_hour gmt < 100 ->
  0 <= tm_min gmt < 100 ->
  tokencode_bcd_time gmt =
  [bcd ((tm_year gmt + 1900) / 100); bcd ((tm_year gmt + 1900) mod 100);
   bcd (tm_mon gmt + 1); bcd (tm_mday gmt); bcd (tm_hour gmt);
   bcd (4 * (tm_min gmt / 4)); 0; 0].
Proof.
  intros Hy Hm Hd Hh Hmin.
  cbv [tokencode_bcd_time bcd_write bcd_write_loop upd repeat nth
       Nat.add Nat.sub].
  rewrite land_lnot3.
  assert (Q : Z.quot (Z.quot (tm_year gmt + 1900) 10) 10
              = (tm_year gmt + 1900) / 100).
  { rewrite !Z.quot_div_nonneg by (try apply Z.div_pos; lia).
    rewrite Z.div_div by lia. reflexivity. }
  rewrite Q.
  rewrite !bcd_byte by (try apply Z.div_pos; lia).
  rewrite (Z.mod_small ((tm_year gmt + 1900) / 100)),
    (Z.mod_small (tm_mon gmt + 1)), (Z.mod_small (tm_mday gmt)),
    (Z.mod_small (tm_hour gmt)), (Z.mod_small (4 * (tm_min gmt / 4)))
    by lia.
  reflexivity.
Qed.

(** X23: [key_from_time] rewrites all 16 bytes of [key]: the first
    [bcd_time_bytes] time bytes, 0xaa up to byte 7, digits 4 to 11 of the
    serial in packed decimal, and four bytes 0xbb. What [key] held before
    does not matter. *)
Theorem key_from_time_layout (bcd_time : list Z) (n : nat)
  (serial_ key : list Z) :
  (n <= 8)%nat -> (n <= length bcd_time)%nat -> length key = 16%nat ->
  (forall i, (4 <= i < 12)%nat -> digit_char (nth i serial_ 0)) ->
  key_from_time bcd_time n serial_ key =
  firstn n bcd_time ++ repeat 170 (8 - n)
  ++ map (fun i => 16 * (nth (4 + 2 * i) serial_ 0 - 48)
                   + (nth (5 + 2 * i) serial_ 0 - 48)) (seq 0 4)
  ++ repeat 187 4.
Proof.
  intros Hn Hb Hk Hs. unfold key_from_time.
  assert (Ln : length (firstn n bcd_time) = n)
    by (rewrite length_firstn; lia).
  destruct key as [|a0 [|a1 [|a2 [|a3 [|a4 [|a5 [|a6 [|a7 [|a8 [|a9 [|a10
                   [|a11 [|a12 [|a13 [|a14 [|a15 [|? ?]]]]]]]]]]]]]]]]];
    try discriminate.
  clear Hk.
  rewrite (write_at_0 (repeat 170 8)) by (cbn; lia).
  change (length (repeat 170 8)) with 8%nat. cbn [skipn].
  rewrite (write_at_0 (firstn n bcd_time))
    by (rewrite Ln, length_app, repeat_length; cbn [length]; lia).
  rewrite Ln.
  rewrite skipn_app, skipn_repeat, repeat_length.
  replace (n - 8)%nat with 0%nat by lia. cbn [skipn].
  set (A := firstn n bcd_time) in *.
  set (R := repeat 170 (8 - n)) in *.
  assert (LA : length (A ++ R) = 8%nat)
    by (unfold R; rewrite length_app, repeat_length; lia).
  rewrite !(app_assoc A).
  set (P := A ++ R) in *.
  change [a8; a9; a10; a11; a12; a13; a14; a15]
    with ([a8; a9; a10; a11] ++ [a12; a13; a14; a15]).
  rewrite (app_assoc P).
  rewrite (write_at_app (repeat 187 4) (P ++ [a8; a9; a10; a11])
             [a12; a13; a14; a15] 12)
    by (rewrite ?length_app, ?LA; reflexivity).
  cbn [skipn length repeat].
  rewrite <- !app_assoc.
  cbn [serial_bcd_loop].
  rewrite !upd_app_r by (rewrite LA; lia). rewrite LA.
  cbn [Nat.sub Nat.add upd app].
  assert (B : forall i, (4 <= i < 11)%nat ->
            u8 (Z.lor (Z.shiftl (nth i serial_ 0 - 48) 4)
                  (nth (S i) serial_ 0 - 48))
            = 16 * (nth i serial_ 0 - 48) + (nth (S i) serial_ 0 - 48)).
  { intros i Hi.
    pose proof (Hs i ltac:(lia)) as D1. pose proof (Hs (S i) ltac:(lia)) as D2.
    unfold digit_char in D1, D2.
    rewrite Z.lor_comm, lor_shiftl_low by (change (2 ^ 4) with 16; lia).
    change (2 ^ 4) with 16. unfold u8. change (2 ^ 8) with 256.
    rewrite Z.mod_small; lia. }
  rewrite !B by lia.
  cbn [map seq Nat.add Nat.mul repeat app]. reflexivity.
Qed.

(** The character that round [i] of the digit loop stores, from the
    value [w] that [tokencode] holds at that point. *)
Lemma tokencode_digits_spec pin_ pin_len : forall n i w out,
  0 <= i -> i + Z.of_nat n <= 8 -> (8 <= length out)%nat -> 0 <= w ->
  length (tokencode_digits n i w pin_ pin_len out) = length out
  /\ (forall j, 0 <= j < Z.of_nat n ->
        nth (Z.to_nat (7 - i - j))
          (tokencode_digits n i w pin_ pin_len out) 0
        = Z.rem
            (if i + j <? pin_len
             then u8 (u8 (dec_digit w j)
                      + (nth (Z.to_nat (pin_len - (i + j) - 1)) pin_ 0 - 48))
             else u8 (dec_digit w j)) 10 + 48)
  /\ (forall k, (Z.of_nat k < 8 - i - Z.of_nat n \/ 8 - i <= Z.of_nat k) ->
        nth k (tokencode_digits n i w pin_ pin_len out) 0 = nth k out 0).
Proof.
  induction n as [|n IH]; intros i w out Hi Hn Hlen Hw.
  - cbn [tokencode_digits]. split; [reflexivity|].
    split; [intros j Hj; lia | reflexivity].
  - cbn [tokencode_digits].
    assert (Q : Z.quot w 10 = w / 10) by (apply Z.quot_div_nonneg; lia).
    assert (R : Z.rem w 10 = dec_digit w 0).
    { unfold dec_digit. change (10 ^ 0) with 1.
      rewrite Z.div_1_r. apply Z.rem_mod_nonneg; lia. }
    rewrite Q, R.
    set (c := if i <? pin_len
              then u8 (u8 (dec_digit w 0)
                       + (nth (Z.to_nat (pin_len - i - 1)) pin_ 0 - 48))
              else u8 (dec_digit w 0)).
    set (out1 := upd (Z.to_nat (7 - i)) (Z.rem c 10 + 48) out).
    assert (L1 : length out1 = length out) by apply length_upd.
    destruct (IH (i + 1) (w / 10) out1) as (HL & HJ & HF);
      [lia | lia | lia | apply Z.div_pos; lia |].
    split; [congruence|]. split.
    + intros j Hj. destruct (Z.eq_dec j 0) as [->|Hne].
      * rewrite HF by lia. unfold out1.
        replace (7 - i - 0) with (7 - i) by lia.
        rewrite nth_upd_same by lia.
        replace (i + 0) with i by lia. reflexivity.
      * specialize (HJ (j - 1) ltac:(lia)).
        replace (7 - (i + 1) - (j - 1)) with (7 - i - j) in HJ by lia.
        replace (i + 1 + (j - 1)) with (i + j) in HJ by lia.
        rewrite HJ.
        assert (D : dec_digit (w / 10) (j - 1) = dec_digit w j).
        { unfold dec_digit. rewrite Z.div_div by lia.
          rewrite <- Z.pow_succ_r by lia.
          replace (Z.succ (j - 1)) with j by lia. reflexivity. }
        rewrite D. reflexivity.
    + intros k Hk. rewrite HF by lia. unfold out1.
      rewrite nth_upd_other by lia. reflexivity.
Qed.

Lemma dec_digit_range w i : 0 <= dec_digit w i < 10.
Proof. unfold dec_digit. apply Z.mod_pos_bound. lia. Qed.

Lemma list_split_at (l : list Z) n :
  (n < length l)%nat -> l = firstn n l ++ nth n l 0 :: skipn (S n) l.
Proof.
  revert l. induction n as [|n IH]; intros [|x l] H; cbn [length] in H;
    try lia.
  - reflexivity.
  - cbn [firstn nth skipn app]. f_equal. apply IH. lia.
Qed.

Lemma skipn_upd_before i v (l : list Z) n :
  (i < n)%nat -> skipn n (upd i v l) = skipn n l.
Proof.
  revert i l. induction n as [|n IH]; intros i l Hi; [lia|].
  destruct l as [|x l]; [destruct i; reflexivity|].
  destruct i as [|i]; cbn [upd skipn]; [reflexivity|].
  apply IH. lia.
Qed.

Lemma skipn_nth_ext (a b : list Z) n :
  length a = length b ->
  (forall k, (n <= k)%nat -> nth k a 0 = nth k b 0) ->
  skipn n a = skipn n b.
Proof.
  revert a b. induction n as [|n IH]; intros a b HL H.
  - cbn [skipn]. apply (nth_ext _ _ 0 0 HL). intros k _. apply H. lia.
  - destruct a as [|x a], b as [|y b]; try discriminate; [reflexivity|].
    cbn [skipn]. apply IH; [cbn in HL; lia|].
    intros k Hk. apply (H (S k)). lia.
Qed.

(** X24: Whatever the record holds, [securid_compute_tokencode] writes 8
    decimal digits and the terminator, and leaves the rest of the output
    buffer as it was. *)
Theorem securid_compute_tokencode_format (t : securid_token) (gmt : tm)
  (code_out : list Z) :
  (9 <= length code_out)%nat ->
  exists digits,
    securid_compute_tokencode t gmt code_out
    = digits ++ 0 :: skipn 9 code_out
    /\ length digits = 8%nat
    /\ Forall digit_char digits.
Proof.
  intros Hlen. unfold securid_compute_tokencode.
  set (w := tokencode_word t gmt).
  assert (Hw : 0 <= w).
  { unfold w, tokencode_word, tokencode_at, u32. apply Z.mod_pos_bound.
    reflexivity. }
  destruct (tokencode_digits_spec (pin t) (strlen (pin t)) 8 0 w code_out)
    as (HL & HJ & HF); try lia.
  set (res := tokencode_digits 8 0 w (pin t) (strlen (pin t)) code_out) in *.
  exists (firstn 8 res).
  assert (L8 : length (firstn 8 res) = 8%nat)
    by (rewrite length_firstn; lia).
  split; [|split; [exact L8|]].
  - rewrite (list_split_at (upd 8 0 res) 8) by (rewrite length_upd; lia).
    rewrite nth_upd_same by lia.
    f_equal.
    + apply (nth_ext _ _ 0 0).
      * rewrite !length_firstn, length_upd. reflexivity.
      * intros k Hk. rewrite length_firstn, length_upd in Hk.
        rewrite !nth_firstn.
        destruct (k <? 8)%nat eqn:E; [|reflexivity].
        apply Nat.ltb_lt in E. apply nth_upd_other. lia.
    + f_equal. rewrite skipn_upd_before by lia.
      apply skipn_nth_ext; [exact HL|].
      intros k Hk. apply HF. lia.
  - apply Forall_nth_Z. intros k Hk. rewrite L8 in Hk.
    rewrite nth_firstn.
    replace (k <? 8)%nat with true by (symmetry; apply Nat.ltb_lt; lia).
    specialize (HJ (7 - Z.of_nat k) ltac:(lia)).
    replace (Z.to_nat (7 - 0 - (7 - Z.of_nat k))) with k in HJ by lia.
    rewrite HJ. unfold digit_char.
    match goal with
    | |- context [Z.rem ?c 10] =>
        assert (Hc : 0 <= c) by
          (destruct (_ <? _); unfold u8; apply Z.mod_pos_bound; reflexivity);
        pose proof (Z.rem_bound_pos c 10 Hc ltac:(lia))
    end.
    lia.
Qed.

Lemma nth_c_str s : forall k,
  (k < length (c_str s))%nat -> nth k (c_str s) 0 = nth k s 0.
Proof.
  induction s as [|c s IH]; intros k Hk; [reflexivity|].
  cbn [c_str] in *. destruct (c =? 0); [cbn in Hk; lia|].
  destruct k as [|k]; [reflexivity|].
  cbn [nth]. apply IH. cbn [length] in Hk. lia.
Qed.

(** X25: The digits of the tokencode. With a PIN of decimal digits, digit
    [i] of the code, counted from the right, is decimal digit [i] of the
    32-bit word taken from the cipher output, plus the PIN digit at the same
    distance from the right if the PIN is that long, modulo 10; there is no
    carry between digits. *)
Theorem securid_compute_tokencode_digits (t : securid_token) (gmt : tm)
  (code_out : list Z) (i : Z) :
  (9 <= length code_out)%nat ->
  Forall digit_char (c_str (pin t)) ->
  0 <= i < 8 ->
  nth (Z.to_nat (7 - i)) (securid_compute_tokencode t gmt code_out) 0
  = 48 + (dec_digit (tokencode_word t gmt) i
          + (if i <? strlen (pin t)
             then nth (Z.to_nat (strlen (pin t) - 1 - i)) (pin t) 0 - 48
             else 0)) mod 10.
Proof.
  intros Hlen Hpin Hi. unfold securid_compute_tokencode.
  set (w := tokencode_word t gmt).
  assert (Hw : 0 <= w).
  { unfold w, tokencode_word, tokencode_at, u32. apply Z.mod_pos_bound.
    reflexivity. }
  destruct (tokencode_digits_spec (pin t) (strlen (pin t)) 8 0 w code_out)
    as (HL & HJ & _); try lia.
  rewrite nth_upd_other by lia.
  specialize (HJ i ltac:(lia)).
  replace (7 - 0 - i) with (7 - i) in HJ by lia.
  rewrite HJ. clear HJ.
  replace (0 + i) with i by lia.
  pose proof (dec_digit_range w i) as Hd.
  unfold u8. change (2 ^ 8) with 256.
  rewrite (Z.mod_small (dec_digit w i)) by lia.
  destruct (Z.ltb_spec i (strlen (pin t))) as [Hlt|Hge].
  - replace (strlen (pin t) - i - 1) with (strlen (pin t) - 1 - i) by lia.
    set (k := Z.to_nat (strlen (pin t) - 1 - i)).
    assert (Hk : (k < length (c_str (pin t)))%nat)
      by (unfold k, strlen in *; lia).
    assert (Dk : digit_char (nth k (pin t) 0)).
    { rewrite <- nth_c_str by exact Hk.
      rewrite Forall_forall in Hpin. apply Hpin. now apply nth_In. }
    unfold digit_char in Dk.
    rewrite Z.mod_small by lia.
    rewrite Z.rem_mod_nonneg by lia. lia.
  - rewrite Z.rem_mod_nonneg by lia. rewrite Z.add_0_r. lia.
Qed.

(* ------------------------------------------------------------------ *)
(** ** Random tokens                                                    *)
(* ------------------------------------------------------------------ *)

Context {flg : HeaderFlags}.

Lemma generate_key_hash_none sp :
  exists in1 in2,
    generate_key_hash None None sp
    = (ERR_NONE, Some (securid_mac in1, securid_shortmac in2)).
Proof.
  destruct (generate_key_hash_cases None None sp) as [E|E]; [|exact E].
  unfold generate_key_hash, key_hash_input in E.
  cbv beta iota zeta in E. discriminate E.
Qed.

Lemma securid_rand_full out stored :
  length out = 16%nat -> length stored = 16%nat ->
  securid_rand out 16 stored = (ERR_NONE, map u8 stored).
Proof.
  intros Ho H. unfold securid_rand.
  rewrite H. cbn [Z.of_nat Pos.of_succ_nat Pos.succ Z.eqb Pos.eqb negb].
  rewrite write_at_0 by (rewrite length_map; lia).
  rewrite length_map, H, <- Ho, skipn_all, app_nil_r. reflexivity.
Qed.

Lemma bytes_map_u8 l : bytes (map u8 l).
Proof.
  apply Forall_forall. intros x Hx. apply in_map_iff in Hx.
  destruct Hx as (y & <- & _). apply u8_byte.
Qed.

Lemma random_serial_spec rb :
  bytes rb ->
  exists digits,
    random_serial rb (repeat 0 13) = digits ++ [0]
    /\ length digits = 12%nat /\ Forall digit_char digits.
Proof.
  intros Hb.
  exists (map (fun i => 48 + Z.rem (nth i rb 0) 10) (seq 0 12)).
  split; [reflexivity|]. split; [reflexivity|].
  apply Forall_forall. intros x Hx. apply in_map_iff in Hx.
  destruct Hx as (i & <- & _).
  pose proof (bytes_nth rb i Hb) as Hi. unfold is_byte in Hi.
  rewrite Z.rem_mod_nonneg by lia. unfold digit_char. lia.
Qed.

(** X26: What [securid_random_token] builds when both random draws deliver
    16 bytes: ERR_NONE and a record with the drawn seed, its short MAC, the
    seed encrypted and marked present, a serial of 12 decimal digits, PIN
    mode 3 and the fixed flags; the cleartext seed is not marked present. *)
Theorem securid_random_token_success (now : Z)
  (stored1 stored2 randbytes key_hash : list Z) :
  length stored1 = 16%nat -> length stored2 = 16%nat ->
  length randbytes = 16%nat ->
  let r := securid_random_token now stored1 stored2 randbytes key_hash in
  fst r = ERR_NONE
  /\ dec_seed (snd r) = map u8 stored1
  /\ dec_seed_hash (snd r) = securid_shortmac (map u8 stored1)
  /\ has_dec_seed (snd r) = 0
  /\ is_block (enc_seed (snd r)) /\ has_enc_seed (snd r) = 1
  /\ (exists digits,
        serial (snd r) = digits ++ [0]
        /\ length digits = 12%nat /\ Forall digit_char digits)
  /\ flags (snd r) = random_flags /\ pinmode (snd r) = 3
  /\ pin (snd r) = repeat 0 9 /\ is_smartphone (snd r) = 0.
Proof.
  intros L1 L2 L3. unfold securid_random_token.
  change (dec_seed token_zero) with (repeat 0 16).
  change AES_KEY_SIZE with 16.
  rewrite (securid_rand_full (repeat 0 16)) by (auto; reflexivity).
  cbn [error_eqb negb].
  rewrite (securid_rand_full randbytes) by auto.
  cbn [error_eqb negb].
  cbn [is_smartphone set_dec_seed_hash set_dec_seed token_zero dec_seed].
  destruct (generate_key_hash_none 0) as (in1 & in2 & E). rewrite E.
  cbv zeta.
  cbn [fst snd dec_seed dec_seed_hash has_dec_seed enc_seed has_enc_seed
       serial flags pinmode pin is_smartphone
       set_device_id_hash set_enc_seed set_has_enc_seed set_flags set_pinmode
       set_serial set_exp_date set_dec_seed_hash set_dec_seed].
  assert (F : firstn (Z.to_nat 16) (map u8 stored1) = map u8 stored1).
  { apply firstn_all2. rewrite length_map, L1. cbn. lia. }
  rewrite F.
  split; [reflexivity|]. split; [reflexivity|]. split; [reflexivity|].
  split; [reflexivity|]. split; [apply is_block_as_block|].
  split; [reflexivity|].
  split; [apply random_serial_spec, bytes_map_u8|].
  repeat split; reflexivity.
Qed.

(** X27: When a random draw delivers too few bytes, [securid_random_token]
    returns ERR_GENERAL; the record is then zeroed, apart from the seed
    bytes already drawn. *)
Theorem securid_random_token_rng_failure (now : Z)
  (stored1 stored2 randbytes key_hash : list Z) :
  length stored1 <> 16%nat \/ length stored2 <> 16%nat ->
  let r := securid_random_token now stored1 stored2 randbytes key_hash in
  fst r = ERR_GENERAL
  /\ snd r = set_dec_seed token_zero (dec_seed (snd r)).
Proof.
  intros H. unfold securid_random_token, securid_rand.
  change AES_KEY_SIZE with 16.
  destruct (Z.eqb_spec (Z.of_nat (length stored1)) 16) as [E1|E1];
    cbn [negb error_eqb]; [|split; reflexivity].
  destruct (Z.eqb_spec (Z.of_nat (length stored2)) 16) as [E2|E2];
    cbn [negb error_eqb]; [lia | split; reflexivity].
Qed.

(** X28: A token drawn at [now] has between 60 and 511 days left when
    checked at once: [securid_check_exp] returns 60 plus 30 times the low
    four bits of the thirteenth random byte, and one more during the first
    half of the day (UTC). (Times up to 13000 days after the epoch, for
    which the [int] arithmetic cannot overflow.) *)
Theorem securid_random_token_days_left (now : Z)
  (stored1 stored2 randbytes key_hash : list Z) :
  length stored1 = 16%nat -> length stored2 = 16%nat ->
  length randbytes = 16%nat ->
  SECURID_EPOCH <= now < SECURID_EPOCH + 13000 * 86400 ->
  let r := securid_random_token now stored1 stored2 randbytes key_hash in
  securid_check_exp (snd r) now
  = 60 + 30 * Z.land (u8 (nth 12 stored2 0)) 15
    + (if (now - SECURID_EPOCH) mod 86400 <=? 43200 then 1 else 0)
  /\ 60 <= securid_check_exp (snd r) now <= 511.
Proof.
  intros L1 L2 L3 Hnow. unfold securid_random_token.
  change (dec_seed token_zero) with (repeat 0 16).
  change AES_KEY_SIZE with 16.
  rewrite (securid_rand_full (repeat 0 16)) by (auto; reflexivity).
  cbn [error_eqb negb].
  rewrite (securid_rand_full randbytes) by auto.
  cbn [error_eqb negb].
  cbn [is_smartphone set_dec_seed_hash set_dec_seed token_zero dec_seed].
  destruct (generate_key_hash_none 0) as (in1 & in2 & E). rewrite E.
  cbv zeta. unfold securid_check_exp.
  cbn [snd exp_date set_exp_date].
  assert (N : nth 12 (map u8 stored2) 0 = u8 (nth 12 stored2 0)).
  { change 0 with (u8 0) at 1. apply map_nth. }
  rewrite N.
  set (b := u8 (nth 12 stored2 0)).
  assert (Hr : 0 <= Z.land b 15 <= 15).
  { assert (M : Z.land b 15 = b mod 16)
      by (change 15 with (Z.ones 4); rewrite Z.land_ones by lia;
          reflexivity).
    rewrite M. lia. }
  set (r := Z.land b 15) in *. clearbody r.
  change (24 * 60 * 60) with 86400. change (60 * 60 * 24) with 86400.
  change (60 * 60 * 12) with 43200.
  unfold SECURID_EPOCH in *.
  rewrite (Z.quot_div_nonneg (now - 946684800) 86400) by lia.
  set (s := (now - 946684800) mod 86400).
  set (q := (now - 946684800) / 86400).
  assert (Hq : 0 <= q < 13000) by (unfold q; lia).
  assert (Hs : 0 <= s < 86400) by (unfold s; lia).
  assert (Hnow' : now = 946684800 + 86400 * q + s) by (unfold q, s; lia).
  clearbody q s. subst now.
  rewrite u16_small by lia.
  rewrite (s32_small ((q + 60 + r * 30 + 1) * 86400)) by lia.
  rewrite (s32_small (946684800 + (q + 60 + r * 30 + 1) * 86400)) by lia.
  assert (Q : Z.quot (946684800 + (q + 60 + r * 30 + 1) * 86400 + 43200
                      - (946684800 + 86400 * q + s)) 86400
              = 60 + 30 * r + (if s <=? 43200 then 1 else 0)).
  { rewrite Z.quot_div_nonneg by lia.
    destruct (Z.leb_spec s 43200); lia. }
  rewrite Q. rewrite s32_small by (destruct (s <=? 43200); lia).
  destruct (s <=? 43200); lia.
Qed.

(** X29: The seed of a random token is stored encrypted under the key hash
    of no password and no device id: provided the fixed flags do not include
    the two protection flags, [securid_decrypt_seed] on the fresh record
    returns ERR_NONE whatever password and device id it is given, and only
    marks the cleartext seed as present. *)
Theorem securid_random_token_decrypts (now : Z)
  (stored1 stored2 randbytes key_hash : list Z)
  (pass devid : option (list Z)) :
  rijndael_inverse ->
  length stored1 = 16%nat -> length stored2 = 16%nat ->
  length randbytes = 16%nat ->
  Z.land random_flags FL_PASSPROT = 0 ->
  Z.land random_flags FL_SNPROT = 0 ->
  let r := snd (securid_random_token now stored1 stored2 randbytes
                  key_hash) in
  securid_decrypt_seed r pass devid = (ERR_NONE, set_has_dec_seed r 1).
Proof.
  intros Hinv L1 L2 L3 HP HS. unfold securid_random_token.
  change (dec_seed token_zero) with (repeat 0 16).
  change AES_KEY_SIZE with 16.
  rewrite (securid_rand_full (repeat 0 16)) by (auto; reflexivity).
  cbn [error_eqb negb].
  rewrite (securid_rand_full randbytes) by auto.
  cbn [error_eqb negb].
  cbn [is_smartphone set_dec_seed_hash set_dec_seed token_zero dec_seed].
  destruct (generate_key_hash_none 0) as (in1 & in2 & E). rewrite E.
  cbv zeta. cbn [snd].
  assert (F : firstn (Z.to_nat 16) (map u8 stored1) = map u8 stored1).
  { apply firstn_all2. rewrite length_map, L1. cbn. lia. }
  rewrite F.
  set (seed := map u8 stored1).
  assert (Bs : is_block seed).
  { split; [unfold seed; now rewrite length_map | apply bytes_map_u8]. }
  unfold securid_decrypt_seed.
  cbv [set_device_id_hash set_enc_seed set_has_enc_seed set_flags set_pinmode
       set_serial set_exp_date set_dec_seed_hash set_dec_seed
       set_has_dec_seed token_zero serial flags exp_date is_smartphone
       has_enc_seed enc_seed dec_seed_hash device_id_hash has_dec_seed
       dec_seed pinmode pin].
  rewrite HP, HS. cbn [Z.eqb negb andb].
  rewrite E.
  rewrite Hinv by (try apply is_block_securid_mac; exact Bs).
  change (Z.to_nat AES_KEY_SIZE) with 16%nat.
  assert (F2 : firstn 16 seed = seed).
  { apply firstn_all2. destruct Bs as (L & _). lia. }
  rewrite F2.
  assert (S : u16 (Z.lor (Z.shiftl (nth 0 (securid_mac seed) 0) 7)
                     (Z.shiftr (nth 1 (securid_mac seed) 0) 1))
              = securid_shortmac seed)
    by (unfold securid_shortmac; reflexivity).
  rewrite S, Z.eqb_refl. cbn [negb]. reflexivity.
Qed.

End Properties.

(* ------------------------------------------------------------------ *)
(** ** AES decryption undoes AES encryption                             *)
(* ------------------------------------------------------------------ *)

Lemma forall_below2 (P : Z -> Z -> bool) n :
  forallb (fun i => forallb (fun j => P (Z.of_nat i) (Z.of_nat j)) (seq 0 n))
    (seq 0 n) = true ->
  forall a b, 0 <= a < Z.of_nat n -> 0 <= b < Z.of_nat n -> P a b = true.
Proof.
  intros H a b Ha Hb.
  apply (forall_below (fun a => forallb (fun j => P a (Z.of_nat j)) (seq 0 n))
           n H) in Ha.
  now apply (forall_below (fun b => P a b) n Ha).
Qed.

Lemma sbox_byte b : is_byte b -> is_byte (AES.sbox b).
Proof.
  intros Hb.
  assert (H : ((0 <=? AES.sbox b) && (AES.sbox b <? 256)) = true).
  { apply (forall_below (fun b => (0 <=? AES.sbox b) && (AES.sbox b <? 256))
             256); [vm_compute; reflexivity | exact Hb]. }
  apply andb_true_iff in H as [H1 H2]. unfold is_byte. lia.
Qed.

Lemma inv_sbox_sbox b : is_byte b -> AES.inv_sbox (AES.sbox b) = b.
Proof.
  intros Hb. apply Z.eqb_eq.
  apply (forall_below (fun b => AES.inv_sbox (AES.sbox b) =? b) 256);
    [vm_compute; reflexivity | exact Hb].
Qed.

Lemma gmul_byte a c :
  is_byte a -> In c [2; 3; 9; 11; 13; 14] -> is_byte (AES.gmul a c).
Proof.
  intros Ha Hc.
  assert (H : ((0 <=? AES.gmul a c) && (AES.gmul a c <? 256)) = true).
  { cbn [In] in Hc.
    destruct Hc as [<- | [<- | [<- | [<- | [<- | [<- | []]]]]]];
      match goal with
      | |- ((0 <=? AES.gmul _ ?c) && _) = true =>
          apply (forall_below
                   (fun a => (0 <=? AES.gmul a c) && (AES.gmul a c <? 256))
                   256); [vm_compute; reflexivity | exact Ha]
      end. }
  apply andb_true_iff in H as [H1 H2]. unfold is_byte. lia.
Qed.

Lemma gmul_xor a b c :
  is_byte a -> is_byte b ->
  c = 9 \/ c = 11 \/ c = 13 \/ c = 14 ->
  AES.gmul (Z.lxor a b) c = Z.lxor (AES.gmul a c) (AES.gmul b c).
Proof.
  intros Ha Hb Hc. apply Z.eqb_eq.
  destruct Hc as [-> | [-> | [-> | ->]]];
    match goal with
    | |- (AES.gmul _ ?c =? _) = true =>
        apply (forall_below2
                 (fun a b => AES.gmul (Z.lxor a b) c
                             =? Z.lxor (AES.gmul a c) (AES.gmul b c)) 256);
          [vm_compute; reflexivity | exact Ha | exact Hb]
    end.
Qed.

Lemma gmul_xor4 w x y z c :
  is_byte w -> is_byte x -> is_byte y -> is_byte z ->
  c = 9 \/ c = 11 \/ c = 13 \/ c = 14 ->
  AES.gmul (Z.lxor (Z.lxor (Z.lxor w x) y) z) c
  = Z.lxor (Z.lxor (Z.lxor (AES.gmul w c) (AES.gmul x c)) (AES.gmul y c))
      (AES.gmul z c).
Proof.
  intros Hw Hx Hy Hz Hc.
  rewrite !gmul_xor; auto using lxor_byte.
Qed.

(** Regrouping sixteen XORed terms by columns instead of rows. *)
Lemma lxor_transpose
  p0 p1 p2 p3 q0 q1 q2 q3 r0 r1 r2 r3 s0 s1 s2 s3 :
  Z.lxor (Z.lxor (Z.lxor (Z.lxor (Z.lxor (Z.lxor p0 p1) p2) p3)
                    (Z.lxor (Z.lxor (Z.lxor q0 q1) q2) q3))
            (Z.lxor (Z.lxor (Z.lxor r0 r1) r2) r3))
    (Z.lxor (Z.lxor (Z.lxor s0 s1) s2) s3)
  = Z.lxor (Z.lxor (Z.lxor (Z.lxor (Z.lxor (Z.lxor p0 q0) r0) s0)
                      (Z.lxor (Z.lxor (Z.lxor p1 q1) r1) s1))
              (Z.lxor (Z.lxor (Z.lxor p2 q2) r2) s2))
      (Z.lxor (Z.lxor (Z.lxor p3 q3) r3) s3).
Proof.
  apply Z.bits_inj'. intros k _. rewrite !Z.lxor_spec.
  repeat match goal with
         | |- context [Z.testbit ?x k] =>
             let b := fresh "b" in
             generalize (Z.testbit x k); intros b
         end.
  btauto.
Qed.

(** Settles an equation in one byte [a] by running through its 256
    values. *)
Ltac byte_check a Ha :=
  apply Z.eqb_eq; revert a Ha;
  match goal with
  | |- forall a, is_byte a -> (@?P a) = true =>
      intros a Ha; apply (forall_below P 256);
      [vm_compute; reflexivity | exact Ha]
  end.

Lemma inv_mix_mix_column a0 a1 a2 a3 rest :
  is_byte a0 -> is_byte a1 -> is_byte a2 -> is_byte a3 ->
  AES.by_columns AES.inv_mix_column (AES.mix_column a0 a1 a2 a3 ++ rest)
  = a0 :: a1 :: a2 :: a3 :: AES.by_columns AES.inv_mix_column rest.
Proof.
  intros H0 H1 H2 H3.
  assert (G2 : forall a, is_byte a -> is_byte (AES.gmul a 2))
    by (intros; apply gmul_byte; cbn; auto).
  assert (G3 : forall a, is_byte a -> is_byte (AES.gmul a 3))
    by (intros; apply gmul_byte; cbn; auto 6).
  unfold AES.mix_column. cbn [app AES.by_columns].
  unfold AES.inv_mix_column. cbn [app].
  rewrite !gmul_xor4 by auto 6.
  f_equal; [|f_equal; [|f_equal; [|f_equal]]]; rewrite lxor_transpose.
  - (* row 0 *)
    replace (Z.lxor (Z.lxor (Z.lxor (AES.gmul (AES.gmul a0 2) 14)
                               (AES.gmul a0 11)) (AES.gmul a0 13))
               (AES.gmul (AES.gmul a0 3) 9)) with a0
      by (symmetry; byte_check a0 H0).
    replace (Z.lxor (Z.lxor (Z.lxor (AES.gmul (AES.gmul a1 3) 14)
                               (AES.gmul (AES.gmul a1 2) 11))
                       (AES.gmul a1 13)) (AES.gmul a1 9)) with 0
      by (symmetry; byte_check a1 H1).
    replace (Z.lxor (Z.lxor (Z.lxor (AES.gmul a2 14)
                               (AES.gmul (AES.gmul a2 3) 11))
                       (AES.gmul (AES.gmul a2 2) 13)) (AES.gmul a2 9)) with 0
      by (symmetry; byte_check a2 H2).
    replace (Z.lxor (Z.lxor (Z.lxor (AES.gmul a3 14) (AES.gmul a3 11))
                       (AES.gmul (AES.gmul a3 3) 13))
               (AES.gmul (AES.gmul a3 2) 9)) with 0
      by (symmetry; byte_check a3 H3).
    now rewrite !Z.lxor_0_r.
  - (* row 1 *)
    replace (Z.lxor (Z.lxor (Z.lxor (AES.gmul (AES.gmul a0 2) 9)
                               (AES.gmul a0 14)) (AES.gmul a0 11))
               (AES.gmul (AES.gmul a0 3) 13)) with 0
      by (symmetry; byte_check a0 H0).
    replace (Z.lxor (Z.lxor (Z.lxor (AES.gmul (AES.gmul a1 3) 9)
                               (AES.gmul (AES.gmul a1 2) 14))
                       (AES.gmul a1 11)) (AES.gmul a1 13)) with a1
      by (symmetry; byte_check a1 H1).
    replace (Z.lxor (Z.lxor (Z.lxor (AES.gmul a2 9)
                               (AES.gmul (AES.gmul a2 3) 14))
                       (AES.gmul (AES.gmul a2 2) 11)) (AES.gmul a2 13)) with 0
      by (symmetry; byte_check a2 H2).
    replace (Z.lxor (Z.lxor (Z.lxor (AES.gmul a3 9) (AES.gmul a3 14))
                       (AES.gmul (AES.gmul a3 3) 11))
               (AES.gmul (AES.gmul a3 2) 13)) with 0
      by (symmetry; byte_check a3 H3).
    now rewrite !Z.lxor_0_r, Z.lxor_0_l.
  - (* row 2 *)
    replace (Z.lxor (Z.lxor (Z.lxor (AES.gmul (AES.gmul a0 2) 13)
                               (AES.gmul a0 9)) (AES.gmul a0 14))
               (AES.gmul (AES.gmul a0 3) 11)) with 0
      by (symmetry; byte_check a0 H0).
    replace (Z.lxor (Z.lxor (Z.lxor (AES.gmul (AES.gmul a1 3) 13)
                               (AES.gmul (AES.gmul a1 2) 9))
                       (AES.gmul a1 14)) (AES.gmul a1 11)) with 0
      by (symmetry; byte_check a1 H1).
    replace (Z.lxor (Z.lxor (Z.lxor (AES.gmul a2 13)
                               (AES.gmul (AES.gmul a2 3) 9))
                       (AES.gmul (AES.gmul a2 2) 14)) (AES.gmul a2 11)) with a2
      by (symmetry; byte_check a2 H2).
    replace (Z.lxor (Z.lxor (Z.lxor (AES.gmul a3 13) (AES.gmul a3 9))
                       (AES.gmul (AES.gmul a3 3) 14))
               (AES.gmul (AES.gmul a3 2) 11)) with 0
      by (symmetry; byte_check a3 H3).
    now rewrite !Z.lxor_0_r, Z.lxor_0_l.
  - (* row 3 *)
    replace (Z.lxor (Z.lxor (Z.lxor (AES.gmul (AES.gmul a0 2) 11)
                               (AES.gmul a0 13)) (AES.gmul a0 9))
               (AES.gmul (AES.gmul a0 3) 14)) with 0
      by (symmetry; byte_check a0 H0).
    replace (Z.lxor (Z.lxor (Z.lxor (AES.gmul (AES.gmul a1 3) 11)
                               (AES.gmul (AES.gmul a1 2) 13))
                       (AES.gmul a1 9)) (AES.gmul a1 14)) with 0
      by (symmetry; byte_check a1 H1).
    replace (Z.lxor (Z.lxor (Z.lxor (AES.gmul a2 11)
                               (AES.gmul (AES.gmul a2 3) 13))
                       (AES.gmul (AES.gmul a2 2) 9)) (AES.gmul a2 14)) with 0
      by (symmetry; byte_check a2 H2).
    replace (Z.lxor (Z.lxor (Z.lxor (AES.gmul a3 11) (AES.gmul a3 13))
                       (AES.gmul (AES.gmul a3 3) 9))
               (AES.gmul (AES.gmul a3 2) 14)) with a3
      by (symmetry; byte_check a3 H3).
    now rewrite !Z.lxor_0_l.
Qed.

(** A block, taken apart into its sixteen bytes. *)
Ltac explode_block s Hs :=
  let Hlen := fresh "Hlen" in
  let Hb := fresh "Hb" in
  destruct Hs as [Hlen Hb];
  do 16 (destruct s as [|? s]; [discriminate Hlen|]);
  destruct s; [|discriminate Hlen];
  clear Hlen; unfold bytes in Hb;
  repeat match goal with
         | H : Forall _ (_ :: _) |- _ =>
             let H1 := fresh "B" in
             let H2 := fresh "H" in
             apply Forall_cons_iff in H as [H1 H2]
         end.

Ltac block_goal :=
  split; [reflexivity|];
  unfold bytes; repeat (apply Forall_cons; [|]); [..|apply Forall_nil].

Lemma xor_bytes_involutive : forall s k,
  length s = length k -> AES.xor_bytes (AES.xor_bytes s k) k = s.
Proof.
  unfold AES.xor_bytes.
  induction s as [|x s IH]; intros [|y k] H; cbn in *; try discriminate;
    auto.
  rewrite Z.lxor_assoc, Z.lxor_nilpotent, Z.lxor_0_r. f_equal.
  apply IH. lia.
Qed.

Lemma xor_bytes_block s k :
  is_block s -> is_block k -> is_block (AES.xor_bytes s k).
Proof.
  intros Hs Hk. explode_block s Hs. explode_block k Hk.
  block_goal; cbn [fst snd]; now apply lxor_byte.
Qed.

Lemma sub_bytes_block s : is_block s -> is_block (AES.sub_bytes s).
Proof.
  intros Hs. explode_block s Hs. block_goal; now apply sbox_byte.
Qed.

Lemma shift_rows_block s : is_block s -> is_block (AES.shift_rows s).
Proof.
  intros Hs. explode_block s Hs. block_goal; assumption.
Qed.

Lemma inv_shift_rows_shift_rows s :
  is_block s -> AES.inv_shift_rows (AES.shift_rows s) = s.
Proof. intros Hs. explode_block s Hs. reflexivity. Qed.

Lemma inv_sub_bytes_sub_bytes s :
  bytes s -> AES.inv_sub_bytes (AES.sub_bytes s) = s.
Proof.
  unfold AES.inv_sub_bytes, AES.sub_bytes.
  induction 1 as [|x s Hx Hs IH]; cbn [map]; auto.
  now rewrite inv_sbox_sbox, IH.
Qed.

Lemma mix_columns_block s : is_block s -> is_block (AES.mix_columns s).
Proof.
  intros Hs. explode_block s Hs.
  assert (G2 : forall a, is_byte a -> is_byte (AES.gmul a 2))
    by (intros; apply gmul_byte; cbn; auto).
  assert (G3 : forall a, is_byte a -> is_byte (AES.gmul a 3))
    by (intros; apply gmul_byte; cbn; auto 6).
  block_goal; auto 8 using lxor_byte.
Qed.

Lemma inv_mix_columns_mix_columns s :
  is_block s -> AES.inv_mix_columns (AES.mix_columns s) = s.
Proof.
  intros Hs. explode_block s Hs.
  unfold AES.inv_mix_columns, AES.mix_columns.
  cbn [AES.by_columns].
  rewrite !inv_mix_mix_column by assumption.
  reflexivity.
Qed.

Lemma next_round_key_block rcon k :
  is_byte rcon -> is_block k -> is_block (AES.next_round_key rcon k).
Proof.
  intros Hr Hk. explode_block k Hk.
  block_goal; cbn [nth fst snd]; auto 8 using lxor_byte, sbox_byte.
Qed.

Lemma expand_blocks rc : forall k,
  Forall is_byte rc -> is_block k -> Forall is_block (AES.expand rc k).
Proof.
  induction rc as [|r rc IH]; intros k Hrc Hk; cbn [AES.expand].
  - constructor.
  - apply Forall_cons_iff in Hrc as [Hr Hrc].
    pose proof (next_round_key_block r k Hr Hk) as Hn.
    constructor; auto.
Qed.

Lemma round_block s rk : is_block s -> is_block rk -> is_block (AES.round s rk).
Proof.
  intros Hs Hrk. unfold AES.round.
  auto using xor_bytes_block, mix_columns_block, shift_rows_block,
    sub_bytes_block.
Qed.

Lemma fold_round_block rks : forall s,
  Forall is_block rks -> is_block s -> is_block (fold_left AES.round rks s).
Proof.
  induction rks as [|rk rks IH]; intros s Hrks Hs; cbn [fold_left]; auto.
  apply Forall_cons_iff in Hrks as [Hrk Hrks].
  apply IH; auto using round_block.
Qed.

(** One decryption round undoes one encryption round, seen from behind
    SubBytes and ShiftRows. *)
Lemma inv_round_round s rk :
  is_block s -> is_block rk ->
  AES.inv_round (AES.shift_rows (AES.sub_bytes (AES.round s rk))) rk
  = AES.shift_rows (AES.sub_bytes s).
Proof.
  intros Hs Hrk.
  assert (Hm : is_block (AES.mix_columns (AES.shift_rows (AES.sub_bytes s))))
    by auto using mix_columns_block, shift_rows_block, sub_bytes_block.
  pose proof (round_block s rk Hs Hrk) as Hr.
  unfold AES.inv_round.
  rewrite inv_shift_rows_shift_rows by now apply sub_bytes_block.
  rewrite inv_sub_bytes_sub_bytes by apply Hr.
  unfold AES.round.
  rewrite xor_bytes_involutive by (destruct Hm, Hrk; congruence).
  apply inv_mix_columns_mix_columns.
  auto using shift_rows_block, sub_bytes_block.
Qed.

Lemma fold_inv_round rks : forall s,
  Forall is_block rks -> is_block s ->
  fold_left AES.inv_round (rev rks)
    (AES.shift_rows (AES.sub_bytes (fold_left AES.round rks s)))
  = AES.shift_rows (AES.sub_bytes s).
Proof.
  induction rks as [|rk rks IH]; intros s Hrks Hs; cbn [fold_left rev].
  - reflexivity.
  - apply Forall_cons_iff in Hrks as [Hrk Hrks].
    rewrite fold_left_app. cbn [fold_left].
    rewrite IH by auto using round_block.
    now apply inv_round_round.
Qed.

Lemma Forall_firstn_block n (l : list (list Z)) :
  Forall is_block l -> Forall is_block (firstn n l).
Proof.
  intros H. rewrite <- (firstn_skipn n l) in H. now apply Forall_app in H.
Qed.

Lemma rcons_bytes : Forall is_byte AES.rcons.
Proof. repeat constructor; unfold is_byte; lia. Qed.

Theorem aes_decrypt_encrypt key blk :
  is_block key -> is_block blk ->
  AES.decrypt key (AES.encrypt key blk) = blk.
Proof.
  intros Hk Hb.
  pose proof (expand_blocks AES.rcons key rcons_bytes Hk) as Hrks.
  assert (H9 : Forall is_block (firstn 9 (AES.expand AES.rcons key)))
    by now apply Forall_firstn_block.
  assert (H10 : is_block (nth 9 (AES.expand AES.rcons key) [])).
  { rewrite Forall_forall in Hrks. apply Hrks. apply nth_In.
    clear. cbn. lia. }
  assert (H0 : is_block (AES.xor_bytes blk key))
    by now apply xor_bytes_block.
  pose proof (fold_round_block _ _ H9 H0) as Hs9.
  unfold AES.decrypt, AES.encrypt, AES.final_round. cbv zeta.
  set (rks := AES.expand AES.rcons key) in *.
  set (s9 := fold_left AES.round (firstn 9 rks) (AES.xor_bytes blk key)) in *.
  rewrite xor_bytes_involutive.
  2:{ pose proof (shift_rows_block _ (sub_bytes_block _ Hs9)) as [L _].
      destruct H10 as [L' _]. congruence. }
  unfold s9. rewrite fold_inv_round by auto.
  rewrite inv_shift_rows_shift_rows by now apply sub_bytes_block.
  rewrite inv_sub_bytes_sub_bytes by apply H0.
  apply xor_bytes_involutive. destruct Hk, Hb. congruence.
Qed.

Lemma aes_block key blk :
  is_block key -> is_block blk -> is_block (AES.encrypt key blk).
Proof.
  intros Hk Hb.
  pose proof (expand_blocks AES.rcons key rcons_bytes Hk) as Hrks.
  assert (H9 : Forall is_block (firstn 9 (AES.expand AES.rcons key)))
    by now apply Forall_firstn_block.
  assert (H10 : is_block (nth 9 (AES.expand AES.rcons key) [])).
  { rewrite Forall_forall in Hrks. apply Hrks. apply nth_In.
    clear. cbn. lia. }
  unfold AES.encrypt, AES.final_round. cbv zeta.
  apply xor_bytes_block; auto.
  apply shift_rows_block, sub_bytes_block, fold_round_block; auto.
  now apply xor_bytes_block.
Qed.

(** The cipher property of the PIN round trip holds for AES. *)
Lemma aes_rijndael_inverse : rijndael_inverse (cipher := aes).
Proof.
  intros key blk Hk Hb. unfold aes128_ecb_decrypt, aes128_ecb_encrypt.
  cbn [rijndael_ecb_encrypt rijndael_ecb_decrypt aes].
  rewrite (as_block_id (AES.encrypt key blk)) by now apply aes_block.
  rewrite aes_decrypt_encrypt by assumption.
  now apply as_block_id.
Qed.


(* ------------------------------------------------------------------ *)
(** ** Evaluations under AES and the sample header                      *)
(* ------------------------------------------------------------------ *)

Section Evaluation.

#[local] Existing Instance aes.
#[local] Existing Instance stoken_header.
#[local] Existing Instance stoken_flags.

(** C7, evaluated: with a two-bit PIN-mode field at bit 3, a record whose
    field holds 2 is reported as "PIN mode" 2 by [securid_token_info], yet
    [securid_pin_required] answers false: it shifts the flags and then
    applies the unshifted mask. *)
Theorem securid_pin_required_mode_2 :
  token_info_pin_mode pinmode2_token = 2
  /\ securid_pin_required pinmode2_token = false.
Proof. split; reflexivity. Qed.

(** With the same header, [securid_pin_required] reads bits 6 and 7 of
    the flags, which lie outside the PIN-mode field (bits 3 and 4). *)
Lemma securid_pin_required_reads_bits_6_7 (t : securid_token) :
  securid_pin_required t = Z.testbit (flags t) 6 || Z.testbit (flags t) 7.
Proof.
  unfold securid_pin_required. cbn [FLD_PINMODE_SHIFT FLD_PINMODE_MASK stoken_header].
  change (Z.shiftl 3 3) with 24.
  change 24 with (Z.lor (2 ^ 3) (2 ^ 4)).
  rewrite Z.land_lor_distr_r, !land_pow2, !Z.shiftr_spec by lia.
  change (3 + 3) with 6. change (4 + 3) with 7.
  destruct (Z.testbit (flags t) 6), (Z.testbit (flags t) 7); reflexivity.
Qed.

(** C4 as stated fails: at minute 3 the code does not take slice 0 (for
    the all-zero seed, serial 000000000000, 2000-01-01 00:03 UTC, under
    AES). *)
Lemma tokencode_minute3_not_slice0 :
  tm_min minute3 = 3
  /\ tokencode_word zero_seed_token minute3
     <> tokencode_slice (tokencode_key0 zero_seed_token minute3) 0.
Proof.
  split; [reflexivity|]. vm_compute. discriminate.
Qed.

(** C1 as stated fails: for an input of exactly 16 bytes the code absorbs
    the input block and the length block only, while the order of the
    claim has an empty padded block and a block of zeroes in between; the
    two MACs differ under AES. *)
Lemma securid_mac_16_bytes_not_spec_order :
  mac_blocks (repeat 0 16) = [repeat 0 16; mac_pad 16]
  /\ spec_mac_blocks (repeat 0 16)
     = [repeat 0 16; repeat 0 16; repeat 0 16; mac_pad 16]
  /\ securid_mac (repeat 0 16) <> spec_mac (repeat 0 16).
Proof.
  split; [reflexivity|]. split; [reflexivity|].
  vm_compute. discriminate.
Qed.

(** C3 as stated fails: with no password and no device id the code MACs
    the 7 magic bytes alone, not 32 zero bytes followed by the magic; the
    two key hashes differ under AES. *)
Lemma generate_key_hash_no_devid_not_padded :
  generate_key_hash None None 0
  = (ERR_NONE, Some (securid_mac magic, securid_shortmac (repeat 0 32)))
  /\ spec_key_buffer None None 0 = repeat 0 32 ++ magic
  /\ securid_mac magic <> securid_mac (spec_key_buffer None None 0).
Proof.
  split; [reflexivity|]. split; [reflexivity|].
  vm_compute. discriminate.
Qed.

Lemma generate_key_hash_mac_input_witness :
  generate_key_hash (Some (chars "pw")) (Some (chars "12-34")) 0 =
    (ERR_NONE,
     Some (securid_mac (chars "pw" ++ chars "1234" ++ magic),
           securid_shortmac (chars "1234" ++ repeat 0 28)))
  /\ length (chars "pw" ++ chars "1234" ++ magic) = 13%nat.
Proof.
  apply (generate_key_hash_mac_input (Some (chars "pw"))
           (Some (chars "12-34")) 0).
  - vm_compute. discriminate.
  - vm_compute. discriminate.
  - vm_compute. discriminate.
Defined.




Lemma pin_encrypt_decrypt_witness :
  exists ct,
    let hex := hex_of (as_block (repeat 200 16)) ++ hex_of ct in
    is_block ct
    /\ securid_encrypt_pin (chars "1234") (chars "pw") (Some (repeat 200 16))
       = Some (hex ++ [0])
    /\ length hex = 64%nat
    /\ Forall lower_hex_char hex
    /\ securid_decrypt_pin (hex ++ [0]) (chars "pw") (repeat 99 10)
       = (ERR_NONE,
          chars "1234" ++ 0 :: skipn (S (length (chars "1234")))
                                 (repeat 99 10)).
Proof.
  apply pin_encrypt_decrypt.
  - exact aes_rijndael_inverse.
  - split; [repeat constructor; unfold digit_char; cbn; lia | cbn; lia].
  - cbn. lia.
Defined.

(** Known answers: FIPS-197, appendix B and appendix C.1. *)
Example aes_fips197_appendix_b :
  AES.encrypt
    [43; 126; 21; 22; 40; 174; 210; 166; 171; 247; 21; 136; 9; 207; 79; 60]
    [50; 67; 246; 168; 136; 90; 48; 141; 49; 49; 152; 162; 224; 55; 7; 52]
  = [57; 37; 132; 29; 2; 220; 9; 251; 220; 17; 133; 151; 25; 106; 11; 50].
Proof. vm_compute. reflexivity. Qed.

Example aes_fips197_appendix_c1 :
  AES.encrypt
    [0; 1; 2; 3; 4; 5; 6; 7; 8; 9; 10; 11; 12; 13; 14; 15]
    [0; 17; 34; 51; 68; 85; 102; 119; 136; 153; 170; 187; 204; 221; 238; 255]
  = [105; 196; 224; 216; 106; 123; 4; 48; 216; 205; 183; 128; 112; 180; 197;
     90].
Proof. vm_compute. reflexivity. Qed.

(** The 81 characters written for the sample record under the password
    "hello". *)
Example sample_token_string :
  c_str (snd (securid_encode_token sample_token (Some (chars "hello")) None
                (repeat 0 82)))
  = chars ("2123456789012" ++
           "213651065753532450666532304257610221147212661773234205261727167"
           ++ "54505").
Proof. vm_compute. reflexivity. Qed.

(** Instances of the further properties. *)

Lemma set_bits_then_get_bits_witness :
  get_bits (set_bits (repeat 255 4) 5 14 9999) 5 14 = 9999 mod 2 ^ 14.
Proof.
  apply set_bits_then_get_bits.
  - apply bytes_repeat. unfold is_byte. lia.
  - lia.
  - lia.
  - cbn. lia.
Defined.

Lemma set_bits_keeps_other_fields_witness :
  length (set_bits (repeat 255 4) 5 14 9999) = length (repeat 255 4)
  /\ get_bits (set_bits (repeat 255 4) 5 14 9999) 19 13
     = get_bits (repeat 255 4) 19 13.
Proof.
  apply set_bits_keeps_other_fields.
  - apply bytes_repeat. unfold is_byte. lia.
  - lia.
  - lia.
  - cbn. lia.
  - lia.
  - lia.
  - right. lia.
Defined.

Lemma get_bits_concat_witness :
  get_bits [18; 52; 86; 120] 4 (8 + 12)
  = get_bits [18; 52; 86; 120] 4 8 * 2 ^ 12
    + get_bits [18; 52; 86; 120] (4 + 8) 12.
Proof. apply get_bits_concat; lia. Defined.

Lemma bits_to_numoutput_format_witness :
  exists digits,
    bits_to_numoutput [18; 52; 86; 120] (3 * Z.of_nat 8) = digits ++ [0]
    /\ length digits = 8%nat
    /\ Forall octal_char digits.
Proof.
  apply bits_to_numoutput_format.
  repeat constructor; unfold is_byte; lia.
Defined.

Lemma numoutput_numinput_bits_witness :
  bit (numinput_to_bits
         (bits_to_numoutput [18; 52; 86; 120] (3 * Z.of_nat 8))
         (repeat 255 5) (3 * Z.of_nat 8)) 10
  = bit [18; 52; 86; 120] 10.
Proof.
  apply numoutput_numinput_bits.
  - repeat constructor; unfold is_byte; lia.
  - apply bytes_repeat. unfold is_byte. lia.
  - cbn. lia.
  - cbn. lia.
Defined.

Lemma numinput_to_bits_mod8_witness :
  numinput_to_bits (chars "89") (repeat 0 3) 6
  = numinput_to_bits (chars "01") (repeat 0 3) 6.
Proof.
  apply numinput_to_bits_mod8.
  intros k Hk. change (6 / 3) with 2 in Hk.
  destruct k as [|[|k]]; [reflexivity | reflexivity | lia].
Defined.

Lemma mac_pad_big_endian_witness :
  mac_pad 1000 =
  repeat 0 12 ++ [(1000 * 8 / 2 ^ 24) mod 256; (1000 * 8 / 2 ^ 16) mod 256;
                  (1000 * 8 / 2 ^ 8) mod 256; (1000 * 8) mod 256].
Proof. apply mac_pad_big_endian; lia. Defined.

Lemma securid_decode_token_scratch_witness :
  securid_decode_token sample_ctf (repeat 0 25) sample_token
  = securid_decode_token sample_ctf (repeat 255 25) sample_token.
Proof.
  apply securid_decode_token_scratch.
  - apply bytes_repeat. unfold is_byte. lia.
  - apply bytes_repeat. unfold is_byte. lia.
  - cbn. lia.
  - cbn. lia.
Defined.

Lemma securid_decode_token_success_witness :
  let r := snd (securid_decode_token sample_ctf (repeat 0 25) sample_token) in
  serial r = firstn 12 (skipn 1 sample_ctf) ++ [0]
  /\ is_block (enc_seed r) /\ has_enc_seed r = 1
  /\ 0 <= flags r < 2 ^ 16
  /\ 0 <= exp_date r < 2 ^ 14
  /\ 0 <= dec_seed_hash r < 2 ^ 15
  /\ 0 <= device_id_hash r < 2 ^ 15
  /\ has_dec_seed r = 0 /\ dec_seed r = repeat 0 16
  /\ pin r = repeat 0 9 /\ pinmode r = 0 /\ is_smartphone r = 0.
Proof.
  apply securid_decode_token_success.
  - apply bytes_repeat. unfold is_byte. lia.
  - cbn. lia.
  - cbn. lia.
  - vm_compute. reflexivity.
Defined.

Lemma securid_decrypt_seed_missing_witness :
  securid_decrypt_seed locked_token None None
  = (ERR_MISSING_PASSWORD, locked_token).
Proof.
  apply securid_decrypt_seed_missing.
  left. split; reflexivity.
Defined.

Lemma securid_decrypt_seed_unprotected_witness :
  securid_decrypt_seed zero_seed_token (Some (chars "any")) (Some (chars "1"))
  = securid_decrypt_seed zero_seed_token None None.
Proof. apply securid_decrypt_seed_unprotected; reflexivity. Defined.

Lemma securid_decrypt_seed_success_witness :
  let r := snd (securid_decrypt_seed sample_decoded (Some (chars "hello"))
                  None) in
  r = set_has_dec_seed (set_dec_seed sample_decoded (dec_seed r)) 1
  /\ is_block (dec_seed r)
  /\ securid_shortmac (dec_seed r) = dec_seed_hash sample_decoded.
Proof.
  apply securid_decrypt_seed_success.
  vm_compute. reflexivity.
Defined.

Lemma securid_encode_token_failure_witness :
  let bad :=
    (MAX_PASS <? strlen (opt_str (Some (repeat 97 41))))
    || (devid_len_of (is_smartphone sample_token) + 1
        <? Z.of_nat (length (devid_digits None (is_smartphone sample_token))))
  in
  fst (securid_encode_token sample_token (Some (repeat 97 41)) None
         (repeat 0 82))
  = (if bad then ERR_BAD_PASSWORD else ERR_NONE)
  /\ (bad = true ->
      snd (securid_encode_token sample_token (Some (repeat 97 41)) None
             (repeat 0 82)) = repeat 0 82).
Proof. apply securid_encode_token_failure. cbn. lia. Defined.

Lemma securid_encode_token_format_witness :
  exists body,
    snd (securid_encode_token sample_token (Some (chars "hello")) None
           (repeat 0 90))
    = [50] ++ chars "123456789012" ++ body ++ 0 :: skipn 82 (repeat 0 90)
    /\ length body = 68%nat
    /\ Forall octal_char body.
Proof.
  apply securid_encode_token_format.
  - reflexivity.
  - reflexivity.
  - repeat constructor; unfold digit_char; cbn; lia.
  - cbn. unfold BINENC_BITS. lia.
  - cbn. lia.
  - vm_compute. reflexivity.
Defined.

Lemma encode_decode_decrypt_roundtrip_witness :
  let s := c_str (snd (securid_encode_token sample_token
                         (Some (chars "hello")) (Some (chars "12-34"))
                         (repeat 0 82))) in
  let r := set_is_smartphone
             (snd (securid_decode_token s (repeat 0 25) token_zero))
             (is_smartphone sample_token) in
  fst (securid_decode_token s (repeat 0 25) token_zero) = ERR_NONE
  /\ securid_pass_required r
     = negb (is_null (nonempty (Some (chars "hello"))))
  /\ securid_devid_required r
     = negb (is_null (nonempty (Some (chars "12-34"))))
  /\ fst (securid_decrypt_seed r (Some (chars "hello"))
            (Some (chars "12-34"))) = ERR_NONE
  /\ dec_seed (snd (securid_decrypt_seed r (Some (chars "hello"))
                      (Some (chars "12-34"))))
     = dec_seed sample_token
  /\ has_dec_seed (snd (securid_decrypt_seed r (Some (chars "hello"))
                          (Some (chars "12-34")))) = 1.
Proof.
  apply (encode_decode_decrypt_roundtrip sample_token
           (Some (chars "hello")) (Some (chars "12-34")) (repeat 0 82)
           (repeat 0 25) (chars "123456789012") token_zero).
  - exact aes_rijndael_inverse.
  - reflexivity.
  - reflexivity.
  - repeat constructor; unfold digit_char; cbn; lia.
  - cbn. lia.
  - split; [reflexivity | apply bytes_repeat; unfold is_byte; lia].
  - cbn. lia.
  - cbn. unfold BINENC_BITS. lia.
  - cbn. lia.
  - cbn. lia.
  - reflexivity.
  - cbn. lia.
  - apply bytes_repeat. unfold is_byte. lia.
  - reflexivity.
  - vm_compute. reflexivity.
Defined.

Lemma securid_check_exp_sign_witness :
  (0 < securid_check_exp sample_token 1700000000
   <-> 1700000000 + 86400 <= grace_end sample_token)
  /\ (securid_check_exp sample_token 1700000000 = 0
      <-> grace_end sample_token - 86400 < 1700000000
          < grace_end sample_token + 86400)
  /\ (securid_check_exp sample_token 1700000000 < 0
      <-> grace_end sample_token + 86400 <= 1700000000).
Proof.
  apply securid_check_exp_sign.
  - cbn. lia.
  - vm_compute. split; congruence.
Defined.

Lemma securid_decrypt_pin_success_witness :
  exists p,
    good_pin p
    /\ snd (securid_decrypt_pin sample_enc_pin (chars "pw") (repeat 99 10))
       = p ++ 0 :: skipn (S (length p)) (repeat 99 10).
Proof.
  apply securid_decrypt_pin_success.
  - cbn. lia.
  - vm_compute. reflexivity.
Defined.

Lemma hex2byte_sprintf_02x_witness : hex2byte (sprintf_02x 171) = 171.
Proof. apply hex2byte_sprintf_02x. unfold is_byte. lia. Defined.

Lemma bcd_write_layout_witness :
  length (bcd_write (repeat 255 8) 0 2024 2) = length (repeat 255 8)
  /\ (forall k, (k < 2)%nat ->
        nth (0 + k) (bcd_write (repeat 255 8) 0 2024 2) 0
        = bcd ((2024 / 100 ^ Z.of_nat (2 - 1 - k)) mod 100))
  /\ (forall j, (j < 0 \/ 0 + 2 <= j)%nat ->
        nth j (bcd_write (repeat 255 8) 0 2024 2) 0
        = nth j (repeat 255 8) 0).
Proof.
  apply bcd_write_layout.
  - lia.
  - cbn. lia.
Defined.

Lemma tokencode_bcd_time_layout_witness :
  tokencode_bcd_time leap_day =
  [bcd ((tm_year leap_day + 1900) / 100);
   bcd ((tm_year leap_day + 1900) mod 100);
   bcd (tm_mon leap_day + 1); bcd (tm_mday leap_day); bcd (tm_hour leap_day);
   bcd (4 * (tm_min leap_day / 4)); 0; 0].
Proof. apply tokencode_bcd_time_layout; cbn; lia. Defined.

Lemma key_from_time_layout_witness :
  key_from_time (tokencode_bcd_time leap_day) 3 (serial sample_token)
    (repeat 0 16)
  = firstn 3 (tokencode_bcd_time leap_day) ++ repeat 170 (8 - 3)
    ++ map (fun i => 16 * (nth (4 + 2 * i) (serial sample_token) 0 - 48)
                     + (nth (5 + 2 * i) (serial sample_token) 0 - 48))
         (seq 0 4)
    ++ repeat 187 4.
Proof.
  apply key_from_time_layout.
  - lia.
  - cbn. lia.
  - reflexivity.
  - intros i Hi. unfold digit_char.
    do 12 (destruct i as [|i]; [cbn; lia|]). lia.
Defined.

Lemma securid_compute_tokencode_format_witness :
  exists digits,
    securid_compute_tokencode pin_token leap_day (repeat 255 12)
    = digits ++ 0 :: skipn 9 (repeat 255 12)
    /\ length digits = 8%nat
    /\ Forall digit_char digits.
Proof. apply securid_compute_tokencode_format. cbn. lia. Defined.

Lemma securid_compute_tokencode_digits_witness :
  nth (Z.to_nat (7 - 2))
    (securid_compute_tokencode pin_token leap_day (repeat 255 12)) 0
  = 48 + (dec_digit (tokencode_word pin_token leap_day) 2
          + (if 2 <? strlen (pin pin_token)
             then nth (Z.to_nat (strlen (pin pin_token) - 1 - 2))
                    (pin pin_token) 0 - 48
             else 0)) mod 10.
Proof.
  apply securid_compute_tokencode_digits.
  - cbn. lia.
  - repeat constructor; unfold digit_char; cbn; lia.
  - lia.
Defined.

Lemma securid_random_token_success_witness :
  let r := securid_random_token 1700000000 (repeat 7 16) (repeat 77 16)
             (repeat 0 16) (repeat 0 16) in
  fst r = ERR_NONE
  /\ dec_seed (snd r) = map u8 (repeat 7 16)
  /\ dec_seed_hash (snd r) = securid_shortmac (map u8 (repeat 7 16))
  /\ has_dec_seed (snd r) = 0
  /\ is_block (enc_seed (snd r)) /\ has_enc_seed (snd r) = 1
  /\ (exists digits,
        serial (snd r) = digits ++ [0]
        /\ length digits = 12%nat /\ Forall digit_char digits)
  /\ flags (snd r) = random_flags /\ pinmode (snd r) = 3
  /\ pin (snd r) = repeat 0 9 /\ is_smartphone (snd r) = 0.
Proof. apply securid_random_token_success; reflexivity. Defined.

Lemma securid_random_token_rng_failure_witness :
  let r := securid_random_token 1700000000 (repeat 7 16) (repeat 77 3)
             (repeat 0 16) (repeat 0 16) in
  fst r = ERR_GENERAL
  /\ snd r = set_dec_seed token_zero (dec_seed (snd r)).
Proof.
  apply securid_random_token_rng_failure.
  right. cbn. lia.
Defined.

Lemma securid_random_token_days_left_witness :
  let r := securid_random_token 1700000000 (repeat 7 16) (repeat 77 16)
             (repeat 0 16) (repeat 0 16) in
  securid_check_exp (snd r) 1700000000
  = 60 + 30 * Z.land (u8 (nth 12 (repeat 77 16) 0)) 15
    + (if (1700000000 - SECURID_EPOCH) mod 86400 <=? 43200 then 1 else 0)
  /\ 60 <= securid_check_exp (snd r) 1700000000 <= 511.
Proof.
  apply securid_random_token_days_left; try reflexivity.
  unfold SECURID_EPOCH. lia.
Defined.

Lemma securid_random_token_decrypts_witness :
  let r := snd (securid_random_token 1700000000 (repeat 7 16) (repeat 77 16)
                  (repeat 0 16) (repeat 0 16)) in
  securid_decrypt_seed r (Some (chars "any")) None
  = (ERR_NONE, set_has_dec_seed r 1).
Proof.
  apply securid_random_token_decrypts; try reflexivity.
  exact aes_rijndael_inverse.
Defined.

End Evaluation.

